(** * The recordings downloader ([random_or_once/download_zoom_recordings.py])

    A shallow embedding of the script and the properties its specification
    states about it: file-name sanitising, collision-free destination paths,
    month windows over a date range, cursor pagination with a token refresh,
    the streaming download with its temporary file, and the main loop.

    Python [str] values are lists of Unicode code points, dates are
    year/month/day triples, the file system is a finite map from paths to
    nodes, and the remote service is an arbitrary state machine answering
    one request at a time. *)

From Stdlib Require Import ZArith Lia Ascii String.
From stdpp Require Import gmap strings list fin_maps pretty.

Open Scope Z_scope.
Open Scope list_scope.

(** ** Python strings *)

Definition char := N.
Definition str := list char.

(** A string literal of the source, as code points. *)
Definition lit (s : string) : str := N_of_ascii <$> list_ascii_of_string s.

Definition SPACE : char := 32%N.
Definition UNDERSCORE : char := 95%N.

(** The character class of the first substitution of [sanitize]: slash,
    backslash, question mark, percent, star, colon, bar, double quote, the
    two angle brackets, and the control characters 0x00 to 0x1F. *)
Definition illegal (c : char) : bool :=
  (c <=? 31)%N
  || bool_decide (c ∈ [47; 92; 63; 37; 42; 58; 124; 34; 60; 62]%N).

(** [\s] on a [str] pattern, and the characters [str.strip()] removes:
    the code points for which [str.isspace] holds. *)
Definition is_space (c : char) : bool :=
  ((9 <=? c) && (c <=? 13))%N
  || ((28 <=? c) && (c <=? 32))%N
  || bool_decide (c ∈ [133; 160; 5760; 8232; 8233; 8239; 8287; 12288]%N)
  || ((8192 <=? c) && (c <=? 8202))%N.

(** [re.sub] with a pattern matching one character of a class. *)
Definition sub_each (cls : char → bool) (repl : char) (s : str) : str :=
  (λ c, if cls c then repl else c) <$> s.

(** [re.sub] with a pattern matching one or more characters of a class:
    every maximal run is replaced once.
    [in_run] tells that the previous character belonged to the class. *)
Fixpoint sub_runs_from (cls : char → bool) (repl : char)
    (in_run : bool) (s : str) : str :=
  match s with
  | [] => []
  | c :: t =>
      if cls c
      then (if in_run then sub_runs_from cls repl true t
            else repl :: sub_runs_from cls repl true t)
      else c :: sub_runs_from cls repl false t
  end.

Definition sub_runs (cls : char → bool) (repl : char) (s : str) : str :=
  sub_runs_from cls repl false s.

Fixpoint lstrip (s : str) : str :=
  match s with
  | [] => []
  | c :: t => if is_space c then lstrip t else s
  end.

Definition rstrip (s : str) : str := rev (lstrip (rev s)).

Definition strip (s : str) : str := rstrip (lstrip s).

(** The slice [s[:n]]; a negative [n] counts from the end. *)
Definition slice_to (n : Z) (s : str) : str :=
  if 0 <=? n then take (Z.to_nat n) s
  else take (Z.to_nat (Z.of_nat (length s) + n)) s.

Definition sanitize (name : str) (max_len : Z) : str :=
  let name := sub_each illegal UNDERSCORE name in
  let name := strip (sub_runs is_space SPACE name) in
  slice_to max_len name.

(** The default of the parameter [max_len]. *)
Definition sanitize_max_len : Z := 150.

Definition legal (c : char) : Prop := illegal c = false.
Definition nonspace (c : char) : Prop := is_space c = false.

(** Whitespace occurs only as a single space that follows no whitespace;
    [prev] tells whether the character before the string is whitespace. *)
Fixpoint spaced (prev : bool) (s : str) : Prop :=
  match s with
  | [] => True
  | c :: t =>
      (if is_space c then c = SPACE ∧ prev = false else True)
      ∧ spaced (is_space c) t
  end.

(** ** Exceptions and loop endings *)

(** The exceptions the script can end with.  [HTTPError] is what
    [raise_for_status] raises, [ConnectionError] stands for a request that
    got no response, [OverflowError] is date arithmetic leaving year 9999. *)
Inductive exn :=
| HTTPError (status : Z)
| ConnectionError
| JSONDecodeError
| KeyError (key : string)
| RuntimeError (msg : string)
| OverflowError
| IsADirectoryError
| FileExistsError
| FileNotFoundError.

(** How the run of a generator ended: its body finished, it raised, or the
    fuel given to the model was used up while it was still running. *)
Inductive ending :=
| Exhausted
| Raised (e : exn)
| Unfinished.

(** ** Calendar dates ([datetime.date]) *)

Record date := Date { year : Z; month : Z; day : Z }.

Definition MINYEAR : Z := 1.
Definition MAXYEAR : Z := 9999.

Definition is_leap (y : Z) : bool :=
  (y mod 4 =? 0) && (negb (y mod 100 =? 0) || (y mod 400 =? 0)).

Definition days_in_month (y m : Z) : Z :=
  if m =? 2 then (if is_leap y then 29 else 28)
  else if (m =? 4) || (m =? 6) || (m =? 9) || (m =? 11) then 30 else 31.

(** The values a [date] object can hold. *)
Definition valid_dateb (d : date) : bool :=
  (MINYEAR <=? year d) && (year d <=? MAXYEAR)
  && (1 <=? month d) && (month d <=? 12)
  && (1 <=? day d) && (day d <=? days_in_month (year d) (month d)).

Definition valid_date (d : date) : Prop := valid_dateb d = true.

(** Comparison of dates: by year, then month, then day. *)
Definition date_ltb (a b : date) : bool :=
  (year a <? year b)
  || ((year a =? year b)
      && ((month a <? month b)
          || ((month a =? month b) && (day a <? day b)))).

Definition date_leb (a b : date) : bool := negb (date_ltb b a).

Definition date_lt (a b : date) : Prop := date_ltb a b = true.
Definition date_le (a b : date) : Prop := date_leb a b = true.

(** [min(a, b)] returns its first argument unless the second is smaller. *)
Definition date_min (a b : date) : date := if date_ltb b a then b else a.

(** The day after and the day before; [None] outside years 1 to 9999. *)
Definition date_succ (d : date) : option date :=
  if day d <? days_in_month (year d) (month d)
  then Some (Date (year d) (month d) (day d + 1))
  else if month d <? 12 then Some (Date (year d) (month d + 1) 1)
  else if year d <? MAXYEAR then Some (Date (year d + 1) 1 1)
  else None.

Definition date_pred (d : date) : option date :=
  if 1 <? day d then Some (Date (year d) (month d) (day d - 1))
  else if 1 <? month d
  then Some (Date (year d) (month d - 1)
               (days_in_month (year d) (month d - 1)))
  else if MINYEAR <? year d then Some (Date (year d - 1) 12 31)
  else None.

Fixpoint iter_option {A} (n : nat) (f : A → option A) (x : A) : option A :=
  match n with
  | O => Some x
  | S n => match f x with Some y => iter_option n f y | None => None end
  end.

(** [d + timedelta(days=n)]; [None] is Python's [OverflowError]. *)
Definition date_add_days (d : date) (n : Z) : option date :=
  if 0 <=? n then iter_option (Z.to_nat n) date_succ d
  else iter_option (Z.to_nat (- n)) date_pred d.

(** [d.replace(day=k)], for a day that exists in every month. *)
Definition replace_day (d : date) (k : Z) : date :=
  Date (year d) (month d) k.

(** The proleptic Gregorian ordinal of a date ([date.toordinal]). *)
Definition days_before_year (y : Z) : Z :=
  let y := y - 1 in y * 365 + y / 4 - y / 100 + y / 400.

Fixpoint days_before_month_nat (y : Z) (m : nat) : Z :=
  match m with
  | O => 0
  | S m' => days_before_month_nat y m' + days_in_month y (Z.of_nat m)
  end.

Definition days_before_month (y m : Z) : Z :=
  days_before_month_nat y (Z.to_nat (m - 1)).

Definition toordinal (d : date) : Z :=
  days_before_year (year d) + days_before_month (year d) (month d) + day d.

(** [str(n)] for a natural number, and zero padding as in [%04d]. *)
Definition str_of_nat (n : N) : str := lit (pretty n).

Definition zero_pad (width : nat) (n : Z) : str :=
  let s := str_of_nat (Z.to_N n) in
  replicate (width - length s)%nat 48%N ++ s.

(** [d.isoformat()]: [YYYY-MM-DD]. *)
Definition isoformat (d : date) : str :=
  zero_pad 4 (year d) ++ lit "-" ++ zero_pad 2 (month d)
  ++ lit "-" ++ zero_pad 2 (day d).

Definition first_of_month (d : date) : date := replace_day d 1.

(** Next month: the 28th plus four days lies in the next month. *)
Definition add_month (d : date) : option date :=
  match date_add_days (replace_day d 28) 4 with
  | Some d' => Some (replace_day d' 1)
  | None => None
  end.

(** The loop of [month_windows], on dates: the windows yielded, and how
    the generator ended. *)
Fixpoint month_windows_from (fuel : nat) (cur end_d : date)
    : list (date * date) * ending :=
  match fuel with
  | O => ([], Unfinished)
  | S fuel =>
      if date_leb cur end_d then
        match add_month cur with
        | None => ([], Raised OverflowError)
        | Some next_first =>
            match date_add_days next_first (-1) with
            | None => ([], Raised OverflowError)
            | Some last_day =>
                let window_end := date_min end_d last_day in
                let '(ws, e) := month_windows_from fuel next_first end_d in
                ((cur, window_end) :: ws, e)
            end
        end
      else ([], Exhausted)
  end.

Definition month_windows_dates (fuel : nat) (start_d end_d : date)
    : list (date * date) * ending :=
  month_windows_from fuel (first_of_month start_d) end_d.

Definition iso_window (w : date * date) : str * str :=
  (isoformat (fst w), isoformat (snd w)).

(** [month_windows]: the pairs of ISO strings yielded. *)
Definition month_windows (fuel : nat) (start_d end_d : date)
    : list (str * str) * ending :=
  let '(ws, e) := month_windows_dates fuel start_d end_d in
  (iso_window <$> ws, e).

(** Iterations that suffice for a range: one per month touched, and the
    final test of the loop condition. *)
Definition months_spanned (start_d end_d : date) : nat :=
  Z.to_nat (12 * (year end_d - year start_d)
            + (month end_d - month start_d) + 2).

(** A key that orders valid dates as the comparison does. *)
Definition date_key (d : date) : Z := 416 * year d + 32 * month d + day d.

(** The first day of the month after month [m] of year [y]. *)
Definition month_after (y m : Z) : option date :=
  if m <? 12 then Some (Date y (m + 1) 1)
  else if y <? MAXYEAR then Some (Date (y + 1) 1 1)
  else None.

Definition month_index (d : date) : Z := 12 * year d + month d.

(** A window that is one calendar month. *)
Definition whole_month (w : date * date) : Prop :=
  day w.1 = 1 ∧ year w.2 = year w.1 ∧ month w.2 = month w.1
  ∧ day w.2 = days_in_month (year w.1) (month w.1).

(** [tiles a ws b]: the windows [ws] start at [a], a first day of a month,
    each is a whole month followed by the next day, except the last, which
    ends at [b] within its month. *)
Inductive tiles : date → list (date * date) → date → Prop :=
| tiles_last a b :
    valid_date a → valid_date b → day a = 1 →
    year b = year a → month b = month a →
    tiles a [(a, b)] b
| tiles_month a e a' ws b :
    valid_date a → valid_date e → whole_month (a, e) →
    date_succ e = Some a' → tiles a' ws b →
    tiles a ((a, e) :: ws) b.

Definition in_window (d : date) (w : date * date) : Prop :=
  date_le w.1 d ∧ date_le d w.2.

(** ** Paths ([pathlib.Path]) and the file system *)

(** A path with a final component: the parts of its parent and its name. *)
Record Path := mkPath { parent : list str; name : str }.

#[global] Instance Path_eq_dec : EqDecision Path.
Proof. solve_decision. Defined.

#[global] Instance Path_countable : Countable Path :=
  inj_countable' (λ p, (parent p, name p)) (λ q, mkPath q.1 q.2)
    (λ p, match p with mkPath _ _ => eq_refl end).

(** [p / n] *)
Definition path_div (p : Path) (n : str) : Path :=
  mkPath (parent p ++ [name p]) n.

Definition with_name (p : Path) (n : str) : Path := mkPath (parent p) n.

Definition DOT : char := 46%N.

(** [s.rfind(c)], [None] for -1. *)
Fixpoint rfind (c : char) (s : str) : option nat :=
  match s with
  | [] => None
  | x :: t =>
      match rfind c t with
      | Some i => Some (S i)
      | None => if (x =? c)%N then Some O else None
      end
  end.

(** The position at which [suffix] and [stem] split a name: the last dot,
    when it is neither the first nor the last character. *)
Definition suffix_index (n : str) : option nat :=
  match rfind DOT n with
  | Some i => if (0 <? i)%nat && (i <? length n - 1)%nat then Some i else None
  | None => None
  end.

Definition suffix (p : Path) : str :=
  match suffix_index (name p) with
  | Some i => drop i (name p)
  | None => []
  end.

Definition stem (p : Path) : str :=
  match suffix_index (name p) with
  | Some i => take i (name p)
  | None => name p
  end.

(** [p.with_suffix(sfx)] for a suffix that is empty or starts with a dot. *)
Definition with_suffix (p : Path) (sfx : str) : Path :=
  let old_suffix := suffix p in
  match old_suffix with
  | [] => with_name p (name p ++ sfx)
  | _ => with_name p (take (length (name p) - length old_suffix) (name p)
                        ++ sfx)
  end.

Definition bytes := list Byte.byte.

Inductive node :=
| Dir
| File (content : bytes).

(** The file system: what lies at each path. *)
Abbreviation FS := (gmap Path node).

Definition path_exists (fs : FS) (p : Path) : bool :=
  bool_decide (is_Some (fs !! p)).

(** The name tried at round [i] of [next_unique_path]. *)
Definition candidate (path : Path) (i : N) : Path :=
  with_name path (stem path ++ lit "-" ++ str_of_nat i ++ suffix path).

Fixpoint next_unique_from (fuel : nat) (fs : FS) (path : Path) (i : N)
    : option Path :=
  match fuel with
  | O => None
  | S fuel =>
      let p := candidate path i in
      if negb (path_exists fs p) then Some p
      else next_unique_from fuel fs path (i + 1)%N
  end.

(** [next_unique_path]; [None] when the loop is still running after [fuel]
    rounds. *)
Definition next_unique_path (fuel : nat) (fs : FS) (path : Path)
    : option Path :=
  if negb (path_exists fs path) then Some path
  else next_unique_from fuel fs path 2%N.

(** The parents of a path, outermost first. *)
Fixpoint ancestors_from (pre rest : list str) : list Path :=
  match rest with
  | [] => []
  | n :: rest' => mkPath pre n :: ancestors_from (pre ++ [n]) rest'
  end.

Definition ancestors (p : Path) : list Path := ancestors_from [] (parent p).

(** ** The remote service and the state of a run *)

(** The query parameters of a listing request. *)
Record Params := mkParams {
  p_from : str;
  p_to : str;
  p_page_size : Z;
  p_next_page_token : option str
}.

(** The three requests the script sends: the token request to the identity
    provider, a page of the listing with its bearer token, and an asset by
    its full URL. *)
Inductive Request :=
| PostToken
| GetListing (bearer : str) (user_id : str) (params : Params)
| GetAsset (url : str).

Record RecFile := mkRecFile {
  recording_type : option str;
  file_extension : option str;
  file_type : option str;
  download_url : option str
}.

(** A record of the listing.  [start_time] holds the calendar date of the
    timestamp; [None] stands for a missing key. *)
Record Meeting := mkMeeting {
  topic : option str;
  start_time : option date;
  recording_files : option (list RecFile)
}.

(** The keys the script reads in a JSON body. *)
Record Json := mkJson {
  access_token : option str;
  meetings : option (list Meeting);
  next_page_token : option str
}.

(** A response: its status, its body as JSON when it parses, and its body
    as the chunks [iter_content] delivers; [stream_ok] is false when the
    stream breaks after these chunks. *)
Record Reply := mkReply {
  status_code : Z;
  json_body : option Json;
  chunks : list bytes;
  stream_ok : bool
}.

(** An exchange with the remote: a request and its reply, if any. *)
Definition exchange : Type := Request * option Reply.

(** The result of a computation: a value, an exception, or no result
    within the fuel given to the model. *)
Inductive result (A : Type) :=
| Ok (a : A)
| Err (e : exn)
| OutOfFuel.
Arguments Ok {A} a.
Arguments Err {A} e.
Arguments OutOfFuel {A}.

(** Truth value of an optional string: absent and empty are false. *)
Definition truthy (o : option str) : bool :=
  match o with
  | Some (_ :: _) => true
  | _ => false
  end.

Definition QUESTION : char := 63%N.

(** The statuses for which [raise_for_status] raises. *)
Definition http_error (status : Z) : bool :=
  (400 <=? status) && (status <? 600).

(** The token a reply to the token request carries, when [get_token]
    accepts the reply. *)
Definition reply_token (r : Reply) : option str :=
  if http_error (status_code r) then None
  else match json_body r with
       | Some j => access_token j
       | None => None
       end.

Definition msg_token_expired : string :=
  "Token expired during download. Re-run the script.".
Definition msg_zero_bytes : string := "Downloaded zero bytes.".

Section Remote.

(** The remote is any state machine: [serve] answers a request in a state
    and gives the next state; no answer is a failed connection.  [lower] is
    [str.lower]. *)
Context {RS : Type}.
Context (serve : Request → RS → option Reply * RS).
Context (lower : str → str).

Record World := mkWorld {
  remote : RS;
  trace : list exchange;
  fs : FS;
  stdout : list str
}.

(** The world after a change of the file system, and after an exchange
    with the remote that leaves it in state [s]. *)
Definition with_fs (f : FS) (w : World) : World :=
  mkWorld (remote w) (trace w) f (stdout w).

Definition with_exchange (s : RS) (req : Request) (r : option Reply)
    (w : World) : World :=
  mkWorld s (trace w ++ [(req, r)]) (fs w) (stdout w).

Definition M (A : Type) : Type := World → result A * World.

Definition ret {A} (a : A) : M A := λ w, (Ok a, w).
Definition raise {A} (e : exn) : M A := λ w, (Err e, w).
Definition out_of_fuel {A} : M A := λ w, (OutOfFuel, w).

Definition bind {A B} (m : M A) (k : A → M B) : M B :=
  λ w, match m w with
       | (Ok a, w') => k a w'
       | (Err e, w') => (Err e, w')
       | (OutOfFuel, w') => (OutOfFuel, w')
       end.

#[local] Notation "x <- m ; k" := (bind m (λ x, k))
  (at level 100, m at next level, right associativity).
#[local] Notation "m ;; k" := (bind m (λ _, k))
  (at level 100, right associativity).

Definition get_fs : M FS := λ w, (Ok (fs w), w).
Definition set_fs (f : FS) : M unit := λ w, (Ok tt, with_fs f w).
Definition print (line : str) : M unit :=
  λ w, (Ok tt, mkWorld (remote w) (trace w) (fs w) (stdout w ++ [line])).

(** One HTTP exchange, recorded in the trace. *)
Definition request (req : Request) : M Reply :=
  λ w, let '(r, s) := serve req (remote w) in
       let w' := with_exchange s req r w in
       match r with
       | Some r => (Ok r, w')
       | None => (Err ConnectionError, w')
       end.

Definition raise_for_status (r : Reply) : M unit :=
  if http_error (status_code r)
  then raise (HTTPError (status_code r)) else ret tt.

Definition json (r : Reply) : M Json :=
  match json_body r with
  | Some j => ret j
  | None => raise JSONDecodeError
  end.

Definition get_token : M str :=
  r <- request PostToken;
  raise_for_status r;;
  j <- json r;
  match access_token j with
  | Some t => ret t
  | None => raise (KeyError "access_token")
  end.

(** *** File operations *)

(** [open(p, 'wb')]: the file is created or truncated. *)
Definition open_wb (p : Path) : M unit :=
  f <- get_fs;
  match f !! p with
  | Some Dir => raise IsADirectoryError
  | _ => set_fs (<[p := File []]> f)
  end.

(** [f.write(chunk)] on the file opened at [p]. *)
Definition write (p : Path) (chunk : bytes) : M unit :=
  f <- get_fs;
  match f !! p with
  | Some (File c) => set_fs (<[p := File (c ++ chunk)]> f)
  | _ => raise FileNotFoundError
  end.

(** [p.stat().st_size]; a directory has a positive size. *)
Definition stat_size (p : Path) : M Z :=
  f <- get_fs;
  match f !! p with
  | Some (File c) => ret (Z.of_nat (length c))
  | Some Dir => ret 4096
  | None => raise FileNotFoundError
  end.

(** [p.unlink(missing_ok=True)] *)
Definition unlink (p : Path) : M unit :=
  f <- get_fs;
  match f !! p with
  | Some Dir => raise IsADirectoryError
  | _ => set_fs (delete p f)
  end.

(** [src.rename(dst)], replacing a file at [dst]. *)
Definition rename (src dst : Path) : M unit :=
  f <- get_fs;
  match f !! src with
  | None => raise FileNotFoundError
  | Some n =>
      match f !! dst with
      | Some Dir => raise IsADirectoryError
      | _ => set_fs (<[dst := n]> (delete src f))
      end
  end.

Fixpoint mkdir_each (ps : list Path) : M unit :=
  match ps with
  | [] => ret tt
  | p :: ps =>
      f <- get_fs;
      match f !! p with
      | Some (File _) => raise FileExistsError
      | Some Dir => mkdir_each ps
      | None => set_fs (<[p := Dir]> f);; mkdir_each ps
      end
  end.

(** [p.mkdir(parents=True, exist_ok=True)] *)
Definition mkdir (p : Path) : M unit := mkdir_each (ancestors p ++ [p]).

(** The loop over the chunks of the stream, skipping empty ones; a broken
    stream raises after the chunks it delivered. *)
Fixpoint write_chunks (p : Path) (cs : list bytes) (ok : bool) : M unit :=
  match cs with
  | [] => if ok then ret tt else raise ConnectionError
  | c :: cs =>
      match c with
      | [] => write_chunks p cs ok
      | _ => write p c;; write_chunks p cs ok
      end
  end.

(** *** [download] *)

Definition asset_url (url token : str) : str :=
  let sep := if bool_decide (QUESTION ∈ url) then lit "&" else lit "?" in
  url ++ sep ++ lit "access_token=" ++ token.

Definition part_path (dest : Path) : Path :=
  with_suffix dest (suffix dest ++ lit ".part").

(** [fuel] bounds the depth of the recursion. *)
Fixpoint download (fuel : nat) (url : str) (dest : Path) (token : str)
    : M unit :=
  match fuel with
  | O => out_of_fuel
  | S fuel =>
      let new_url := asset_url url token in
      let tmp := part_path dest in
      (r <- request (GetAsset new_url);
       if status_code r =? 401 then
         token <- get_token;
         download fuel url dest token;;
         raise (RuntimeError msg_token_expired)
       else
         raise_for_status r;;
         open_wb tmp;;
         write_chunks tmp (chunks r) (stream_ok r));;
      size <- stat_size tmp;
      if size =? 0 then
        unlink tmp;;
        raise (RuntimeError msg_zero_bytes)
      else rename tmp dest
  end.

(** *** [list_records] *)

Fixpoint fold_m {A B} (f : A → B → M A) (l : list B) (a : A) : M A :=
  match l with
  | [] => ret a
  | b :: l => a' <- f a b; fold_m f l a'
  end.

Definition for_each {B} (f : B → M unit) (l : list B) : M unit :=
  fold_m (λ _ b, f b) l tt.

(** [params] after the assignment guarded by [if next_page]. *)
Definition set_next_page (params : Params) (next_page : option str)
    : Params :=
  if truthy next_page
  then mkParams (p_from params) (p_to params) (p_page_size params) next_page
  else params.

(** The generator is consumed by a [for] loop: [body acc m token] is the
    loop body run on the pair [(m, token)] yielded, [acc] the state the
    consumer carries from one record to the next. *)
Section ListRecords.
Context {A : Type} (body : A → Meeting → str → M A) (user_id : str).

(** What follows the fetch of a page: the status check, the records of
    the page, and the next cursor. *)
Definition consume_page
    (continue : str → Params → option str → A → M A)
    (token : str) (params : Params) (r : Reply) (acc : A) : M A :=
  raise_for_status r;;
  data <- json r;
  acc <- fold_m (λ acc m, body acc m token)
           (default [] (meetings data)) acc;
  let next_page := next_page_token data in
  if truthy next_page then continue token params next_page acc
  else ret acc.

(** The fetch of a page, with the refresh on status 401. *)
Definition fetch_page (token : str) (params : Params) : M (Reply * str) :=
  r <- request (GetListing token user_id params);
  if status_code r =? 401 then
    token <- get_token;
    r <- request (GetListing token user_id params);
    ret (r, token)
  else ret (r, token).

Fixpoint list_records_from (fuel : nat) (token : str) (params : Params)
    (next_page : option str) (acc : A) : M A :=
  match fuel with
  | O => out_of_fuel
  | S fuel =>
      let params := set_next_page params next_page in
      rt <- fetch_page token params;
      consume_page (list_records_from fuel) rt.2 params rt.1 acc
  end.

Definition list_records (fuel : nat) (token f t : str) (acc : A) : M A :=
  list_records_from fuel token (mkParams f t 300 None) None acc.
End ListRecords.

(** *** [main] *)

Record Config := mkConfig {
  USER_ID : str;
  OUT_DIR : Path;
  FROM_DATE : date;
  TO_DATE : date
}.

(** [a or b] for an optional string [a]. *)
Definition or_else (a : option str) (b : str) : str :=
  if truthy a then default [] a else b.

Definition file_name (rf : RecFile) : str :=
  let rtype :=
    sub_each (λ c, (c =? SPACE)%N) UNDERSCORE
      (lower (default (lit "file") (recording_type rf))) in
  let ext :=
    lower (or_else (file_extension rf) (or_else (file_type rf) (lit "dat")))
  in
  sanitize (rtype ++ lit "." ++ ext) sanitize_max_len.

(** The body of the loop over the files of a record. *)
Definition process_file (fuel : nat) (folder : Path) (new_token : str)
    (rf : RecFile) : M unit :=
  f <- get_fs;
  match next_unique_path fuel f (path_div folder (file_name rf)) with
  | None => out_of_fuel
  | Some dest =>
      if truthy (download_url rf) then
        print (lit "[get] " ++ name folder ++ lit " -> " ++ name dest);;
        download fuel (default [] (download_url rf)) dest new_token
      else
        print (lit "[skip] no download_url: " ++ name dest)
  end.

Definition folder_name (meeting : Meeting) (dt : date) : str :=
  let topic :=
    sanitize (default (lit "Untitled") (topic meeting)) sanitize_max_len in
  lit "xRecording - " ++ topic ++ lit " - " ++ isoformat dt.

(** The body of the loop over the records of a window. *)
Definition process_meeting (fuel : nat) (base : Path) (meeting : Meeting)
    : M unit :=
  new_token <- get_token;
  dt <- match start_time meeting with
        | Some d => ret d
        | None => raise (KeyError "start_time")
        end;
  let folder := path_div base (folder_name meeting dt) in
  mkdir folder;;
  for_each (process_file fuel folder new_token)
    (default [] (recording_files meeting)).

Definition main (fuel : nat) (cfg : Config) : M unit :=
  let base := OUT_DIR cfg in
  mkdir base;;
  token <- get_token;
  let '(windows, e) := month_windows fuel (FROM_DATE cfg) (TO_DATE cfg) in
  token <- fold_m
             (λ token ft,
                list_records
                  (λ _ meeting tok, process_meeting fuel base meeting;; ret tok)
                  (USER_ID cfg) fuel token ft.1 ft.2 token)
             windows token;
  match e with
  | Exhausted => ret tt
  | Raised e => raise e
  | Unfinished => out_of_fuel
  end.

(** [emits m P]: when [m] returns [a], it has extended the trace by some
    [d] with [P a d]. *)
Definition emits {A} (m : M A) (P : A → list exchange → Prop) : Prop :=
  ∀ w a w', m w = (Ok a, w') → ∃ d, trace w' = trace w ++ d ∧ P a d.

Definition silent {A} (m : M A) : Prop := emits m (λ _ d, d = []).

(** [sends m P]: whatever its outcome, [m] extends the trace by some [d]
    with [P outcome d]. *)
Definition sends {A} (m : M A) (P : result A → list exchange → Prop)
    : Prop :=
  ∀ w, ∃ d, trace (m w).2 = trace w ++ d ∧ P (m w).1 d.

Definition quiet {A} (m : M A) : Prop := sends m (λ _ d, d = []).

End Remote.

(** ** Measures of a trace *)

(** The records of a page that [list_records] accepts. *)
Definition page_meetings (r : Reply) : list Meeting :=
  match json_body r with
  | Some j => default [] (meetings j)
  | None => []
  end.

(** Counts over a trace: the token requests, the records of the listing
    pages that were accepted, and the listing requests answered 401. *)
Definition token_requests (d : list exchange) : nat :=
  sum_list_with (λ x, match x.1 with PostToken => 1 | _ => 0 end)%nat d.

Definition records_listed (d : list exchange) : nat :=
  sum_list_with
    (λ x, match x with
          | (GetListing _ _ _, Some r) =>
              if http_error (status_code r) then 0
              else length (page_meetings r)
          | _ => 0
          end)%nat d.

Definition unauthorized_listings (d : list exchange) : nat :=
  sum_list_with
    (λ x, match x with
          | (GetListing _ _ _, Some r) =>
              if (status_code r =? 401)%Z then 1 else 0
          | _ => 0
          end)%nat d.

(** [tokened cur d]: every asset request of [d] carries the token of the
    latest token reply before it, and no listing request lies between the
    two; [cur] is that token at the start of [d]. *)
Fixpoint tokened (cur : option str) (d : list exchange) : Prop :=
  match d with
  | [] => True
  | (PostToken, r) :: d => tokened (r ≫= reply_token) d
  | (GetListing _ _ _, _) :: d => tokened None d
  | (GetAsset url, _) :: d =>
      (∃ t u, cur = Some t ∧ url = asset_url u t) ∧ tokened cur d
  end.

(** The token that [tokened] holds after the exchanges [d]. *)
Fixpoint token_after (cur : option str) (d : list exchange) : option str :=
  match d with
  | [] => cur
  | (PostToken, r) :: d => token_after (r ≫= reply_token) d
  | (GetListing _ _ _, _) :: d => token_after None d
  | (GetAsset _, _) :: d => token_after cur d
  end.

(** [holding t r d]: from a state that holds the token [t], the exchanges
    [d] are in order, and the state still holds [t] when the outcome [r]
    is a value. *)
Definition holding {A} (t : str) (r : result A) (d : list exchange) : Prop :=
  tokened (Some t) d ∧ ∀ a, r = Ok a → token_after (Some t) d = Some t.

(** [from_any r d]: the exchanges [d] are in order whatever token was
    held before them. *)
Definition from_any {A} (r : result A) (d : list exchange) : Prop :=
  ∀ c, tokened c d.

(** The asset requests of a record, all with the token [t]. *)
Definition assets_with (t : str) (d : list exchange) : Prop :=
  Forall (λ x, ∃ u r, x = (GetAsset (asset_url u t), Some r)) d.

(** The asset requests [main] sends for the files of a record when it
    holds the token [t]: one for every file with a download URL. *)
Definition asset_requests (t : str) (files : list RecFile) : list Request :=
  flat_map
    (λ rf, if truthy (download_url rf)
           then [GetAsset (asset_url (default [] (download_url rf)) t)]
           else [])
    files.

(** [accounted k d]: in [d] there are [k] token requests beyond one per
    record listed and one per listing answered 401, and the asset requests
    carry the tokens of the records. *)
Definition accounted (k : nat) (d : list exchange) : Prop :=
  (token_requests d
   = k + records_listed d + unauthorized_listings d)%nat
  ∧ ∀ c, tokened c d.

(** [complete_body d content]: [content] is the whole, non-empty body of
    an asset reply among [d] that was a success and whose stream
    completed. *)
Definition complete_body (d : list exchange) (content : bytes) : Prop :=
  ∃ u r, (GetAsset u, Some r) ∈ d
         ∧ http_error (status_code r) = false
         ∧ stream_ok r = true
         ∧ content = concat (chunks r) ∧ content ≠ [].

(** The exchanges of a page fetch that returns: the page, or a page
    answered 401, a token request, and the same page again. *)
Definition page_fetch (user_id token : str) (params : Params)
    (rt : Reply * str) (d : list exchange) : Prop :=
  (d = [(GetListing token user_id params, Some rt.1)]
   ∧ status_code rt.1 ≠ 401 ∧ rt.2 = token)
  ∨ ∃ r1 rtok,
      d = [(GetListing token user_id params, Some r1);
           (PostToken, Some rtok);
           (GetListing rt.2 user_id params, Some rt.1)]
      ∧ status_code r1 = 401 ∧ reply_token rtok = Some rt.2.

(** ** Simulated remotes *)

(** [str.lower] on ASCII letters. *)
Definition ascii_lower (s : str) : str :=
  (λ c, if (65 <=? c)%N && (c <=? 90)%N then (c + 32)%N else c) <$> s.

Fixpoint assoc {V} (k : str) (l : list (str * V)) : option V :=
  match l with
  | [] => None
  | (k', v) :: l => if bool_decide (k = k') then Some v else assoc k l
  end.

Definition reply_status (status : Z) : Reply := mkReply status None [] true.

Definition reply_json (j : Json) : Reply := mkReply 200 (Some j) [] true.

Definition reply_body (cs : list bytes) : Reply := mkReply 200 None cs true.

(** A page of the listing without a next cursor. *)
Definition last_page (ms : list Meeting) : Json :=
  mkJson None (Some ms) (Some []).

(** A remote that hands out [token], lists the page stored for the [from]
    date of the request, and serves the assets stored by full URL; its
    state counts the listing and asset requests it still answers with the
    status 401. *)
Definition table_remote (token : str) (pages : list (str * Json))
    (assets : list (str * Reply)) (req : Request) (refusals : nat)
    : option Reply * nat :=
  match req with
  | PostToken =>
      (Some (reply_json (mkJson (Some token) None None)), refusals)
  | GetListing _ _ params =>
      match refusals with
      | S n => (Some (reply_status 401), n)
      | O => (Some (default (reply_status 404)
                      (reply_json <$> assoc (p_from params) pages)), O)
      end
  | GetAsset url =>
      match refusals with
      | S n => (Some (reply_status 401), n)
      | O => (Some (default (reply_status 404) (assoc url assets)), O)
      end
  end.

(** A remote that answers every asset request with the status 401. *)
Definition refusing_remote (token : str) (req : Request) (st : unit)
    : option Reply * unit :=
  match req with
  | PostToken => (Some (reply_json (mkJson (Some token) None None)), tt)
  | _ => (Some (reply_status 401), tt)
  end.

Definition start_world {RS} (s : RS) (f : FS) : @World RS :=
  mkWorld s [] f [].

Definition demo_token : str := lit "tok-1".
Definition demo_data : bytes := [Byte.x52; Byte.x49; Byte.x46; Byte.x46].

Definition audio_url (i : N) : str :=
  lit "https://zoom.test/rec/" ++ str_of_nat i ++ lit "/audio".
Definition video_url (i : N) : str :=
  lit "https://zoom.test/rec/" ++ str_of_nat i ++ lit "/video".

Definition audio_file (i : N) : RecFile :=
  mkRecFile (Some (lit "audio_only")) (Some (lit "M4A")) None
    (Some (audio_url i)).
Definition video_file (i : N) : RecFile :=
  mkRecFile (Some (lit "shared_screen_with_speaker_view"))
    (Some (lit "MP4")) None (Some (video_url i)).

Definition demo_meeting (i : N) (title : string) (d : date) : Meeting :=
  mkMeeting (Some (lit title)) (Some d) (Some [audio_file i; video_file i]).

(** The end-to-end scenario: two records in January 2024, none in
    February, one in March, each with an audio asset and a video asset;
    [video] is the body served for every video. *)
Definition scenario_pages : list (str * Json) :=
  [(lit "2024-01-01",
    last_page [demo_meeting 1 "Weekly sync" (Date 2024 1 16);
               demo_meeting 2 "Design: review" (Date 2024 1 23)]);
   (lit "2024-02-01", last_page []);
   (lit "2024-03-01",
    last_page [demo_meeting 3 "Planning" (Date 2024 3 5)])].

Definition scenario_assets (video : list bytes) : list (str * Reply) :=
  flat_map
    (λ i, [(asset_url (audio_url i) demo_token, reply_body [demo_data]);
           (asset_url (video_url i) demo_token, reply_body video)])
    [1; 2; 3]%N.

Definition scenario_remote (video : list bytes)
    : Request → nat → option Reply * nat :=
  table_remote demo_token scenario_pages (scenario_assets video).

Definition scenario_cfg : Config :=
  mkConfig (lit "me") (mkPath [] (lit "out"))
    (Date 2024 1 15) (Date 2024 3 10).

Definition demo_dest : Path := mkPath [lit "out"] (lit "audio_only.m4a").

(** A path taken three times over. *)
Definition demo_fs : FS :=
  <[candidate demo_dest 3 := File []]>
    (<[candidate demo_dest 2 := File []]> {[demo_dest := File []]}).

(** What the end-to-end scenario leaves when every video is empty. *)
Definition out_dir : Path := mkPath [] (lit "out").
Definition first_folder : Path :=
  path_div out_dir (lit "xRecording - Weekly sync - 2024-01-16").
Definition second_folder : Path :=
  path_div out_dir (lit "xRecording - Design_ review - 2024-01-23").
Definition first_audio : Path := path_div first_folder (lit "audio_only.m4a").
Definition first_video : Path :=
  path_div first_folder (lit "shared_screen_with_speaker_view.mp4").

Definition january : Params :=
  mkParams (lit "2024-01-01") (lit "2024-01-31") 300 None.

(** ** Further notions *)

(** A decimal digit. *)
Definition is_digit (c : char) : Prop := (48 ≤ c ≤ 57)%N.

(** [Forall legal], as a test. *)
Definition all_legal (s : str) : bool := forallb (λ c, negb (illegal c)) s.

(** [n.endswith(sfx)] *)
Definition ends_with (sfx n : str) : bool :=
  bool_decide (drop (length n - length sfx) n = sfx).

(** The file system holds [n] at [p]. *)
Definition kept (p : Path) (n : node) (f : FS) : Prop := f !! p = Some n.

(** [keeps P m]: whatever its outcome, [m] leaves a file system with [P]
    one with [P]. *)
Definition keeps {RS A} (P : FS → Prop) (m : @M RS A) : Prop :=
  ∀ w, P (fs w) → P (fs (m w).2).

(** The consumer [list(list_records(...))]: every pair yielded is kept, in
    order. *)
Definition collect {RS} (acc : list (Meeting * str)) (m : Meeting)
    (tok : str) : @M RS (list (Meeting * str)) :=
  ret (acc ++ [(m, tok)]).

(** The pairs a page yields under a token. *)
Definition yielded (token : str) (p : Json) : list (Meeting * str) :=
  (λ m, (m, token)) <$> default [] (meetings p).

(** The exchanges of a listing that is answered page by page: each request
    carries the parameters of the one before, with the cursor of the page
    before when that page has one. *)
Fixpoint page_trace (token user_id : str) (params : Params)
    (pages : list Json) : list exchange :=
  match pages with
  | [] => []
  | p :: rest =>
      (GetListing token user_id params, Some (reply_json p))
      :: page_trace token user_id
           (set_next_page params (next_page_token p)) rest
  end.

(** Nothing lies at [q]. *)
Definition absent (q : Path) (f : FS) : Prop := f !! q = None.

(** [q] is the directory [base], one of its parents, or lies below it. *)
Definition within (base q : Path) : bool :=
  bool_decide (q = base)
  || bool_decide (q ∈ ancestors base)
  || bool_decide ((parent base ++ [name base]) `prefix_of` parent q).

(** [always Q m]: whatever its outcome, every exchange of [m] has [Q]. *)
Definition always {RS A} (Q : exchange → Prop) (m : @M RS A) : Prop :=
  ∀ w, ∃ d, trace (m w).2 = trace w ++ d ∧ Forall Q d.

(** A listing request for the user [uid] and one of the ranges, with pages
    of 300 records; or any other exchange. *)
Definition lists_range (uid : str) (ranges : list (str * str))
    (x : exchange) : Prop :=
  match x.1 with
  | GetListing _ u p =>
      u = uid ∧ p_page_size p = 300 ∧ (p_from p, p_to p) ∈ ranges
  | _ => True
  end.

(** A remote that answers the listing requests with the pages of a script,
    one after the other, whatever cursor they carry; its state is what is
    left of the script. *)
Definition paged_remote (req : Request) (pages : list Json)
    : option Reply * list Json :=
  match req, pages with
  | GetListing _ _ _, p :: rest => (Some (reply_json p), rest)
  | _, _ => (Some (reply_status 404), pages)
  end.

(** A remote that answers every listing request with the same page. *)
Definition looping_remote (page : Json) (req : Request) (st : unit)
    : option Reply * unit :=
  match req with
  | GetListing _ _ _ => (Some (reply_json page), tt)
  | _ => (Some (reply_status 404), tt)
  end.

(** A remote whose only asset is a stream that breaks after its first
    chunk. *)
Definition broken_stream : Reply := mkReply 200 None [demo_data] false.

Definition broken_remote : Request → nat → option Reply * nat :=
  table_remote demo_token []
    [(asset_url (audio_url 1) demo_token, broken_stream)].

(** Sample data: a file outside the output directory, a title that tries to
    leave it, a file entry without an address, a record without a start
    time, a page with a cursor, and a range whose end lies before the month
    of its start. *)
Definition notes : Path := mkPath [] (lit "notes.txt").

Definition escaping_meeting : Meeting :=
  mkMeeting (Some (lit "../../etc: a?")) None None.


Definition first_page : Json :=
  mkJson None (Some [demo_meeting 1 "Weekly sync" (Date 2024 1 16)])
    (Some (lit "cursor-1")).

Definition reversed_cfg : Config :=
  mkConfig (lit "me") out_dir (Date 2024 3 10) (Date 2024 1 15).

(** * Properties *)

(** ** [sanitize] *)

Lemma sub_each_legal s : Forall legal (sub_each illegal UNDERSCORE s).
Proof.
  unfold sub_each. apply Forall_fmap, Forall_forall. intros c _.
  unfold legal; simpl. destruct (illegal c) eqn:E; [reflexivity | exact E].
Qed.

Lemma sub_runs_from_Forall (P : char → Prop) cls repl b s :
  P repl → Forall P s → Forall P (sub_runs_from cls repl b s).
Proof.
  intros Hr Hs. revert b. induction Hs as [|c t Hc Ht IH]; intros b; simpl.
  - constructor.
  - destruct (cls c), b; auto.
Qed.

Lemma lstrip_drop s :
  ∃ k, lstrip s = drop k s ∧ Forall (λ c, is_space c = true) (take k s).
Proof.
  induction s as [|c t IH]; simpl.
  - exists O. split; [reflexivity | constructor].
  - destruct (is_space c) eqn:E.
    + destruct IH as (k & -> & Hk). exists (S k). split; [reflexivity|].
      simpl. constructor; assumption.
    + exists O. split; [reflexivity | constructor].
Qed.

Lemma rstrip_take s :
  ∃ k, rstrip s = take k s ∧ Forall (λ c, is_space c = true) (drop k s).
Proof.
  unfold rstrip. destruct (lstrip_drop (rev s)) as (k & -> & Hk).
  exists (length s - k)%nat. split.
  - rewrite skipn_rev, rev_involutive. reflexivity.
  - rewrite firstn_rev in Hk. apply Forall_rev in Hk.
    rewrite rev_involutive in Hk. exact Hk.
Qed.

Lemma sub_runs_spaced b s : spaced b (sub_runs_from is_space SPACE b s).
Proof.
  revert b. induction s as [|c t IH]; intros b; simpl; [exact I|].
  destruct (is_space c) eqn:E.
  - destruct b; [apply IH|]. simpl. split; [split; reflexivity | apply IH].
  - simpl. rewrite E. split; [exact I | apply IH].
Qed.

Lemma spaced_weaken b s : spaced b s → spaced false s.
Proof.
  destruct s as [|c t]; simpl; [trivial|].
  intros [H1 H2]. split; [|exact H2].
  destruct (is_space c); [|exact I]. split; [apply H1 | reflexivity].
Qed.

Lemma spaced_drop b k s : spaced b s → spaced false (drop k s).
Proof.
  revert b s. induction k as [|k IH]; intros b s H.
  - rewrite drop_0. eapply spaced_weaken, H.
  - destruct s as [|c t]; simpl; [exact I|]. eapply IH, H.
Qed.

Lemma spaced_take b k s : spaced b s → spaced b (take k s).
Proof.
  revert b s. induction k as [|k IH]; intros b s H; [exact I|].
  destruct s as [|c t]; simpl; [exact I|].
  destruct H as [H1 H2]. split; [exact H1 | apply IH, H2].
Qed.

Lemma spaced_lookup b s i c :
  spaced b s → s !! i = Some c → is_space c = true →
  c = SPACE ∧ ∀ c', s !! S i = Some c' → is_space c' = false.
Proof.
  revert b i. induction s as [|x t IH]; intros b i H Hi Hc; [discriminate|].
  destruct H as [H1 H2]. destruct i as [|i]; simpl in Hi.
  - injection Hi as ->. rewrite Hc in H1, H2. split; [apply H1|].
    intros c' Hc'. destruct t as [|y t']; [discriminate|].
    simpl in Hc'. injection Hc' as ->. destruct H2 as [H2 _].
    destruct (is_space c'); [destruct H2; discriminate | reflexivity].
  - eapply IH; eassumption.
Qed.

Lemma filter_sub_runs b s :
  filter nonspace (sub_runs_from is_space SPACE b s) = filter nonspace s.
Proof.
  revert b. induction s as [|c t IH]; intros b; simpl; [reflexivity|].
  destruct (is_space c) eqn:E.
  - rewrite (filter_cons_False nonspace c) by (unfold nonspace; congruence).
    destruct b; [apply IH|].
    rewrite (filter_cons_False nonspace SPACE) by (unfold nonspace; discriminate).
    apply IH.
  - rewrite !(filter_cons_True nonspace c) by exact E. f_equal. apply IH.
Qed.

Lemma filter_spaces_nil s :
  Forall (λ c, is_space c = true) s → filter nonspace s = [].
Proof.
  induction 1 as [|c t Hc _ IH]; [reflexivity|].
  rewrite filter_cons_False by (unfold nonspace; congruence). exact IH.
Qed.

Lemma filter_strip s : filter nonspace (strip s) = filter nonspace s.
Proof.
  unfold strip.
  destruct (rstrip_take (lstrip s)) as (k & Ek & Hk).
  destruct (lstrip_drop s) as (j & Ej & Hj).
  rewrite Ek. transitivity (filter nonspace (lstrip s)).
  - rewrite <- (take_drop k (lstrip s)) at 2.
    rewrite (filter_app nonspace), (filter_spaces_nil _ Hk), app_nil_r.
    reflexivity.
  - rewrite Ej. rewrite <- (take_drop j s) at 2.
    rewrite (filter_app nonspace), (filter_spaces_nil _ Hj). reflexivity.
Qed.

Lemma strip_Forall (P : char → Prop) s : Forall P s → Forall P (strip s).
Proof.
  intros H. unfold strip.
  destruct (rstrip_take (lstrip s)) as (k & -> & _).
  destruct (lstrip_drop s) as (j & -> & _).
  apply Forall_take, Forall_drop, H.
Qed.

Lemma strip_spaced b s : spaced b s → spaced false (strip s).
Proof.
  intros H. unfold strip.
  destruct (rstrip_take (lstrip s)) as (k & -> & _).
  destruct (lstrip_drop s) as (j & -> & _).
  apply spaced_take. eapply spaced_drop, H.
Qed.

(** C7: the output of [sanitize] (with the default bound of 150) holds no
    character of the illegal class, is at most 150 characters long, holds
    whitespace only as single spaces that no whitespace follows, and is the
    first 150 characters of a string that has, whitespace apart, the
    characters of the title with every illegal one replaced by an
    underscore. *)
Theorem sanitize_spec (title : str) :
  let out := sanitize title sanitize_max_len in
  Forall (λ c, illegal c = false) out
  ∧ (length out ≤ 150)%nat
  ∧ (∀ i c, out !! i = Some c → is_space c = true →
       c = SPACE ∧ ∀ c', out !! S i = Some c' → is_space c' = false)
  ∧ ∃ full,
      out = take 150 full
      ∧ filter (λ c, is_space c = false) full
        = filter (λ c, is_space c = false)
            ((λ c, if illegal c then UNDERSCORE else c) <$> title).
Proof.
  cbv zeta. unfold sanitize, sanitize_max_len, slice_to.
  change (0 <=? 150) with true. cbv iota.
  change (Z.to_nat 150) with 150%nat.
  set (full := strip (sub_runs is_space SPACE (sub_each illegal UNDERSCORE title))).
  split; [|split; [|split]].
  - apply Forall_take, strip_Forall, sub_runs_from_Forall;
      [reflexivity | apply sub_each_legal].
  - rewrite length_take. lia.
  - intros i c Hi Hc. eapply spaced_lookup; [|exact Hi|exact Hc].
    apply spaced_take. eapply strip_spaced, sub_runs_spaced.
  - exists full. split; [reflexivity|].
    unfold full. rewrite filter_strip. apply filter_sub_runs.
Qed.

Lemma lstrip_id s :
  Forall (λ c, is_space c = false) s → lstrip s = s.
Proof. destruct 1 as [|c t Hc Ht]; simpl; [|rewrite Hc]; reflexivity. Qed.

Lemma sub_runs_id b s :
  Forall (λ c, is_space c = false) s → sub_runs_from is_space SPACE b s = s.
Proof.
  intros H. revert b. induction H as [|c t Hc Ht IH]; intros b; simpl;
    [reflexivity|]. rewrite Hc, IH. reflexivity.
Qed.

(** A title within the bound whose only whitespace is control characters
    is mapped character by character. *)
Lemma sanitize_pointwise (title : str) :
  (length title ≤ 150)%nat →
  Forall (λ c, is_space c = true → illegal c = true) title →
  sanitize title sanitize_max_len
  = (λ c, if illegal c then UNDERSCORE else c) <$> title.
Proof.
  intros Hlen Hws. unfold sanitize, sanitize_max_len, slice_to.
  change (0 <=? 150) with true. cbv iota.
  assert (Hns : Forall (λ c, is_space c = false)
                  (sub_each illegal UNDERSCORE title)).
  { unfold sub_each. apply Forall_fmap. eapply Forall_impl; [exact Hws|].
    intros c Hc. simpl. destruct (illegal c) eqn:E; [reflexivity|].
    destruct (is_space c) eqn:Es; [|reflexivity].
    apply Hc in Es. congruence. }
  unfold sub_runs, strip, rstrip. rewrite (sub_runs_id _ _ Hns).
  rewrite (lstrip_id _ Hns).
  rewrite lstrip_id by (apply Forall_rev, Hns). rewrite rev_involutive.
  apply take_ge. unfold sub_each. rewrite length_fmap. exact Hlen.
Qed.

Example sanitize_example :
  sanitize (lit "  Q3: plans/ideas   <draft>  ") sanitize_max_len
  = lit "Q3_ plans_ideas _draft_".
Proof. vm_compute. reflexivity. Qed.

(** ** [next_unique_path] *)

Lemma stem_suffix (p : Path) : stem p ++ suffix p = name p.
Proof.
  unfold stem, suffix. destruct (suffix_index (name p)); [apply take_drop|].
  apply app_nil_r.
Qed.

Lemma lit_inj : Inj (=) (=) lit.
Proof.
  intros s1 s2 H. unfold lit in H.
  assert (Hl : list_ascii_of_string s1 = list_ascii_of_string s2).
  { revert H. generalize (list_ascii_of_string s1), (list_ascii_of_string s2).
    induction l as [|a l IH]; intros [|b l'] H; try discriminate; [reflexivity|].
    injection H as Hab Hl. f_equal; [|apply IH, Hl].
    rewrite <- (ascii_N_embedding a), <- (ascii_N_embedding b), Hab.
    reflexivity. }
  rewrite <- (string_of_list_ascii_of_string s1),
    <- (string_of_list_ascii_of_string s2), Hl. reflexivity.
Qed.

Lemma str_of_nat_inj : Inj (=) (=) str_of_nat.
Proof. intros i j H. apply lit_inj in H. apply (inj pretty), H. Qed.

Lemma candidate_inj (path : Path) : Inj (=) (=) (candidate path).
Proof.
  intros i j H. apply (f_equal name) in H.
  cbn [name candidate with_name] in H.
  apply app_inv_head, app_inv_head, app_inv_tail in H.
  apply str_of_nat_inj, H.
Qed.

Lemma path_exists_true (fs : FS) p : path_exists fs p = true ↔ is_Some (fs !! p).
Proof. unfold path_exists. apply bool_decide_eq_true. Qed.

Lemma path_exists_false (fs : FS) p : path_exists fs p = false ↔ fs !! p = None.
Proof.
  unfold path_exists. rewrite bool_decide_eq_false. symmetry.
  apply eq_None_not_Some.
Qed.

(** Distinct paths that all exist are no more than the file system holds. *)
Lemma taken_bound (fs : FS) (f : nat → Path) (n : nat) :
  Inj (=) (=) f →
  (∀ k, (k < n)%nat → is_Some (fs !! f k)) → (n ≤ size fs)%nat.
Proof.
  intros Hinj Hall.
  set (l := f <$> seq 0 n).
  assert (Hnd : NoDup l) by (apply (NoDup_fmap_2 f), NoDup_seq).
  assert (Hsub : (list_to_set l : gset Path) ⊆ dom fs).
  { intros p Hp. apply elem_of_list_to_set, list_elem_of_fmap in Hp.
    destruct Hp as (k & -> & Hk). apply elem_of_seq in Hk.
    apply elem_of_dom, Hall. lia. }
  apply subseteq_size in Hsub.
  rewrite size_list_to_set, size_dom in Hsub by exact Hnd.
  unfold l in Hsub. rewrite length_fmap, length_seq in Hsub. exact Hsub.
Qed.

Lemma next_unique_from_None fuel (fs : FS) path i :
  next_unique_from fuel fs path i = None →
  ∀ k, (k < fuel)%nat → is_Some (fs !! candidate path (i + N.of_nat k)).
Proof.
  revert i. induction fuel as [|fuel IH]; intros i H k Hk; [lia|].
  simpl in H. destruct (path_exists fs (candidate path i)) eqn:E;
    [|discriminate]. simpl in H.
  destruct k as [|k].
  - rewrite N.add_0_r. apply path_exists_true, E.
  - replace (i + N.of_nat (S k))%N with (i + 1 + N.of_nat k)%N by lia.
    apply IH; [exact H | lia].
Qed.

Lemma next_unique_from_Some fuel (fs : FS) path i q :
  next_unique_from fuel fs path i = Some q →
  ∃ j, (i ≤ j)%N ∧ q = candidate path j ∧ fs !! q = None
       ∧ ∀ k, (i ≤ k < j)%N → is_Some (fs !! candidate path k).
Proof.
  revert i. induction fuel as [|fuel IH]; intros i H; [discriminate|].
  simpl in H. destruct (path_exists fs (candidate path i)) eqn:E; simpl in H.
  - destruct (IH _ H) as (j & Hj & -> & Hfree & Htaken).
    exists j. split; [lia|]. split; [reflexivity|]. split; [exact Hfree|].
    intros k Hk. destruct (decide (k = i)) as [->|Hne].
    + apply path_exists_true, E.
    + apply Htaken. lia.
  - injection H as <-. exists i. split; [lia|]. split; [reflexivity|].
    split; [apply path_exists_false, E|]. intros k Hk. lia.
Qed.

(** C6: with more rounds than the file system has entries,
    [next_unique_path] returns a path at which nothing exists: the path
    itself when it is free, and otherwise the candidate [stem-i.suffix]
    with the least [i] from 2 on that is free, so that after [p], [p-2] and
    [p-3] comes [p-4]; a candidate has the parent of the path and the
    counter between its stem and its extension. *)
Theorem next_unique_path_spec (fs : FS) (path : Path) (fuel : nat) :
  (size fs < fuel)%nat →
  ∃ q,
    next_unique_path fuel fs path = Some q
    ∧ fs !! q = None
    ∧ (fs !! path = None → q = path)
    ∧ (is_Some (fs !! path) →
       ∃ i, (2 ≤ i)%N ∧ q = candidate path i
            ∧ ∀ j, (2 ≤ j < i)%N → is_Some (fs !! candidate path j))
    ∧ (is_Some (fs !! path) →
       is_Some (fs !! candidate path 2) →
       is_Some (fs !! candidate path 3) →
       fs !! candidate path 4 = None →
       q = candidate path 4)
    ∧ (∀ i, parent (candidate path i) = parent path
            ∧ name (candidate path i)
              = stem path ++ lit "-" ++ str_of_nat i ++ suffix path)
    ∧ stem path ++ suffix path = name path.
Proof.
  intros Hfuel. unfold next_unique_path.
  destruct (path_exists fs path) eqn:E; simpl.
  - apply path_exists_true in E.
    destruct (next_unique_from fuel fs path 2) as [q|] eqn:Hq.
    + destruct (next_unique_from_Some _ _ _ _ _ Hq)
        as (i & Hi & -> & Hfree & Htaken).
      exists (candidate path i).
      split; [reflexivity|]. split; [exact Hfree|].
      split; [intros HN; rewrite HN in E; destruct E; discriminate|].
      split; [intros _; exists i; auto|].
      split; [|split; [intros j; split; reflexivity | apply stem_suffix]].
      intros _ H2 H3 H4. f_equal.
      destruct (decide (i = 2%N)) as [->|];
        [rewrite Hfree in H2; destruct H2; discriminate|].
      destruct (decide (i = 3%N)) as [->|];
        [rewrite Hfree in H3; destruct H3; discriminate|].
      destruct (decide (i = 4%N)) as [->|]; [reflexivity|].
      assert (H : is_Some (fs !! candidate path 4)) by (apply Htaken; lia).
      rewrite H4 in H. destruct H; discriminate.
    + exfalso. pose proof (next_unique_from_None _ _ _ _ Hq) as Hall.
      assert (fuel ≤ size fs)%nat; [|lia].
      apply (taken_bound fs (λ k, candidate path (2 + N.of_nat k))); [|exact Hall].
      intros a b Hab. apply candidate_inj in Hab. lia.
  - apply path_exists_false in E. exists path.
    split; [reflexivity|]. split; [exact E|]. split; [reflexivity|].
    split; [intros [x Hx]; congruence|].
    split; [intros [x Hx]; congruence|].
    split; [intros j; split; reflexivity | apply stem_suffix].
Qed.

(** ** Dates and [month_windows] *)

Lemma valid_date_iff d :
  valid_date d ↔
  1 ≤ year d ≤ 9999 ∧ 1 ≤ month d ≤ 12
  ∧ 1 ≤ day d ≤ days_in_month (year d) (month d).
Proof.
  unfold valid_date, valid_dateb, MINYEAR, MAXYEAR.
  rewrite !andb_true_iff, !Z.leb_le. lia.
Qed.

Lemma days_in_month_cases y m :
  days_in_month y m = 28 ∨ days_in_month y m = 29
  ∨ days_in_month y m = 30 ∨ days_in_month y m = 31.
Proof.
  unfold days_in_month.
  destruct (m =? 2); [destruct (is_leap y); auto|].
  destruct ((m =? 4) || (m =? 6) || (m =? 9) || (m =? 11)); auto.
Qed.

Lemma days_in_month_bounds y m : 28 ≤ days_in_month y m ≤ 31.
Proof. destruct (days_in_month_cases y m) as [H|[H|[H|H]]]; lia. Qed.

Lemma date_ltb_key a b :
  valid_date a → valid_date b →
  date_ltb a b = true ↔ date_key a < date_key b.
Proof.
  rewrite !valid_date_iff. intros Ha Hb.
  pose proof (days_in_month_bounds (year a) (month a)).
  pose proof (days_in_month_bounds (year b) (month b)).
  unfold date_ltb, date_key.
  rewrite !orb_true_iff, !andb_true_iff, !orb_true_iff, !andb_true_iff,
    !Z.ltb_lt, !Z.eqb_eq. lia.
Qed.

Lemma date_lt_key a b :
  valid_date a → valid_date b → date_lt a b ↔ date_key a < date_key b.
Proof. apply date_ltb_key. Qed.

Lemma date_le_key a b :
  valid_date a → valid_date b → date_le a b ↔ date_key a ≤ date_key b.
Proof.
  intros Ha Hb. unfold date_le, date_leb. rewrite negb_true_iff.
  pose proof (date_ltb_key b a Hb Ha) as H.
  destruct (date_ltb b a); split; intros; try discriminate; try reflexivity.
  - assert (date_key b < date_key a) by (apply H; reflexivity). lia.
  - destruct (Z.lt_ge_cases (date_key b) (date_key a)) as [Hlt|Hge];
      [apply H in Hlt; discriminate | lia].
Qed.

Lemma date_key_inj a b :
  valid_date a → valid_date b → date_key a = date_key b → a = b.
Proof.
  rewrite !valid_date_iff. intros Ha Hb.
  pose proof (days_in_month_bounds (year a) (month a)).
  pose proof (days_in_month_bounds (year b) (month b)).
  destruct a as [ya ma da], b as [yb mb db]; unfold date_key; simpl in *.
  intros E. f_equal; lia.
Qed.

Lemma date_succ_mid y m d :
  d < days_in_month y m → date_succ (Date y m d) = Some (Date y m (d + 1)).
Proof.
  intros H. unfold date_succ; simpl.
  destruct (Z.ltb_spec d (days_in_month y m)); [reflexivity | lia].
Qed.

Lemma date_succ_end y m :
  date_succ (Date y m (days_in_month y m)) = month_after y m.
Proof.
  unfold date_succ, month_after; simpl. rewrite Z.ltb_irrefl. reflexivity.
Qed.

Lemma date_succ_low y m d :
  d < 28 → date_succ (Date y m d) = Some (Date y m (d + 1)).
Proof.
  intros H. apply date_succ_mid. pose proof (days_in_month_bounds y m). lia.
Qed.

Lemma add_month_eq d :
  add_month d = month_after (year d) (month d).
Proof.
  destruct d as [y m d0]. unfold add_month, date_add_days, replace_day; simpl.
  change (Pos.to_nat 4) with 4%nat.
  destruct (days_in_month_cases y m) as [H|[H|[H|H]]].
  - rewrite <- H at 1. cbn [iter_option]. rewrite date_succ_end.
    unfold month_after.
    destruct (m <? 12); [|destruct (y <? MAXYEAR); [|reflexivity]];
      rewrite !date_succ_low by lia; reflexivity.
  - cbn [iter_option]. rewrite date_succ_mid by lia.
    replace (28 + 1) with (days_in_month y m) by lia.
    rewrite date_succ_end. unfold month_after.
    destruct (m <? 12); [|destruct (y <? MAXYEAR); [|reflexivity]];
      rewrite !date_succ_low by lia; reflexivity.
  - cbn [iter_option]. rewrite !date_succ_mid by lia.
    replace (28 + 1 + 1) with (days_in_month y m) by lia.
    rewrite date_succ_end. unfold month_after.
    destruct (m <? 12); [|destruct (y <? MAXYEAR); [|reflexivity]];
      rewrite !date_succ_low by lia; reflexivity.
  - cbn [iter_option]. rewrite !date_succ_mid by lia.
    replace (28 + 1 + 1 + 1) with (days_in_month y m) by lia.
    rewrite date_succ_end. unfold month_after.
    destruct (m <? 12); [|destruct (y <? MAXYEAR)]; reflexivity.
Qed.

Lemma month_after_pred y m nf :
  1 ≤ y → 1 ≤ m ≤ 12 → month_after y m = Some nf →
  date_add_days nf (-1) = Some (Date y m (days_in_month y m)).
Proof.
  intros Hy Hm. unfold month_after, date_add_days. simpl.
  change (Pos.to_nat 1) with 1%nat. cbn [iter_option].
  destruct (Z.ltb_spec m 12).
  - intros [= <-]. unfold date_pred; simpl.
    destruct (Z.ltb_spec 1 (m + 1)); [|lia].
    replace (m + 1 - 1) with m by lia. reflexivity.
  - destruct (Z.ltb_spec y MAXYEAR); [|discriminate].
    intros [= <-]. unfold date_pred, MINYEAR; simpl.
    assert (m = 12) as -> by lia.
    destruct (Z.ltb_spec 1 (y + 1)); [|lia].
    replace (y + 1 - 1) with y by lia. reflexivity.
Qed.

Lemma month_after_valid y m nf :
  1 ≤ y ≤ 9999 → 1 ≤ m ≤ 12 → month_after y m = Some nf →
  valid_date nf ∧ day nf = 1 ∧ month_index nf = 12 * y + m + 1.
Proof.
  intros Hy Hm. unfold month_after, month_index, MAXYEAR.
  destruct (Z.ltb_spec m 12); [|destruct (Z.ltb_spec y 9999)];
    intros [= <-]; rewrite valid_date_iff; simpl;
    pose proof (days_in_month_bounds y (m + 1));
    pose proof (days_in_month_bounds (y + 1) 1); lia.
Qed.

Lemma month_after_Some y m :
  ¬ (y = 9999 ∧ m = 12) → 1 ≤ y ≤ 9999 → 1 ≤ m ≤ 12 →
  ∃ nf, month_after y m = Some nf.
Proof.
  intros Hno Hy Hm. unfold month_after, MAXYEAR.
  destruct (Z.ltb_spec m 12); [eauto|].
  destruct (Z.ltb_spec y 9999); [eauto | lia].
Qed.

Lemma month_windows_from_tiles (n : nat) :
  ∀ cur end_d fuel,
    valid_date cur → day cur = 1 → valid_date end_d →
    ¬ (year end_d = 9999 ∧ month end_d = 12) →
    month_index end_d - month_index cur = Z.of_nat n →
    (n + 2 ≤ fuel)%nat →
    ∃ ws, month_windows_from fuel cur end_d = (ws, Exhausted)
          ∧ tiles cur ws end_d.
Proof.
  induction n as [|n IH]; intros cur end_d fuel Hc Hd He Hno Hidx Hfuel.
  all: destruct fuel as [|fuel]; [lia|].
  all: pose proof Hc as Hc'; pose proof He as He'.
  all: rewrite valid_date_iff in Hc', He'.
  all: unfold month_index in Hidx.
  all: destruct (month_after_Some (year cur) (month cur)) as [nf Hnf];
    [lia | lia | lia |].
  all: destruct (month_after_valid _ _ _ (proj1 Hc') (proj1 (proj2 Hc')) Hnf)
    as (Hnfv & Hnfd & Hnfi).
  all: pose proof (month_after_pred _ _ _ (proj1 (proj1 Hc'))
                     (proj1 (proj2 Hc')) Hnf) as Hlast.
  all: set (last_day := Date (year cur) (month cur)
                          (days_in_month (year cur) (month cur))) in *.
  all: assert (Hlv : valid_date last_day)
    by (rewrite valid_date_iff; simpl;
        pose proof (days_in_month_bounds (year cur) (month cur)); lia).
  all: assert (Hle : date_leb cur end_d = true)
    by (apply (date_le_key cur end_d Hc He); unfold date_key; lia).
  all: cbn [month_windows_from]; rewrite Hle, add_month_eq, Hnf, Hlast.
  - (* the last month *)
    assert (Hmin : date_min end_d last_day = end_d).
    { unfold date_min. destruct (date_ltb last_day end_d) eqn:E; [|reflexivity].
      apply (date_ltb_key _ _ Hlv He) in E. unfold date_key in E.
      simpl in E. replace (year end_d) with (year cur) in * by lia.
      replace (month end_d) with (month cur) in * by lia. lia. }
    rewrite Hmin. destruct fuel as [|fuel]; [lia|]. cbn [month_windows_from].
    assert (Hgt : date_leb nf end_d = false).
    { unfold date_leb. apply negb_false_iff.
      apply (date_ltb_key _ _ He Hnfv). unfold date_key.
      unfold month_index in Hnfi. rewrite valid_date_iff in Hnfv.
      pose proof (days_in_month_bounds (year end_d) (month end_d)). lia. }
    rewrite Hgt. eexists. split; [reflexivity|].
    apply tiles_last; [assumption | assumption | assumption | lia | lia].
  - (* a whole month, and the rest *)
    assert (Hmin : date_min end_d last_day = last_day).
    { unfold date_min. destruct (date_ltb last_day end_d) eqn:E; [reflexivity|].
      apply not_true_iff_false in E. exfalso. apply E.
      apply (date_ltb_key _ _ Hlv He). unfold date_key. simpl.
      pose proof (days_in_month_bounds (year cur) (month cur)). lia. }
    rewrite Hmin.
    destruct (IH nf end_d fuel Hnfv Hnfd He Hno) as (ws & Hws & Ht);
      [unfold month_index in *; lia | lia |].
    rewrite Hws. eexists. split; [reflexivity|].
    apply tiles_month with (a' := nf); try assumption.
    + unfold whole_month, last_day; simpl. auto.
    + unfold last_day. destruct cur as [y m d]; simpl in *.
      rewrite date_succ_end. exact Hnf.
Qed.

Lemma date_succ_key e a' :
  valid_date e → date_succ e = Some a' →
  valid_date a' ∧ date_key e < date_key a'
  ∧ ∀ d, valid_date d → date_key e < date_key d → date_key a' ≤ date_key d.
Proof.
  intros He. pose proof He as He'. rewrite valid_date_iff in He'.
  destruct e as [y m d0]; simpl in He'. unfold date_succ, MAXYEAR; simpl.
  pose proof (days_in_month_bounds y m).
  pose proof (days_in_month_bounds y (m + 1)).
  pose proof (days_in_month_bounds (y + 1) 1).
  assert (Hsame : ∀ d, valid_date d → year d = y → month d = m →
                       day d ≤ days_in_month y m).
  { intros d Hd <- <-. apply valid_date_iff in Hd. lia. }
  destruct (Z.ltb_spec d0 (days_in_month y m));
    [|destruct (Z.ltb_spec m 12); [|destruct (Z.ltb_spec y 9999)]];
    intros [= <-]; rewrite valid_date_iff; unfold date_key; simpl.
  all: split; [lia|]; split; [lia|]; intros d Hd Hlt.
  all: pose proof (Hsame d Hd) as Hs; apply valid_date_iff in Hd.
  all: pose proof (days_in_month_bounds (year d) (month d)).
  all: destruct (decide (year d = y)) as [Hy|Hy];
    [destruct (decide (month d = m)) as [Hm|Hm];
       [specialize (Hs Hy Hm)|] |]; lia.
Qed.

Lemma tiles_bounds a ws b :
  tiles a ws b →
  valid_date a ∧ valid_date b ∧ date_key a ≤ date_key b
  ∧ Forall (λ w, valid_date w.1 ∧ valid_date w.2
                 ∧ date_key a ≤ date_key w.1
                 ∧ date_key w.1 ≤ date_key w.2
                 ∧ date_key w.2 ≤ date_key b) ws.
Proof.
  induction 1 as [a b Ha Hb Hd Hy Hm | a e a' ws b Ha He Hw Hs Ht IH].
  - assert (date_key a ≤ date_key b).
    { unfold date_key. apply valid_date_iff in Hb. lia. }
    repeat split; try assumption. repeat constructor; simpl; (assumption || lia).
  - destruct IH as (Ha' & Hb & Hab & Hall).
    destruct (date_succ_key _ _ He Hs) as (_ & Hlt & _).
    assert (date_key a ≤ date_key e).
    { destruct Hw as (H1 & H2 & H3 & H4). simpl in *. unfold date_key.
      apply valid_date_iff in He. lia. }
    repeat split; try assumption; [lia|].
    constructor; [simpl; repeat split; (assumption || lia)|].
    eapply Forall_impl; [exact Hall|]. simpl. intros w (?&?&?&?&?).
    repeat split; (assumption || lia).
Qed.

Lemma tiles_head a ws b :
  tiles a ws b → ∃ w ws', ws = w :: ws' ∧ w.1 = a.
Proof. destruct 1; eauto. Qed.

Lemma tiles_last_window a ws b :
  tiles a ws b → ∃ w, last ws = Some w ∧ w.2 = b.
Proof.
  induction 1 as [| a e a' ws b Ha He Hw Hs Ht IH]; [eexists; split; reflexivity|].
  destruct IH as (w & Hl & Hw2). exists w. split; [|exact Hw2].
  destruct ws as [|w' ws']; [discriminate | exact Hl].
Qed.

Lemma tiles_adjacent a ws b i w w' :
  tiles a ws b → ws !! i = Some w → ws !! S i = Some w' →
  whole_month w ∧ date_succ w.2 = Some w'.1.
Proof.
  intros Ht. revert i. induction Ht as [| a e a' ws b Ha He Hw Hs Ht IH];
    intros i Hi Hi'.
  - destruct i; discriminate.
  - destruct i as [|i]; simpl in Hi, Hi'.
    + injection Hi as <-. split; [exact Hw|]. simpl.
      destruct (tiles_head _ _ _ Ht) as (w0 & ws' & -> & Hw0).
      simpl in Hi'. injection Hi' as <-. rewrite Hw0. exact Hs.
    + eapply IH; eassumption.
Qed.

Lemma tiles_apart a ws b i j w w' :
  tiles a ws b → (i < j)%nat → ws !! i = Some w → ws !! j = Some w' →
  date_lt w.2 w'.1.
Proof.
  intros Ht. revert i j. induction Ht as [| a e a' ws b Ha He Hw Hs Ht IH];
    intros i j Hij Hi Hj.
  - destruct i, j; try lia; discriminate.
  - destruct j as [|j]; [lia|]. simpl in Hj. destruct i as [|i]; simpl in Hi.
    + injection Hi as <-. simpl.
      destruct (tiles_bounds _ _ _ Ht) as (_ & _ & _ & Hall).
      rewrite Forall_lookup in Hall. destruct (Hall _ _ Hj) as (Hv & _ & Hge & _).
      destruct (date_succ_key _ _ He Hs) as (_ & Hlt & _).
      apply date_lt_key; [assumption | assumption | lia].
    + eapply (IH i j); [lia | eassumption | eassumption].
Qed.

Lemma tiles_cover a ws b d :
  tiles a ws b → valid_date d →
  (date_le a d ∧ date_le d b) ↔ ∃ w, w ∈ ws ∧ in_window d w.
Proof.
  intros Ht Hd. induction Ht as [a b Ha Hb Hda Hy Hm
                               | a e a' ws b Ha He Hw Hs Ht IH].
  - split.
    + intros H. exists (a, b). split; [apply list_elem_of_singleton; reflexivity | exact H].
    + intros (w & Hin & H). apply list_elem_of_singleton in Hin. subst w. exact H.
  - destruct (tiles_bounds _ _ _ Ht) as (Ha' & Hb & Hab & _).
    destruct (date_succ_key _ _ He Hs) as (_ & Hlt & Hnext).
    assert (Hae : date_key a ≤ date_key e).
    { destruct Hw as (H1 & H2 & H3 & H4). simpl in *. unfold date_key.
      apply valid_date_iff in He. lia. }
    split.
    + intros [H1 H2]. apply date_le_key in H1, H2; try assumption.
      destruct (Z.le_gt_cases (date_key d) (date_key e)) as [Hle|Hgt].
      * exists (a, e). split; [left|].
        split; apply date_le_key; simpl; assumption.
      * destruct (proj1 IH) as (w & Hin & Hw').
        { split; apply date_le_key; try assumption.
          apply Hnext; [assumption | lia]. }
        exists w. split; [right; exact Hin | exact Hw'].
    + intros (w & Hin & [H1 H2]). apply elem_of_cons in Hin.
      destruct Hin as [-> | Hin]; simpl in *.
      * apply date_le_key in H2; try assumption.
        split; [exact H1 | apply date_le_key; try assumption; lia].
      * destruct (proj2 IH) as [H3 H4]; [exists w; split; [exact Hin | split; assumption]|].
        apply date_le_key in H3; try assumption.
        split; [apply date_le_key; try assumption; lia | exact H4].
Qed.

(** C2, as the code has it: for valid dates [start_d ≤ end_d], with [end_d]
    before December 9999, and one round of the loop more than the months
    spanned, [month_windows] ends normally after yielding the ISO forms of
    windows that begin at the first day of the month of [start_d] (not at
    [start_d]) and end at [end_d], each window starting the day after the
    previous one ends and every window but the last being a whole calendar
    month, so that a date lies in some window exactly when it lies between
    that first day and [end_d], and earlier windows lie wholly before later
    ones. *)
Theorem month_windows_tiling (start_d end_d : date) (fuel : nat) :
  valid_date start_d → valid_date end_d → date_le start_d end_d →
  ¬ (year end_d = 9999 ∧ month end_d = 12) →
  (months_spanned start_d end_d ≤ fuel)%nat →
  ∃ ws,
    month_windows fuel start_d end_d = (iso_window <$> ws, Exhausted)
    ∧ (∃ w ws', ws = w :: ws' ∧ w.1 = first_of_month start_d)
    ∧ (∃ w, last ws = Some w ∧ w.2 = end_d)
    ∧ (∀ i w, ws !! i = Some w →
         valid_date w.1 ∧ valid_date w.2 ∧ date_le w.1 w.2)
    ∧ (∀ i w w', ws !! i = Some w → ws !! S i = Some w' →
         whole_month w ∧ date_succ w.2 = Some w'.1)
    ∧ (∀ i j w w', (i < j)%nat → ws !! i = Some w → ws !! j = Some w' →
         date_lt w.2 w'.1)
    ∧ (∀ d, valid_date d →
         (date_le (first_of_month start_d) d ∧ date_le d end_d)
         ↔ ∃ w, w ∈ ws ∧ date_le w.1 d ∧ date_le d w.2).
Proof.
  intros Hs He Hle Hno Hfuel.
  pose proof Hs as Hs'. pose proof He as He'.
  rewrite valid_date_iff in Hs', He'.
  apply (date_le_key _ _ Hs He) in Hle. unfold date_key in Hle.
  pose proof (days_in_month_bounds (year start_d) (month start_d)).
  pose proof (days_in_month_bounds (year end_d) (month end_d)).
  assert (Hfv : valid_date (first_of_month start_d))
    by (rewrite valid_date_iff; simpl; lia).
  assert (Hidx : 0 ≤ month_index end_d - month_index (first_of_month start_d))
    by (unfold month_index; simpl; lia).
  destruct (month_windows_from_tiles
              (Z.to_nat (month_index end_d
                         - month_index (first_of_month start_d)))
              (first_of_month start_d) end_d fuel Hfv eq_refl He Hno)
    as (ws & Hws & Ht).
  { lia. }
  { unfold months_spanned in Hfuel. unfold month_index in *. simpl in *. lia. }
  exists ws. unfold month_windows, month_windows_dates. rewrite Hws.
  split; [reflexivity|].
  split; [apply (tiles_head _ _ _ Ht)|].
  split; [apply (tiles_last_window _ _ _ Ht)|].
  split.
  { intros i w Hi. destruct (tiles_bounds _ _ _ Ht) as (_ & _ & _ & Hall).
    rewrite Forall_lookup in Hall. destruct (Hall _ _ Hi) as (?&?&?&?&?).
    split; [assumption|]. split; [assumption|].
    apply date_le_key; assumption. }
  split; [intros i w w'; apply (tiles_adjacent _ _ _ _ _ _ Ht)|].
  split; [intros i j w w'; apply (tiles_apart _ _ _ _ _ _ _ Ht)|].
  intros d Hd. apply (tiles_cover _ _ _ _ Ht Hd).
Qed.

(** C9, as the code has it: for valid dates with [end_d] before [start_d]
    and two rounds of the loop, [month_windows] raises no range error: it
    yields nothing when [end_d] lies before the month of [start_d], and
    otherwise the single window from the first day of that month to
    [end_d], unless that month is December 9999, where the date arithmetic
    overflows before anything is yielded. *)
Theorem month_windows_reversed (start_d end_d : date) (fuel : nat) :
  valid_date start_d → valid_date end_d → date_lt end_d start_d →
  (2 ≤ fuel)%nat →
  month_windows fuel start_d end_d =
    if date_ltb end_d (first_of_month start_d) then ([], Exhausted)
    else if (year end_d =? 9999) && (month end_d =? 12)
         then ([], Raised OverflowError)
         else ([(isoformat (first_of_month start_d), isoformat end_d)],
               Exhausted).
Proof.
  intros Hs He Hlt Hfuel.
  pose proof Hs as Hs'. pose proof He as He'.
  rewrite valid_date_iff in Hs', He'.
  apply (date_lt_key _ _ He Hs) in Hlt. unfold date_key in Hlt.
  pose proof (days_in_month_bounds (year start_d) (month start_d)).
  pose proof (days_in_month_bounds (year end_d) (month end_d)).
  assert (Hfv : valid_date (first_of_month start_d))
    by (rewrite valid_date_iff; simpl; lia).
  destruct fuel as [|[|fuel]]; [lia | lia |].
  unfold month_windows, month_windows_dates.
  cbn [month_windows_from]. unfold date_leb at 1.
  destruct (date_ltb end_d (first_of_month start_d)) eqn:E; [reflexivity|].
  cbn [negb].
  assert (Hk : date_key (first_of_month start_d) ≤ date_key end_d).
  { destruct (Z.le_gt_cases (date_key (first_of_month start_d))
                (date_key end_d)) as [Hle|Hgt]; [exact Hle|].
    apply (date_ltb_key _ _ He Hfv) in Hgt. congruence. }
  unfold date_key in Hk; simpl in Hk.
  assert (Hy : year end_d = year start_d) by lia.
  assert (Hm : month end_d = month start_d) by lia.
  rewrite add_month_eq. cbn [year month first_of_month replace_day].
  destruct (month_after (year start_d) (month start_d)) as [nf|] eqn:Hnf.
  - destruct (month_after_valid _ _ _ (proj1 Hs') (proj1 (proj2 Hs')) Hnf)
      as (Hnfv & Hnfd & Hnfi).
    rewrite (month_after_pred _ _ _ (proj1 (proj1 Hs')) (proj1 (proj2 Hs')) Hnf).
    set (last_day := Date (year start_d) (month start_d)
                       (days_in_month (year start_d) (month start_d))).
    assert (Hlv : valid_date last_day)
      by (rewrite valid_date_iff; simpl; lia).
    assert (Hmin : date_min end_d last_day = end_d).
    { unfold date_min. destruct (date_ltb last_day end_d) eqn:El; [|reflexivity].
      apply (date_ltb_key _ _ Hlv He) in El. unfold date_key in El.
      simpl in El. lia. }
    assert (Hgt : date_leb nf end_d = false).
    { unfold date_leb. apply negb_false_iff.
      apply (date_ltb_key _ _ He Hnfv). unfold date_key.
      unfold month_index in Hnfi. rewrite valid_date_iff in Hnfv. lia. }
    rewrite Hmin, Hgt. cbn [fmap list_fmap iso_window fst snd].
    replace ((year end_d =? 9999) && (month end_d =? 12)) with false;
      [reflexivity|].
    symmetry. apply andb_false_iff. rewrite !Z.eqb_neq.
    unfold month_after, MAXYEAR in Hnf.
    destruct (Z.ltb_spec (month start_d) 12); [right; lia|].
    destruct (Z.ltb_spec (year start_d) 9999); [left; lia | discriminate].
  - replace ((year end_d =? 9999) && (month end_d =? 12)) with true;
      [reflexivity|].
    symmetry. apply andb_true_iff. rewrite !Z.eqb_eq.
    unfold month_after, MAXYEAR in Hnf.
    destruct (Z.ltb_spec (month start_d) 12); [discriminate|].
    destruct (Z.ltb_spec (year start_d) 9999); [discriminate | lia].
Qed.

(** In December 9999 the step to the next month leaves the calendar: the
    generator raises before it yields the window of that month. *)
Lemma month_windows_overflow :
  month_windows 3 (Date 9999 11 15) (Date 9999 12 10)
  = ([(lit "9999-11-01", lit "9999-11-30")], Raised OverflowError).
Proof. vm_compute. reflexivity. Qed.

Lemma month_windows_tiling_witness :
  ∃ ws,
    month_windows 4 (Date 2024 1 15) (Date 2024 3 10)
    = (iso_window <$> ws, Exhausted)
    ∧ ∃ w, last ws = Some w ∧ w.2 = Date 2024 3 10.
Proof.
  destruct (month_windows_tiling (Date 2024 1 15) (Date 2024 3 10) 4)
    as (ws & H1 & _ & H3 & _).
  - reflexivity.
  - reflexivity.
  - reflexivity.
  - intros [H _]. discriminate H.
  - vm_compute. lia.
  - exists ws. split; assumption.
Defined.

(** C2 fails as stated: over 2024-01-15..2024-03-10 the first window
    begins on 2024-01-01, and 2024-01-05, a day before the requested start,
    lies in a window. *)
Lemma month_windows_not_from_start :
  month_windows 4 (Date 2024 1 15) (Date 2024 3 10)
  = ([(lit "2024-01-01", lit "2024-01-31");
      (lit "2024-02-01", lit "2024-02-29");
      (lit "2024-03-01", lit "2024-03-10")], Exhausted)
  ∧ ∃ ws,
      month_windows_dates 4 (Date 2024 1 15) (Date 2024 3 10)
      = (ws, Exhausted)
      ∧ head ws = Some (Date 2024 1 1, Date 2024 1 31)
      ∧ ¬ (∀ d, valid_date d →
             (date_le (Date 2024 1 15) d ∧ date_le d (Date 2024 3 10))
             ↔ ∃ w, w ∈ ws ∧ date_le w.1 d ∧ date_le d w.2).
Proof.
  split; [vm_compute; reflexivity|].
  eexists. split; [vm_compute; reflexivity|]. split; [reflexivity|].
  intros H. destruct (proj2 (H (Date 2024 1 5) eq_refl)) as [H1 _].
  - exists (Date 2024 1 1, Date 2024 1 31).
    split; [left | split; reflexivity].
  - discriminate H1.
Qed.

Lemma month_windows_reversed_witness :
  month_windows 2 (Date 2024 3 10) (Date 2024 1 15) = ([], Exhausted).
Proof.
  apply (month_windows_reversed (Date 2024 3 10) (Date 2024 1 15) 2).
  - reflexivity.
  - reflexivity.
  - reflexivity.
  - lia.
Defined.

(** C9 fails as stated: for the range 2024-01-15..2024-01-10, whose end
    lies before its start, the generator ends normally, after yielding the
    window 2024-01-01..2024-01-10. *)
Lemma month_windows_no_range_error :
  date_lt (Date 2024 1 10) (Date 2024 1 15)
  ∧ month_windows 2 (Date 2024 1 15) (Date 2024 1 10)
    = ([(lit "2024-01-01", lit "2024-01-10")], Exhausted).
Proof. split; [reflexivity | vm_compute; reflexivity]. Qed.

(** [date_succ] is the step of Python's date arithmetic, which adds to the
    ordinal: the day after has the next ordinal. *)
Lemma days_before_year_succ y :
  days_before_year (y + 1)
  = days_before_year y + 365 + (if is_leap y then 1 else 0).
Proof.
  unfold days_before_year, is_leap. replace (y + 1 - 1) with y by lia.
  destruct (Z.eqb_spec (y mod 4) 0), (Z.eqb_spec (y mod 100) 0),
    (Z.eqb_spec (y mod 400) 0); simpl;
    Z.div_mod_to_equations; lia.
Qed.

Lemma days_before_month_succ y m :
  1 ≤ m →
  days_before_month y (m + 1) = days_before_month y m + days_in_month y m.
Proof.
  intros Hm. unfold days_before_month.
  replace (Z.to_nat (m + 1 - 1)) with (S (Z.to_nat (m - 1))) by lia.
  cbn [days_before_month_nat]. do 2 f_equal. lia.
Qed.

Lemma days_before_month_13 y :
  days_before_month y 13 = 365 + (if is_leap y then 1 else 0).
Proof.
  unfold days_before_month. change (Z.to_nat (13 - 1)) with 12%nat.
  unfold days_before_month_nat, days_in_month. simpl.
  destruct (is_leap y); reflexivity.
Qed.

Lemma toordinal_succ d d' :
  valid_date d → date_succ d = Some d' → toordinal d' = toordinal d + 1.
Proof.
  intros Hd. apply valid_date_iff in Hd. destruct d as [y m d0]; simpl in Hd.
  unfold date_succ, toordinal, MAXYEAR; simpl.
  destruct (Z.ltb_spec d0 (days_in_month y m));
    [|destruct (Z.ltb_spec m 12); [|destruct (Z.ltb_spec y 9999)]];
    intros [= <-]; simpl.
  - lia.
  - rewrite days_before_month_succ by lia. lia.
  - assert (m = 12) as -> by lia.
    rewrite days_before_year_succ.
    pose proof (days_before_month_succ y 12 ltac:(lia)) as H12.
    change (12 + 1) with 13 in H12. rewrite (days_before_month_13 y) in H12.
    change (days_before_month (y + 1) 1) with 0. lia.
Qed.

Lemma days_before_month_1 y : days_before_month y 1 = 0.
Proof. reflexivity. Qed.

Lemma toordinal_pred d d' :
  valid_date d → date_pred d = Some d' →
  valid_date d' ∧ toordinal d' = toordinal d - 1.
Proof.
  intros Hd. apply valid_date_iff in Hd. destruct d as [y m d0]; simpl in Hd.
  unfold date_pred, toordinal, MINYEAR; simpl.
  pose proof (days_in_month_bounds y m).
  pose proof (days_in_month_bounds y (m - 1)).
  destruct (Z.ltb_spec 1 d0);
    [|destruct (Z.ltb_spec 1 m); [|destruct (Z.ltb_spec 1 y)]];
    intros [= <-]; rewrite valid_date_iff; simpl.
  - split; lia.
  - split; [lia|].
    pose proof (days_before_month_succ y (m - 1) ltac:(lia)) as Hm.
    replace (m - 1 + 1) with m in Hm by lia. lia.
  - assert (m = 1) as -> by lia. assert (d0 = 1) as -> by lia.
    split; [change (days_in_month (y - 1) 12) with 31; lia|].
    pose proof (days_before_year_succ (y - 1)) as Hy.
    replace (y - 1 + 1) with y in Hy by lia.
    pose proof (days_before_month_succ (y - 1) 12 ltac:(lia)) as H12.
    change (12 + 1) with 13 in H12.
    rewrite (days_before_month_13 (y - 1)) in H12.
    change (days_in_month (y - 1) 12) with 31 in H12.
    rewrite days_before_month_1. lia.
Qed.

Lemma toordinal_succ_valid d d' :
  valid_date d → date_succ d = Some d' →
  valid_date d' ∧ toordinal d' = toordinal d + 1.
Proof.
  intros Hd Hs. split; [apply (date_succ_key _ _ Hd Hs)|].
  apply toordinal_succ; assumption.
Qed.

Lemma iter_option_ordinal (f : date → option date) (k : Z) (n : nat) :
  (∀ d d', valid_date d → f d = Some d' →
           valid_date d' ∧ toordinal d' = toordinal d + k) →
  ∀ d d', valid_date d → iter_option n f d = Some d' →
          valid_date d' ∧ toordinal d' = toordinal d + Z.of_nat n * k.
Proof.
  intros Hf. induction n as [|n IH]; intros d d' Hd H.
  - injection H as <-. split; [exact Hd | lia].
  - cbn [iter_option] in H. destruct (f d) as [d1|] eqn:E; [|discriminate].
    destruct (Hf _ _ Hd E) as [Hd1 Ho1].
    destruct (IH _ _ Hd1 H) as [Hd' Ho']. split; [exact Hd' | lia].
Qed.

(** The model of [d + timedelta(days=n)] agrees with Python's definition
    of it: the date whose ordinal is that of [d] plus [n]. *)
Lemma date_add_days_ordinal d n d' :
  valid_date d → date_add_days d n = Some d' →
  valid_date d' ∧ toordinal d' = toordinal d + n.
Proof.
  intros Hd. unfold date_add_days. destruct (Z.leb_spec 0 n) as [Hn|Hn];
    intros H.
  - destruct (iter_option_ordinal date_succ 1 _ toordinal_succ_valid _ _ Hd H)
      as [Hv Ho]. split; [exact Hv | lia].
  - destruct (iter_option_ordinal date_pred (-1) _ toordinal_pred _ _ Hd H)
      as [Hv Ho]. split; [exact Hv | lia].
Qed.

Example isoformat_example :
  isoformat (Date 2024 3 5) = lit "2024-03-05"
  ∧ isoformat (Date 987 12 31) = lit "0987-12-31".
Proof. split; vm_compute; reflexivity. Qed.

(** ** Running the script against a remote *)

Lemma part_path_name (dest : Path) :
  part_path dest = mkPath (parent dest) (name dest ++ lit ".part").
Proof.
  unfold part_path, with_suffix, with_name.
  pose proof (stem_suffix dest) as Hs.
  destruct (suffix dest) as [|c sfx] eqn:E; [reflexivity|].
  f_equal. rewrite <- Hs. rewrite length_app.
  replace (length (stem dest) + length (c :: sfx) - length (c :: sfx))%nat
    with (length (stem dest)) by lia.
  rewrite take_app_length, <- app_assoc. reflexivity.
Qed.

Lemma part_path_ne (dest : Path) : part_path dest ≠ dest.
Proof.
  rewrite part_path_name. destruct dest as [d n]. simpl. intros [= H].
  apply (f_equal length) in H. rewrite length_app in H. simpl in H. lia.
Qed.

Create HintDb quiet discriminated.

Section RemoteFacts.

Context {RS : Type}.
Context (serve : Request → RS → option Reply * RS).
Context (lower : str → str).

Implicit Types (w : @World RS).

Lemma with_fs_same w : with_fs (fs w) w = w.
Proof. destruct w; reflexivity. Qed.

Lemma bind_ok_inv {A B} (m : M A) (k : A → M B) w b w' :
  bind m k w = (Ok b, w') →
  ∃ a w1, m w = (Ok a, w1) ∧ k a w1 = (Ok b, w').
Proof.
  unfold bind. destruct (m w) as [[a|e|] w1]; [eauto | discriminate..].
Qed.

Lemma request_some req w r s :
  serve req (remote w) = (Some r, s) →
  request serve req w = (Ok r, with_exchange s req (Some r) w).
Proof. intros H. unfold request. rewrite H. reflexivity. Qed.

Lemma request_none req w s :
  serve req (remote w) = (None, s) →
  request serve req w = (Err ConnectionError, with_exchange s req None w).
Proof. intros H. unfold request. rewrite H. reflexivity. Qed.

Lemma get_token_some w r s t :
  serve PostToken (remote w) = (Some r, s) → reply_token r = Some t →
  get_token serve w = (Ok t, with_exchange s PostToken (Some r) w).
Proof.
  intros H Ht. unfold get_token, bind. rewrite (request_some _ _ _ _ H).
  unfold reply_token in Ht. unfold raise_for_status, json.
  destruct (http_error (status_code r)); [discriminate|]. unfold ret.
  destruct (json_body r) as [j|]; [|discriminate]. rewrite Ht. reflexivity.
Qed.

(** What [get_token] does in every case. *)
Lemma get_token_cases w :
  ∃ r s, serve PostToken (remote w) = (r, s)
    ∧ (get_token serve w).2 = with_exchange s PostToken r w
    ∧ (∀ t, (get_token serve w).1 = Ok t →
         ∃ r', r = Some r' ∧ reply_token r' = Some t)
    ∧ (get_token serve w).1 ≠ OutOfFuel.
Proof.
  destruct (serve PostToken (remote w)) as [r s] eqn:H. exists r, s.
  split; [reflexivity|]. unfold get_token, bind, request. rewrite H.
  destruct r as [r|]; simpl; [|split; [reflexivity | split; discriminate]].
  unfold raise_for_status, json, raise, ret.
  destruct (http_error (status_code r)) eqn:E1; simpl;
    [split; [reflexivity | split; discriminate]|].
  destruct (json_body r) as [j|] eqn:E2; simpl;
    [|split; [reflexivity | split; discriminate]].
  destruct (access_token j) as [t|] eqn:E3; simpl;
    (split; [reflexivity | split; [|discriminate]]).
  - intros t' [= <-]. exists r. split; [reflexivity|].
    unfold reply_token. rewrite E1, E2. exact E3.
  - discriminate.
Qed.

(** The chunks of a stream end up in the open file, whether or not the
    stream breaks after them. *)
Lemma write_chunks_run p cs ok w c0 :
  fs w !! p = Some (File c0) →
  write_chunks p cs ok w
  = (if ok then Ok tt else Err ConnectionError,
     with_fs (<[p := File (c0 ++ concat cs)]> (fs w)) w).
Proof.
  revert w c0. induction cs as [|c cs IH]; intros w c0 Hp; simpl.
  - rewrite app_nil_r, (insert_id _ _ _ Hp), with_fs_same.
    destruct ok; reflexivity.
  - destruct c as [|b c]; [apply IH, Hp|].
    unfold bind at 1. unfold write at 1. unfold bind, get_fs. rewrite Hp.
    unfold set_fs.
    rewrite (IH _ (c0 ++ b :: c)) by (simpl; apply lookup_insert_eq).
    simpl. rewrite insert_insert_eq, <- app_assoc. reflexivity.
Qed.

(** One attempt of [download] whose reply is not the status 401. *)
Lemma download_attempt fuel url dest token w r s :
  serve (GetAsset (asset_url url token)) (remote w) = (Some r, s) →
  status_code r ≠ 401 →
  let w1 := with_exchange s (GetAsset (asset_url url token)) (Some r) w in
  let tmp := part_path dest in
  let content := concat (chunks r) in
  download serve (S fuel) url dest token w =
    if http_error (status_code r) then (Err (HTTPError (status_code r)), w1)
    else
      match fs w !! tmp with
      | Some Dir => (Err IsADirectoryError, w1)
      | _ =>
          if negb (stream_ok r)
          then (Err ConnectionError,
                with_fs (<[tmp := File content]> (fs w)) w1)
          else
            match content with
            | [] => (Err (RuntimeError msg_zero_bytes),
                     with_fs (delete tmp (fs w)) w1)
            | _ =>
                match fs w !! dest with
                | Some Dir =>
                    (Err IsADirectoryError,
                     with_fs (<[tmp := File content]> (fs w)) w1)
                | _ =>
                    (Ok tt,
                     with_fs (<[dest := File content]> (delete tmp (fs w)))
                       w1)
                end
            end
      end.
Proof.
  intros H H401 w1 tmp content. cbn [download].
  fold tmp. unfold bind at 1. unfold bind at 1.
  rewrite (request_some _ _ _ _ H). fold w1.
  destruct (Z.eqb_spec (status_code r) 401) as [|_]; [contradiction|].
  unfold bind at 1. unfold raise_for_status.
  destruct (http_error (status_code r)); [reflexivity|].
  unfold ret. unfold bind at 1. unfold open_wb, bind, get_fs.
  change (fs w1) with (fs w).
  assert (Hrun : ∀ f, f !! tmp = Some (File []) →
    write_chunks tmp (chunks r) (stream_ok r) (with_fs f w1)
    = (if stream_ok r then Ok tt else Err ConnectionError,
       with_fs (<[tmp := File content]> f) w1)).
  { intros f Hf. rewrite (write_chunks_run _ _ _ _ []) by exact Hf.
    reflexivity. }
  assert (Hgo :
    match write_chunks tmp (chunks r) (stream_ok r)
            (with_fs (<[tmp := File []]> (fs w)) w1) with
    | (Ok _, w2) =>
        match stat_size tmp w2 with
        | (Ok size, w3) =>
            (if size =? 0
             then bind (unlink tmp)
                    (λ _, raise (RuntimeError msg_zero_bytes))
             else rename tmp dest) w3
        | (Err e, w3) => (Err e, w3)
        | (OutOfFuel, w3) => (OutOfFuel, w3)
        end
    | (Err e, w2) => (Err e, w2)
    | (OutOfFuel, w2) => (OutOfFuel, w2)
    end
    = if negb (stream_ok r)
      then (Err ConnectionError,
            with_fs (<[tmp := File content]> (fs w)) w1)
      else
        match content with
        | [] => (Err (RuntimeError msg_zero_bytes),
                 with_fs (delete tmp (fs w)) w1)
        | _ =>
            match fs w !! dest with
            | Some Dir =>
                (Err IsADirectoryError,
                 with_fs (<[tmp := File content]> (fs w)) w1)
            | _ =>
                (Ok tt,
                 with_fs (<[dest := File content]> (delete tmp (fs w))) w1)
            end
        end).
  { rewrite Hrun by apply lookup_insert_eq. rewrite insert_insert_eq.
    destruct (stream_ok r); [|reflexivity]. cbn [negb].
    unfold stat_size, bind, get_fs. cbn [fs with_fs].
    rewrite lookup_insert_eq. unfold ret.
    destruct content as [|b c] eqn:Ec.
    - change (Z.of_nat (length []) =? 0) with true. cbv iota.
      unfold unlink, bind, get_fs. cbn [fs with_fs].
      rewrite lookup_insert_eq. unfold set_fs, raise.
      rewrite delete_insert_eq. reflexivity.
    - replace (Z.of_nat (length (b :: c)) =? 0) with false
        by (symmetry; apply Z.eqb_neq; simpl; lia).
      cbv iota. unfold rename, bind, get_fs. cbn [fs with_fs].
      rewrite lookup_insert_eq.
      rewrite lookup_insert_ne by apply part_path_ne.
      unfold set_fs, raise. rewrite delete_insert_eq.
      destruct (fs w !! dest) as [[|?]|]; reflexivity. }
  destruct (fs w !! tmp) as [[|c0]|] eqn:Et; [reflexivity | exact Hgo..].
Qed.

(** An attempt answered by the status 401: the token is refreshed, the
    download runs again, and whatever it returns, the call raises. *)
Lemma download_unauthorized fuel url dest token w r s :
  serve (GetAsset (asset_url url token)) (remote w) = (Some r, s) →
  status_code r = 401 →
  let w1 := with_exchange s (GetAsset (asset_url url token)) (Some r) w in
  download serve (S fuel) url dest token w =
    match get_token serve w1 with
    | (Ok t, w2) =>
        match download serve fuel url dest t w2 with
        | (Ok _, w3) => (Err (RuntimeError msg_token_expired), w3)
        | (Err e, w3) => (Err e, w3)
        | (OutOfFuel, w3) => (OutOfFuel, w3)
        end
    | (Err e, w2) => (Err e, w2)
    | (OutOfFuel, w2) => (OutOfFuel, w2)
    end.
Proof.
  intros H H401 w1. cbn [download]. unfold bind at 1. unfold bind at 1.
  rewrite (request_some _ _ _ _ H). fold w1. rewrite H401.
  change (401 =? 401) with true. cbv iota. unfold bind.
  destruct (get_token serve w1) as [[t|e|] w2]; [|reflexivity..].
  destruct (download serve fuel url dest t w2) as [[[]|e|] w3]; reflexivity.
Qed.

Lemma download_no_reply fuel url dest token w s :
  serve (GetAsset (asset_url url token)) (remote w) = (None, s) →
  download serve (S fuel) url dest token w
  = (Err ConnectionError,
     with_exchange s (GetAsset (asset_url url token)) None w).
Proof.
  intros H. cbn [download]. unfold bind at 1. unfold bind at 1.
  rewrite (request_none _ _ _ H). reflexivity.
Qed.

(** A call of [download] that returns made one request, with the token it
    was given, and the reply was not the status 401. *)
Lemma download_ok fuel url dest token w w' :
  download serve fuel url dest token w = (Ok tt, w') →
  ∃ r, trace w' = trace w ++ [(GetAsset (asset_url url token), Some r)]
       ∧ status_code r ≠ 401.
Proof.
  destruct fuel as [|fuel]; [discriminate|].
  destruct (serve (GetAsset (asset_url url token)) (remote w))
    as [[r|] s] eqn:H.
  - destruct (Z.eq_dec (status_code r) 401) as [E|E].
    + rewrite (download_unauthorized _ _ _ _ _ _ _ H E).
      destruct (get_token serve _) as [[t|e|] w2]; [|discriminate..].
      destruct (download serve fuel url dest t w2) as [[[]|e|] w3];
        discriminate.
    + rewrite (download_attempt _ _ _ _ _ _ _ H E). intros Hok.
      exists r. split; [|exact E].
      destruct (http_error (status_code r)); [discriminate|].
      destruct (fs w !! part_path dest) as [[|?]|];
        [discriminate| |];
        (destruct (negb (stream_ok r)); [discriminate|];
         destruct (concat (chunks r)); [discriminate|];
         destruct (fs w !! dest) as [[|?]|]; [discriminate| |];
         injection Hok as <-; reflexivity).
  - rewrite (download_no_reply _ _ _ _ _ _ H). discriminate.
Qed.

(** An attempt that is not answered 401 and does not return leaves the
    final path as it was: after an error status, a directory in the way, a
    broken stream, or a body without a byte. *)
Lemma download_failure_keeps_final_path fuel url dest token w r s :
  serve (GetAsset (asset_url url token)) (remote w) = (Some r, s) →
  status_code r ≠ 401 →
  let run := download serve (S fuel) url dest token w in
  run.1 ≠ Ok tt → fs run.2 !! dest = fs w !! dest.
Proof.
  intros H E run. subst run. rewrite (download_attempt _ _ _ _ _ _ _ H E).
  assert (Hne : part_path dest ≠ dest) by apply part_path_ne.
  destruct (http_error (status_code r)); [reflexivity|].
  destruct (fs w !! part_path dest) as [[|?]|]; [reflexivity| |].
  all: destruct (stream_ok r); cbn [negb];
    [|intros _; simpl; apply lookup_insert_ne, Hne].
  all: destruct (concat (chunks r)) as [|b c];
    [intros _; simpl; apply lookup_delete_ne, Hne|].
  all: destruct (fs w !! dest) as [[|?]|] eqn:Ed;
    [intros _; simpl; rewrite lookup_insert_ne by exact Hne; exact Ed|..].
  all: intros Hno; contradiction Hno; reflexivity.
Qed.

(** Whatever its outcome, a run of [download] leaves at the final path
    what was there, or the whole, non-empty body of a reply of this run
    that was a success and whose stream completed. *)
Lemma download_final_path fuel url dest token w :
  let w' := (download serve fuel url dest token w).2 in
  ∃ d, trace w' = trace w ++ d
       ∧ (fs w' !! dest = fs w !! dest
          ∨ ∃ content, fs w' !! dest = Some (File content)
                       ∧ complete_body d content).
Proof.
  revert token w. induction fuel as [|fuel IH]; intros token w; cbv zeta.
  { exists []. rewrite app_nil_r. split; [reflexivity | left; reflexivity]. }
  destruct (serve (GetAsset (asset_url url token)) (remote w))
    as [[r|] s] eqn:H.
  - set (x := (GetAsset (asset_url url token), Some r)).
    destruct (Z.eq_dec (status_code r) 401) as [E|E].
    + rewrite (download_unauthorized _ _ _ _ _ _ _ H E).
      destruct (get_token_cases
                  (with_exchange s (GetAsset (asset_url url token)) (Some r) w))
        as (rt & s2 & _ & Hw2 & _ & _).
      destruct (get_token serve _) as [[t|e|] w2]; simpl in Hw2; subst w2.
      2,3: exists [x; (PostToken, rt)]; split;
        [simpl; rewrite <- app_assoc; reflexivity | left; reflexivity].
      specialize (IH t (with_exchange s2 PostToken rt
                          (with_exchange s (GetAsset (asset_url url token))
                             (Some r) w))).
      cbv zeta in IH. destruct IH as (d & Hd & Hfs).
      exists (x :: (PostToken, rt) :: d). split.
      * destruct (download serve fuel url dest t _) as [[[]|e|] w3];
          simpl in Hd |- *; rewrite Hd, <- !app_assoc; reflexivity.
      * assert (Hfs' :
          fs (download serve fuel url dest t
                (with_exchange s2 PostToken rt
                   (with_exchange s (GetAsset (asset_url url token))
                      (Some r) w))).2 !! dest = fs w !! dest
          ∨ ∃ content,
              fs (download serve fuel url dest t
                    (with_exchange s2 PostToken rt
                       (with_exchange s (GetAsset (asset_url url token))
                          (Some r) w))).2 !! dest = Some (File content)
              ∧ complete_body (x :: (PostToken, rt) :: d) content).
        { destruct Hfs as [Hfs | (c & Hc & u & r' & Hin & Hrest)];
            [left; exact Hfs|].
          right. exists c. split; [exact Hc|]. exists u, r'.
          split; [|exact Hrest]. right. right. exact Hin. }
        destruct (download serve fuel url dest t _) as [[[]|e|] w3];
          exact Hfs'.
    + rewrite (download_attempt _ _ _ _ _ _ _ H E).
      exists [x]. 
      destruct (http_error (status_code r)) eqn:Eh;
        [split; [reflexivity | left; reflexivity]|].
      assert (Hne : part_path dest ≠ dest) by apply part_path_ne.
      destruct (fs w !! part_path dest) as [[|?]|];
        [split; [reflexivity | left; reflexivity]| |].
      all: destruct (stream_ok r) eqn:Es; cbn [negb];
        [|split; [reflexivity | left; simpl; apply lookup_insert_ne, Hne]].
      all: destruct (concat (chunks r)) as [|b c] eqn:Ec;
        [split; [reflexivity | left; simpl; apply lookup_delete_ne, Hne]|].
      all: destruct (fs w !! dest) as [[|?]|] eqn:Ed;
        [split; [reflexivity | left; simpl;
           rewrite lookup_insert_ne by exact Hne; exact Ed]| |].
      all: split; [reflexivity|]; right; exists (b :: c); simpl;
        split; [apply lookup_insert_eq|]; exists (asset_url url token), r;
        split; [left|]; auto.
  - rewrite (download_no_reply _ _ _ _ _ _ H).
    exists [(GetAsset (asset_url url token), None)].
    split; [reflexivity | left; reflexivity].
Qed.

(** C5: when the reply is a success whose stream completes without a
    byte, and no directory lies at the temporary path, [download] raises
    the zero-bytes error after one request; the temporary path is then
    absent and the rest of the file system, the final path included, is as
    before. *)
Theorem download_zero_bytes fuel url dest token w r s :
  serve (GetAsset (asset_url url token)) (remote w) = (Some r, s) →
  http_error (status_code r) = false →
  stream_ok r = true →
  concat (chunks r) = [] →
  fs w !! part_path dest ≠ Some Dir →
  let w' := with_fs (delete (part_path dest) (fs w))
              (with_exchange s (GetAsset (asset_url url token)) (Some r) w) in
  download serve (S fuel) url dest token w
  = (Err (RuntimeError msg_zero_bytes), w')
  ∧ fs w' !! part_path dest = None
  ∧ fs w' !! dest = fs w !! dest.
Proof.
  intros H Hs Hok Hz Hd w'.
  assert (E : status_code r ≠ 401).
  { intros E. rewrite E in Hs. discriminate. }
  rewrite (download_attempt _ _ _ _ _ _ _ H E), Hs, Hok, Hz. cbn [negb].
  split; [|split].
  - destruct (fs w !! part_path dest) as [[|?]|]; [contradiction|..];
      reflexivity.
  - apply lookup_delete_eq.
  - apply lookup_delete_ne, part_path_ne.
Qed.



Lemma sends_impl {A} (m : @M RS A) (P Q : result A → list exchange → Prop) :
  sends m P → (∀ r d, P r d → Q r d) → sends m Q.
Proof. intros Hm HPQ w. destruct (Hm w) as (d & Hd & HP). eauto. Qed.

Lemma sends_bind {A B} (m : @M RS A) (k : A → @M RS B) P Q R :
  sends m P → (∀ a, sends (k a) (Q a)) →
  (∀ a d1 r d2, P (Ok a) d1 → Q a r d2 → R r (d1 ++ d2)) →
  (∀ e d, P (Err e) d → R (Err e) d) →
  (∀ d, P OutOfFuel d → R OutOfFuel d) →
  sends (bind m k) R.
Proof.
  intros Hm Hk Hok Herr Hout w. unfold bind.
  destruct (Hm w) as (d1 & Hd1 & HP).
  destruct (m w) as [[a|e|] w1]; simpl in *.
  - destruct (Hk a w1) as (d2 & Hd2 & HQ).
    exists (d1 ++ d2). rewrite Hd2, Hd1, app_assoc. eauto.
  - exists d1. eauto.
  - exists d1. eauto.
Qed.

Lemma quiet_bind {A B} (m : @M RS A) (k : A → @M RS B) R :
  quiet m → (∀ a, sends (k a) R) →
  (∀ e, R (Err e) []) → R OutOfFuel [] →
  sends (bind m k) R.
Proof.
  intros Hm Hk Herr Hout.
  apply (sends_bind m k (λ _ d, d = []) (λ _, R) R Hm Hk).
  - intros a d1 r d2 -> H. exact H.
  - intros e d ->. apply Herr.
  - intros d ->. exact Hout.
Qed.

Lemma quiet_pure {A} (x : result A) : quiet (λ w : @World RS, (x, w)).
Proof. intros w. exists []. rewrite app_nil_r. auto. Qed.

Lemma quiet_ret {A} (a : A) : quiet (ret (RS := RS) a).
Proof. apply quiet_pure. Qed.

Lemma sends_ret_eq {A} (a : A) :
  sends (ret (RS := RS) a) (λ r d, r = Ok a ∧ d = []).
Proof. intros w. exists []. rewrite app_nil_r. auto. Qed.

Lemma quiet_raise {A} e : quiet (raise (RS := RS) (A := A) e).
Proof. apply quiet_pure. Qed.

Lemma quiet_out_of_fuel {A} : quiet (out_of_fuel (RS := RS) (A := A)).
Proof. apply quiet_pure. Qed.

Lemma sends_raise {A} e :
  sends (raise (RS := RS) (A := A) e) (λ r d, r = Err e ∧ d = []).
Proof. intros w. exists []. rewrite app_nil_r. auto. Qed.

Lemma quiet_get_fs : quiet (get_fs (RS := RS)).
Proof. intros w. exists []. rewrite app_nil_r. auto. Qed.

Lemma quiet_set_fs f : quiet (set_fs (RS := RS) f).
Proof. intros w. exists []. rewrite app_nil_r. auto. Qed.

Lemma quiet_print line : quiet (print (RS := RS) line).
Proof. intros w. exists []. rewrite app_nil_r. auto. Qed.

Lemma quiet_seq {A B} (m : @M RS A) (k : A → @M RS B) :
  quiet m → (∀ a, quiet (k a)) → quiet (bind m k).
Proof. intros Hm Hk. apply quiet_bind; auto. Qed.

Lemma quiet_fs_op {A} (k : FS → @M RS A) :
  (∀ f, quiet (k f)) → quiet (bind get_fs k).
Proof. intros Hk. apply quiet_seq; [apply quiet_get_fs | exact Hk]. Qed.

Lemma quiet_open_wb p : quiet (open_wb (RS := RS) p).
Proof.
  apply quiet_fs_op. intros f.
  destruct (f !! p) as [[|c]|]; first [apply quiet_raise | apply quiet_set_fs].
Qed.

Lemma quiet_write p c : quiet (write (RS := RS) p c).
Proof.
  apply quiet_fs_op. intros f.
  destruct (f !! p) as [[|c0]|]; first [apply quiet_raise | apply quiet_set_fs].
Qed.

Lemma quiet_stat_size p : quiet (stat_size (RS := RS) p).
Proof.
  apply quiet_fs_op. intros f.
  destruct (f !! p) as [[|c0]|]; first [apply quiet_raise | apply quiet_ret].
Qed.

Lemma quiet_unlink p : quiet (unlink (RS := RS) p).
Proof.
  apply quiet_fs_op. intros f.
  destruct (f !! p) as [[|c0]|]; first [apply quiet_raise | apply quiet_set_fs].
Qed.

Lemma quiet_rename p q : quiet (rename (RS := RS) p q).
Proof.
  apply quiet_fs_op. intros f. destruct (f !! p) as [n|]; [|apply quiet_raise].
  destruct (f !! q) as [[|c0]|]; first [apply quiet_raise | apply quiet_set_fs].
Qed.

Lemma quiet_mkdir_each ps : quiet (mkdir_each (RS := RS) ps).
Proof.
  induction ps as [|p ps IH]; simpl; [apply quiet_ret|].
  apply quiet_fs_op. intros f.
  destruct (f !! p) as [[|c]|]; [exact IH | apply quiet_raise|].
  apply quiet_seq; [apply quiet_set_fs | intros _; exact IH].
Qed.

Lemma quiet_mkdir p : quiet (mkdir (RS := RS) p).
Proof. apply quiet_mkdir_each. Qed.

Lemma quiet_write_chunks p cs ok : quiet (write_chunks (RS := RS) p cs ok).
Proof.
  induction cs as [|c cs IH]; simpl.
  - destruct ok; [apply quiet_ret | apply quiet_raise].
  - destruct c as [|b c]; [exact IH|].
    apply quiet_seq; [apply quiet_write | intros _; exact IH].
Qed.

Lemma quiet_raise_for_status r : quiet (raise_for_status (RS := RS) r).
Proof.
  unfold raise_for_status.
  destruct (http_error (status_code r)); [apply quiet_raise | apply quiet_ret].
Qed.

Lemma quiet_json r : quiet (json (RS := RS) r).
Proof.
  unfold json. destruct (json_body r); [apply quiet_ret | apply quiet_raise].
Qed.

(** What holds of every outcome holds of a value. *)
Lemma sends_emits {A} (m : @M RS A) P :
  sends m P → emits m (λ a d, P (Ok a) d).
Proof.
  intros H w a w' Hrun. destruct (H w) as (d & Hd & HP).
  rewrite Hrun in Hd, HP. eauto.
Qed.

Lemma quiet_silent {A} (m : @M RS A) : quiet m → silent m.
Proof. apply sends_emits. Qed.

#[local] Hint Resolve quiet_ret quiet_raise quiet_out_of_fuel quiet_get_fs
  quiet_set_fs quiet_print quiet_mkdir : quiet.

Lemma emits_impl {A} (m : @M RS A) (P Q : A → list exchange → Prop) :
  emits m P → (∀ a d, P a d → Q a d) → emits m Q.
Proof.
  intros Hm HPQ w a w' H. destruct (Hm _ _ _ H) as (d & Hd & HP). eauto.
Qed.

Lemma emits_ret {A} (a : A) : silent (ret (RS := RS) a).
Proof. intros w a' w' [= <- <-]. exists []. rewrite app_nil_r. auto. Qed.

Lemma emits_ret_eq {A} (a : A) :
  emits (ret (RS := RS) a) (λ a' d, a' = a ∧ d = []).
Proof. intros w a' w' [= <- <-]. exists []. rewrite app_nil_r. auto. Qed.

Lemma emits_raise {A} e (P : A → list exchange → Prop) :
  emits (raise (RS := RS) e) P.
Proof. intros w a w' H. discriminate H. Qed.

Lemma emits_out_of_fuel {A} (P : A → list exchange → Prop) :
  emits (out_of_fuel (RS := RS)) P.
Proof. intros w a w' H. discriminate H. Qed.

Lemma emits_bind {A B} (m : @M RS A) (k : A → @M RS B) P Q :
  emits m P → (∀ a, emits (k a) (Q a)) →
  emits (bind m k)
    (λ b d, ∃ a d1 d2, d = d1 ++ d2 ∧ P a d1 ∧ Q a b d2).
Proof.
  intros Hm Hk w b w' H.
  destruct (bind_ok_inv _ _ _ _ _ H) as (a & w1 & H1 & H2).
  destruct (Hm _ _ _ H1) as (d1 & Hd1 & HP).
  destruct (Hk _ _ _ _ H2) as (d2 & Hd2 & HQ).
  exists (d1 ++ d2). split; [rewrite Hd2, Hd1, app_assoc; reflexivity|].
  exists a, d1, d2. auto.
Qed.

Lemma silent_bind {A B} (m : @M RS A) (k : A → @M RS B) P :
  silent m → (∀ a, emits (k a) P) → emits (bind m k) P.
Proof.
  intros Hm Hk. eapply emits_impl; [apply (emits_bind _ _ _ (λ _, P) Hm Hk)|].
  intros b d (a & d1 & d2 & -> & -> & HP). exact HP.
Qed.

(** Steps over an operation at the head of the goal that sends nothing. *)
Ltac pass_silent :=
  apply silent_bind; [apply quiet_silent; solve [auto with quiet]|].

Lemma emits_get_token :
  emits (get_token serve)
    (λ t d, ∃ r, d = [(PostToken, Some r)] ∧ reply_token r = Some t).
Proof.
  intros w t w' H.
  destruct (get_token_cases w) as (r & s & _ & Hw & Ht & _).
  rewrite H in Hw, Ht. simpl in Hw, Ht.
  destruct (Ht t eq_refl) as (r' & -> & Hr').
  exists [(PostToken, Some r')]. subst w'. split; [reflexivity|]. eauto.
Qed.

Lemma emits_download fuel url dest token :
  emits (download serve fuel url dest token)
    (λ _ d, ∃ r, d = [(GetAsset (asset_url url token), Some r)]).
Proof.
  intros w [] w' H. destruct (download_ok _ _ _ _ _ _ H) as (r & Hr & _).
  eauto.
Qed.

Lemma emits_process_file fuel folder t rf :
  emits (process_file serve lower fuel folder t rf) (λ _ d, assets_with t d).
Proof.
  unfold process_file. pass_silent. intros f.
  destruct (next_unique_path fuel f _) as [dest|]; [|apply emits_out_of_fuel].
  destruct (truthy (download_url rf)).
  - pass_silent. intros _.
    eapply emits_impl; [apply emits_download|].
    intros _ d (r & ->). repeat constructor. eauto.
  - eapply emits_impl; [apply quiet_silent, quiet_print|]. intros _ d ->. constructor.
Qed.

Lemma emits_process_file_requests fuel folder t rf :
  emits (process_file serve lower fuel folder t rf)
    (λ _ d, d.*1 = asset_requests t [rf]).
Proof.
  unfold process_file, asset_requests. simpl. rewrite app_nil_r.
  pass_silent. intros f.
  destruct (next_unique_path fuel f _) as [dest|]; [|apply emits_out_of_fuel].
  destruct (truthy (download_url rf)).
  - pass_silent. intros _.
    eapply emits_impl; [apply emits_download|].
    intros _ d (r & ->). reflexivity.
  - eapply emits_impl; [apply quiet_silent, quiet_print|]. intros _ d ->. reflexivity.
Qed.

Lemma emits_files_requests fuel folder t files :
  emits (for_each (process_file serve lower fuel folder t) files)
    (λ _ d, d.*1 = asset_requests t files).
Proof.
  unfold for_each. generalize tt.
  induction files as [|rf files IH]; intros u; simpl.
  - eapply emits_impl; [apply emits_ret|]. intros _ d ->. reflexivity.
  - eapply emits_impl;
      [apply (emits_bind _ _ _ _
                (emits_process_file_requests fuel folder t rf) IH)|].
    intros _ d (a & d1 & d2 & -> & H1 & H2).
    rewrite fmap_app, H1, H2. unfold asset_requests. simpl.
    rewrite app_nil_r. reflexivity.
Qed.

(** The exchanges of the loop body for one record, when it returns: one
    token request, then one request for every file of the record that has
    a download URL, in order, each with the token just received. *)
Lemma process_meeting_exchanges fuel base meeting w w' :
  process_meeting serve lower fuel base meeting w = (Ok tt, w') →
  ∃ rt t rest,
    trace w' = trace w ++ (PostToken, Some rt) :: rest
    ∧ reply_token rt = Some t
    ∧ rest.*1 = asset_requests t (default [] (recording_files meeting)).
Proof.
  intros H.
  assert (He : emits (process_meeting serve lower fuel base meeting)
                 (λ _ d, ∃ rt t rest,
                    d = (PostToken, Some rt) :: rest
                    ∧ reply_token rt = Some t
                    ∧ rest.*1 = asset_requests t
                                  (default [] (recording_files meeting)))).
  { unfold process_meeting. eapply emits_impl.
    { apply (emits_bind _ _ _
               (λ t _ d, d.*1 = asset_requests t
                                  (default [] (recording_files meeting)))
               emits_get_token).
      intros t. apply silent_bind.
      { destruct (start_time meeting); [apply emits_ret | apply emits_raise]. }
      intros dt. pass_silent. intros _.
      apply emits_files_requests. }
    intros _ d (t & d1 & d2 & -> & (r & -> & Hr) & Ha).
    exists r, t, d2. auto. }
  destruct (He _ _ _ H) as (d & Hd & rt & t & rest & -> & Ht & Hr).
  exists rt, t, rest. auto.
Qed.

Lemma emits_fold_m {A B} (f : A → B → @M RS A) (P : list exchange → Prop) l :
  P [] → (∀ d1 d2, P d1 → P d2 → P (d1 ++ d2)) →
  (∀ a b, emits (f a b) (λ _ d, P d)) →
  ∀ a, emits (fold_m f l a) (λ _ d, P d).
Proof.
  intros Hnil Happ Hf. induction l as [|b l IH]; intros a; simpl.
  - eapply emits_impl; [apply emits_ret|]. intros _ d ->. exact Hnil.
  - eapply emits_impl; [apply (emits_bind _ _ _ _ (Hf a b) IH)|].
    intros _ d (a' & d1 & d2 & -> & H1 & H2). apply Happ; assumption.
Qed.

Lemma token_requests_app d1 d2 :
  token_requests (d1 ++ d2) = (token_requests d1 + token_requests d2)%nat.
Proof. apply sum_list_with_app. Qed.

Lemma records_listed_app d1 d2 :
  records_listed (d1 ++ d2) = (records_listed d1 + records_listed d2)%nat.
Proof. apply sum_list_with_app. Qed.

Lemma unauthorized_listings_app d1 d2 :
  unauthorized_listings (d1 ++ d2)
  = (unauthorized_listings d1 + unauthorized_listings d2)%nat.
Proof. apply sum_list_with_app. Qed.

Lemma tokened_app c d1 d2 :
  tokened c d1 → (∀ c', tokened c' d2) → tokened c (d1 ++ d2).
Proof.
  intros H1 H2. revert c H1. induction d1 as [|[[| |url] r] d1 IH];
    intros c H1; simpl in *; auto.
  destruct H1 as [Hc H1]. split; [exact Hc | apply IH, H1].
Qed.

Lemma accounted_nil : accounted 0 [].
Proof. split; [reflexivity | intros c; exact I]. Qed.

Lemma accounted_app k1 k2 d1 d2 :
  accounted k1 d1 → accounted k2 d2 → accounted (k1 + k2) (d1 ++ d2).
Proof.
  intros [H1 T1] [H2 T2]. split.
  - rewrite token_requests_app, records_listed_app, unauthorized_listings_app.
    lia.
  - intros c. apply tokened_app; [apply T1 | exact T2].
Qed.

Lemma assets_with_counts t d :
  assets_with t d →
  token_requests d = 0%nat ∧ records_listed d = 0%nat
  ∧ unauthorized_listings d = 0%nat ∧ tokened (Some t) d.
Proof.
  induction 1 as [|x d (u & r & ->) _ (H1 & H2 & H3 & H4)];
    [repeat split|].
  unfold token_requests, records_listed, unauthorized_listings in *.
  simpl. rewrite H1, H2, H3. repeat split; eauto.
Qed.

Lemma emits_process_meeting fuel base meeting :
  emits (process_meeting serve lower fuel base meeting)
    (λ _ d, accounted 1 d).
Proof.
  unfold process_meeting.
  eapply emits_impl.
  { apply (emits_bind _ _ _
             (λ t _ d, assets_with t d) emits_get_token).
    intros t. apply silent_bind.
    { destruct (start_time meeting); [apply emits_ret | apply emits_raise]. }
    intros dt. pass_silent. intros _.
    unfold for_each. apply (emits_fold_m _ (assets_with t)).
    - constructor.
    - intros d1 d2. apply Forall_app_2.
    - intros _ rf. apply emits_process_file. }
  intros _ d (t & d1 & d2 & -> & (r & -> & Hr) & Ha).
  destruct (assets_with_counts _ _ Ha) as (H1 & H2 & H3 & H4).
  split.
  - unfold token_requests, records_listed, unauthorized_listings in *.
    simpl. rewrite H1, H2, H3. reflexivity.
  - intros c. simpl. rewrite Hr. exact H4.
Qed.



Lemma emits_request req :
  emits (request serve req) (λ r d, d = [(req, Some r)]).
Proof.
  intros w r w' H. unfold request in H.
  destruct (serve req (remote w)) as [[r'|] s]; [|discriminate].
  injection H as <- <-. eexists. split; reflexivity.
Qed.

Lemma emits_raise_for_status r :
  emits (raise_for_status (RS := RS) r)
    (λ _ d, d = [] ∧ http_error (status_code r) = false).
Proof.
  unfold raise_for_status. destruct (http_error (status_code r));
    [apply emits_raise|].
  eapply emits_impl; [apply emits_ret|]. intros _ d ->. auto.
Qed.

Lemma emits_json r :
  emits (json (RS := RS) r) (λ j d, d = [] ∧ json_body r = Some j).
Proof.
  unfold json. destruct (json_body r) as [j|]; [|apply emits_raise].
  intros w j' w' [= <- <-]. exists []. rewrite app_nil_r. auto.
Qed.

Lemma emits_fetch_page user_id token params :
  emits (fetch_page serve user_id token params)
    (page_fetch user_id token params).
Proof.
  unfold fetch_page.
  eapply emits_impl.
  { apply (emits_bind _ _ _
             (λ r1 rt d,
                (status_code r1 ≠ 401 ∧ d = [] ∧ rt = (r1, token))
                ∨ (status_code r1 = 401
                   ∧ ∃ rtok, d = [(PostToken, Some rtok);
                                  (GetListing rt.2 user_id params, Some rt.1)]
                             ∧ reply_token rtok = Some rt.2))
             (emits_request _)).
    intros r1. destruct (Z.eqb_spec (status_code r1) 401) as [E|E].
    - eapply emits_impl.
      { apply (emits_bind _ _ _
                 (λ t rt d, d = [(GetListing t user_id params, Some rt.1)]
                            ∧ rt.2 = t) emits_get_token).
        intros t. eapply emits_impl.
        { apply (emits_bind _ _ _ (λ r rt d, d = [] ∧ rt = (r, t))
                   (emits_request _)).
          intros r. eapply emits_impl; [apply emits_ret_eq|].
          intros rt d [-> ->]. auto. }
        intros rt d (r & d1 & d2 & -> & -> & -> & ->). auto. }
      intros rt d (t & d1 & d2 & -> & (rtok & -> & Ht) & -> & <-).
      right. split; [exact E|]. exists rtok. auto.
    - eapply emits_impl; [apply emits_ret_eq|].
      intros rt d [-> ->]. left. auto. }
  intros rt d (r1 & d1 & d2 & -> & -> & [(E & -> & ->) | (E & rtok & -> & Ht)]).
  - left. auto.
  - right. exists r1, rtok. auto.
Qed.

Lemma page_fetch_counts user_id token params rt d :
  page_fetch user_id token params rt d →
  http_error (status_code rt.1) = false →
  (token_requests d + length (page_meetings rt.1)
   = records_listed d + unauthorized_listings d)%nat
  ∧ ∀ c, tokened c d.
Proof.
  intros [(-> & E & _) | (r1 & rtok & -> & E & _)] Hs.
  - unfold token_requests, records_listed, unauthorized_listings. simpl.
    rewrite Hs. destruct (Z.eqb_spec (status_code rt.1) 401); [contradiction|].
    split; [lia | intros c; exact I].
  - unfold token_requests, records_listed, unauthorized_listings. simpl.
    rewrite Hs, E. simpl.
    destruct (Z.eqb_spec (status_code rt.1) 401) as [E'|_].
    + rewrite E' in Hs. discriminate.
    + split; [lia | intros c; exact I].
Qed.

Section Pagination.
Context {A : Type} (body : A → Meeting → str → @M RS A) (user_id : str).
Hypothesis body_accounted :
  ∀ acc m tok, emits (body acc m tok) (λ _ d, accounted 1 d).

Lemma emits_page_records token ms :
  ∀ acc, emits (fold_m (λ acc m, body acc m token) ms acc)
           (λ _ d, accounted (length ms) d).
Proof.
  induction ms as [|m ms IH]; intros acc; simpl.
  - eapply emits_impl; [apply emits_ret|]. intros _ d ->.
    apply accounted_nil.
  - eapply emits_impl;
      [apply (emits_bind _ _ _ _ (body_accounted acc m token) IH)|].
    intros _ d (a & d1 & d2 & -> & H1 & H2).
    apply (accounted_app 1 (length ms)); assumption.
Qed.

Lemma emits_list_records_from fuel :
  ∀ token params next_page acc,
    emits (list_records_from serve body user_id fuel token params
             next_page acc)
      (λ _ d, accounted 0 d).
Proof.
  induction fuel as [|fuel IH]; intros token params next_page acc;
    [apply emits_out_of_fuel|].
  cbn [list_records_from].
  eapply emits_impl.
  { apply (emits_bind _ _ _
             (λ rt _ d,
                http_error (status_code rt.1) = false
                ∧ ∃ d1 d2, d = d1 ++ d2
                           ∧ accounted (length (page_meetings rt.1)) d1
                           ∧ accounted 0 d2)
             (emits_fetch_page user_id token _)).
    intros rt. unfold consume_page.
    eapply emits_impl.
    { apply (emits_bind _ _ _
               (λ _ _ d,
                  ∃ d1 d2, d = d1 ++ d2
                           ∧ accounted (length (page_meetings rt.1)) d1
                           ∧ accounted 0 d2)
               (emits_raise_for_status rt.1)).
      intros _. eapply emits_impl.
      { apply (emits_bind _ _ _
                 (λ data _ d,
                    ∃ d1 d2, d = d1 ++ d2
                             ∧ accounted (length (default [] (meetings data)))
                                 d1
                             ∧ accounted 0 d2)
                 (emits_json rt.1)).
        intros data. eapply emits_impl.
        { apply (emits_bind _ _ _ (λ _ _ d, accounted 0 d)
                   (emits_page_records rt.2 (default [] (meetings data))
                      acc)).
          intros acc'. destruct (truthy (next_page_token data)).
          - apply IH.
          - eapply emits_impl; [apply emits_ret|]. intros _ d ->.
            apply accounted_nil. }
        intros _ d (a & d1 & d2 & -> & H1 & H2). eauto. }
      intros a d (data & d0 & d' & -> & (-> & Hj) & d1 & d2 & -> & H1 & H2).
      exists d1, d2. split; [reflexivity|]. split; [|exact H2].
      unfold page_meetings. rewrite Hj. exact H1. }
    intros a d ([] & d0 & d' & -> & (-> & Hs) & H). split; [exact Hs|].
    exact H. }
  intros a d (rt & df & d' & -> & Hf & Hs & d1 & d2 & -> & [H1 T1] & [H2 T2]).
  destruct (page_fetch_counts _ _ _ _ _ Hf Hs) as [Hc Tf].
  split.
  - rewrite !token_requests_app, !records_listed_app,
      !unauthorized_listings_app. lia.
  - intros c. apply tokened_app; [apply Tf|].
    intros c'. apply tokened_app; [apply T1 | exact T2].
Qed.
End Pagination.

Lemma emits_window fuel base user_id token f t acc :
  emits (list_records serve
           (λ _ meeting tok,
              bind (process_meeting serve lower fuel base meeting)
                (λ _, ret tok))
           user_id fuel token f t acc)
    (λ _ d, accounted 0 d).
Proof.
  unfold list_records. apply emits_list_records_from. intros a m tok.
  eapply emits_impl.
  { apply (emits_bind _ _ _ (λ _ _ d, d = [])
             (emits_process_meeting fuel base m)).
    intros _. apply emits_ret. }
  intros _ d (a' & d1 & d2 & -> & H1 & ->). rewrite app_nil_r. exact H1.
Qed.

Lemma emits_main fuel cfg :
  emits (main serve lower fuel cfg) (λ _ d, accounted 1 d).
Proof.
  unfold main. pass_silent. intros _.
  eapply emits_impl.
  { apply (emits_bind _ _ _ (λ _ _ d, accounted 0 d) emits_get_token).
    intros token.
    destruct (month_windows fuel (FROM_DATE cfg) (TO_DATE cfg)) as [ws e].
    eapply emits_impl.
    { apply (emits_bind _ _ _ (λ _ _ d, d = [])
               (emits_fold_m _ (accounted 0) ws accounted_nil
                  (accounted_app 0 0)
                  (λ tok ft, emits_window fuel (OUT_DIR cfg) (USER_ID cfg)
                               tok ft.1 ft.2 tok)
                  token)).
      intros t. destruct e; [apply emits_ret | apply emits_raise
                            | apply emits_out_of_fuel]. }
    intros a d (t & d1 & d2 & -> & H1 & ->). rewrite app_nil_r. exact H1. }
  intros a d (t & d1 & d2 & -> & (r & -> & Hr) & H2).
  apply (accounted_app 1 0); [|exact H2].
  split; [reflexivity | intros c; exact I].
Qed.

Lemma tokened_app_after c d1 d2 :
  tokened c d1 → tokened (token_after c d1) d2 → tokened c (d1 ++ d2).
Proof.
  revert c. induction d1 as [|[[| |url] r] d1 IH]; intros c H1 H2;
    simpl in *; auto.
  destruct H1 as [Hc H1]. split; [exact Hc | apply IH; assumption].
Qed.

Lemma token_after_app c d1 d2 :
  token_after c (d1 ++ d2) = token_after (token_after c d1) d2.
Proof.
  revert c. induction d1 as [|[[| |url] r] d1 IH]; intros c; simpl; auto.
Qed.


Lemma sends_request req :
  sends (request serve req)
    (λ r d, ∃ x, d = [(req, x)] ∧ ∀ a, r = Ok a → x = Some a).
Proof.
  intros w. unfold request.
  destruct (serve req (remote w)) as [[r|] s]; simpl;
    eexists; (split; [reflexivity|]); eexists; (split; [reflexivity|]).
  - intros a [= <-]. reflexivity.
  - discriminate.
Qed.

(** The exchanges of [get_token]: one token request; from any state the
    token held afterwards is the one returned. *)
Lemma sends_get_token :
  sends (get_token serve)
    (λ r d, (∀ c, tokened c d)
            ∧ ∀ t, r = Ok t → ∀ c, token_after c d = Some t).
Proof.
  intros w. destruct (get_token_cases w) as (r & s & _ & Hw & Ht & _).
  exists [(PostToken, r)]. rewrite Hw. split; [reflexivity|].
  split; [intros c; exact I|]. intros t Hok c.
  destruct (Ht t Hok) as (r' & -> & Hr'). simpl. exact Hr'.
Qed.

Lemma holding_nil {A} t (r : result A) : holding t r [].
Proof. split; [exact I | reflexivity]. Qed.

Lemma holding_app {A B} t a (r : result B) d1 d2 :
  holding (A := A) t (Ok a) d1 → holding t r d2 → holding t r (d1 ++ d2).
Proof.
  intros [H1 S1] [H2 S2]. specialize (S1 a eq_refl). split.
  - apply tokened_app_after; [exact H1 | rewrite S1; exact H2].
  - intros b Hb. rewrite token_after_app, S1. eapply S2, Hb.
Qed.

Lemma sends_download fuel url dest :
  ∀ t, sends (download serve fuel url dest t) (holding t).
Proof.
  induction fuel as [|fuel IH]; intros t.
  { eapply sends_impl; [apply quiet_out_of_fuel|].
    intros r d ->. apply holding_nil. }
  cbn [download].
  (* the part before the size check *)
  assert (Hfirst :
    sends (bind (request serve (GetAsset (asset_url url t)))
             (λ r, if status_code r =? 401
                   then bind (get_token serve)
                          (λ t', bind (download serve fuel url dest t')
                                   (λ _, raise (RuntimeError msg_token_expired)))
                   else bind (raise_for_status r)
                          (λ _, bind (open_wb (part_path dest))
                                  (λ _, write_chunks (part_path dest)
                                          (chunks r) (stream_ok r)))))
      (holding (A := unit) t)).
  { eapply (sends_bind _ _ _
              (λ r0 (r : result unit) d,
                 (d = [] ∨ ((∀ c, tokened c d) ∧ ∀ a, r ≠ Ok a)))
              _ (sends_request _)).
    - intros r0. destruct (status_code r0 =? 401).
      + eapply (sends_bind _ _ _
                  (λ t' (r : result unit) d,
                     tokened (Some t') d ∧ ∀ a, r ≠ Ok a)
                  _ sends_get_token).
        * intros t'.
          eapply (sends_bind _ _ _ (λ _ (r : result unit) d,
                                      d = [] ∧ ∀ a, r ≠ Ok a)
                    _ (IH t')).
          -- intros _. eapply sends_impl; [apply sends_raise|].
             intros r d [-> ->]. split; [reflexivity | discriminate].
          -- intros a d1 r d2 [H1 _] [-> Hr]. rewrite app_nil_r. auto.
          -- intros e d [H1 _]. split; [exact H1 | discriminate].
          -- intros d [H1 _]. split; [exact H1 | discriminate].
        * intros t' d1 r d2 [H1 S1] [H2 Hr]. right. split; [|exact Hr].
          intros c. apply tokened_app_after; [apply H1|].
          rewrite (S1 t' eq_refl c). exact H2.
        * intros e d [H1 _]. right. split; [exact H1 | discriminate].
        * intros d [H1 _]. right. split; [exact H1 | discriminate].
      + eapply sends_impl.
        { apply quiet_seq; [apply quiet_raise_for_status|]. intros _.
          apply quiet_seq; [apply quiet_open_wb|]. intros _.
          apply quiet_write_chunks. }
        intros r d ->. left. reflexivity.
    - intros r0 d1 r d2 (x & -> & Hx) [-> | [H2 Hr]].
      + split; [simpl; split; [eauto | exact I] | reflexivity].
      + split; [simpl; split; [eauto | apply H2]|].
        intros a Ha. destruct (Hr a Ha).
    - intros e d (x & -> & _).
      split; [simpl; eauto | intros a Ha; discriminate Ha].
    - intros d (x & -> & _).
      split; [simpl; eauto | intros a Ha; discriminate Ha]. }
  eapply (sends_bind _ _ _ (λ _ (r : result unit) d, d = []) _ Hfirst).
  - intros _. apply quiet_seq; [apply quiet_stat_size|]. intros size.
    destruct (size =? 0).
    + apply quiet_seq; [apply quiet_unlink | intros _; apply quiet_raise].
    + apply quiet_rename.
  - intros a d1 r d2 [H1 S1] ->. rewrite app_nil_r.
    split; [exact H1|]. intros b _. apply (S1 a eq_refl).
  - intros e d [H1 _]. split; [exact H1 | intros a Ha; discriminate Ha].
  - intros d [H1 _]. split; [exact H1 | intros a Ha; discriminate Ha].
Qed.

Lemma from_any_app {A B} (r1 : result A) (r : result B) d1 d2 :
  from_any r1 d1 → from_any r d2 → from_any r (d1 ++ d2).
Proof. intros H1 H2 c. apply tokened_app; [apply H1 | exact H2]. Qed.

Lemma sends_fold_m {A B} (f : A → B → @M RS A)
    (P : result A → list exchange → Prop) l :
  (∀ a, P (Ok a) []) →
  (∀ a r d1 d2, P (Ok a) d1 → P r d2 → P r (d1 ++ d2)) →
  (∀ a b, sends (f a b) P) →
  ∀ a, sends (fold_m f l a) P.
Proof.
  intros Hnil Happ Hf. induction l as [|b l IH]; intros a; simpl.
  - eapply sends_impl; [apply (sends_ret_eq a)|]. intros r d [-> ->].
    apply Hnil.
  - apply (sends_bind _ _ P (λ _, P) P (Hf a b) IH);
      [intros a' d1 r d2; apply Happ | auto | auto].
Qed.

Lemma sends_process_file fuel folder t rf :
  sends (process_file serve lower fuel folder t rf) (holding t).
Proof.
  unfold process_file.
  apply quiet_bind; [apply quiet_get_fs | | intros e; apply holding_nil
                    | apply holding_nil].
  intros f. destruct (next_unique_path fuel f _) as [dest|].
  - destruct (truthy (download_url rf)).
    + apply quiet_bind; [apply quiet_print | | intros e; apply holding_nil
                        | apply holding_nil].
      intros _. apply sends_download.
    + eapply sends_impl; [apply quiet_print|]. intros r d ->.
      apply holding_nil.
  - eapply sends_impl; [apply quiet_out_of_fuel|]. intros r d ->.
    apply holding_nil.
Qed.

Lemma sends_process_meeting fuel base meeting :
  sends (process_meeting serve lower fuel base meeting) from_any.
Proof.
  unfold process_meeting.
  apply (sends_bind _ _ _ (λ t (r : result unit) d, tokened (Some t) d)
           _ sends_get_token).
  - intros t.
    apply quiet_bind; [|intros dt|intros e; exact I|exact I].
    { destruct (start_time meeting); [apply quiet_ret | apply quiet_raise]. }
    apply quiet_bind; [apply quiet_mkdir|intros _|intros e; exact I|exact I].
    eapply sends_impl.
    { unfold for_each.
      apply (sends_fold_m _ (holding t) _ (λ a, holding_nil t (Ok a))).
      - intros a r d1 d2. apply holding_app.
      - intros _ rf. apply sends_process_file. }
    intros r d [H _]. exact H.
  - intros t d1 r d2 [H1 S1] H2 c. apply tokened_app_after; [apply H1|].
    rewrite (S1 t eq_refl c). exact H2.
  - intros e d [H1 _]. exact H1.
  - intros d [H1 _]. exact H1.
Qed.

Lemma sends_listing user_id token params :
  sends (request serve (GetListing token user_id params))
    (from_any (A := Reply)).
Proof.
  eapply sends_impl; [apply sends_request|].
  intros r d (x & -> & _) c. exact I.
Qed.

Lemma sends_fetch_page user_id token params :
  sends (fetch_page serve user_id token params) from_any.
Proof.
  unfold fetch_page.
  apply (sends_bind _ _ _ (λ _, from_any) _ (sends_listing _ _ _)).
  - intros r. destruct (status_code r =? 401).
    + apply (sends_bind _ _ _ (λ _, from_any) _ sends_get_token).
      * intros t.
        apply (sends_bind _ _ _ (λ _ _ d, d = []) _ (sends_listing _ _ _)).
        -- intros r2. apply quiet_ret.
        -- intros a d1 r0 d2 H ->. rewrite app_nil_r. exact H.
        -- intros e d H. exact H.
        -- intros d H. exact H.
      * intros t d1 r0 d2 [H1 _] H2. apply (from_any_app (Ok t)); assumption.
      * intros e d [H1 _]. exact H1.
      * intros d [H1 _]. exact H1.
    + eapply sends_impl; [apply quiet_ret|]. intros r0 d -> c. exact I.
  - intros a d1 r d2. apply from_any_app.
  - intros e d H. exact H.
  - intros d H. exact H.
Qed.

Section PaginationOrder.
Context {A : Type} (body : A → Meeting → str → @M RS A) (user_id : str).
Hypothesis body_from_any : ∀ acc m tok, sends (body acc m tok) from_any.

Lemma sends_list_records_from fuel :
  ∀ token params next_page acc,
    sends (list_records_from serve body user_id fuel token params next_page
             acc)
      from_any.
Proof.
  induction fuel as [|fuel IH]; intros token params next_page acc.
  { eapply sends_impl; [apply quiet_out_of_fuel|]. intros r d -> c. exact I. }
  cbn [list_records_from].
  apply (sends_bind _ _ _ (λ _, from_any) _ (sends_fetch_page _ _ _)).
  - intros rt. unfold consume_page.
    apply quiet_bind;
      [apply quiet_raise_for_status | intros _ | intros e c; exact I
      | intros c; exact I].
    apply quiet_bind;
      [apply quiet_json | intros data | intros e c; exact I
      | intros c; exact I].
    apply (sends_bind _ _ from_any (λ _, from_any) from_any).
    + apply sends_fold_m.
      * intros a c. exact I.
      * intros a r d1 d2. apply from_any_app.
      * intros a m. apply body_from_any.
    + intros acc'. destruct (truthy (next_page_token data)); [apply IH|].
      eapply sends_impl; [apply quiet_ret|]. intros r d -> c. exact I.
    + intros a d1 r d2. apply from_any_app.
    + intros e d H. exact H.
    + intros d H. exact H.
  - intros a d1 r d2. apply from_any_app.
  - intros e d H. exact H.
  - intros d H. exact H.
Qed.
End PaginationOrder.

Lemma sends_main fuel cfg : sends (main serve lower fuel cfg) from_any.
Proof.
  unfold main.
  apply quiet_bind;
    [apply quiet_mkdir | intros _ | intros e c; exact I | intros c; exact I].
  apply (sends_bind _ _ _ (λ _, from_any) _ sends_get_token).
  - intros token.
    destruct (month_windows fuel (FROM_DATE cfg) (TO_DATE cfg)) as [ws e].
    apply (sends_bind _ _ from_any (λ _ _ d, d = []) from_any).
    + apply sends_fold_m.
      * intros a c. exact I.
      * intros a r d1 d2. apply from_any_app.
      * intros tok ft. unfold list_records. apply sends_list_records_from.
        intros acc m t.
        apply (sends_bind _ _ _ (λ _ _ d, d = []) _
                 (sends_process_meeting fuel (OUT_DIR cfg) m)).
        -- intros _. apply quiet_ret.
        -- intros a d1 r d2 H ->. rewrite app_nil_r. exact H.
        -- intros e' d H. exact H.
        -- intros d H. exact H.
    + intros t. destruct e; [apply quiet_ret | apply quiet_raise
                            | apply (quiet_out_of_fuel (A := unit))].
    + intros a d1 r d2 H ->. rewrite app_nil_r. exact H.
    + intros e' d H. exact H.
    + intros d H. exact H.
  - intros t d1 r d2 [H1 _] H2. apply (from_any_app (Ok t)); assumption.
  - intros e d [H1 _]. exact H1.
  - intros d [H1 _]. exact H1.
Qed.

(** C10: whatever the outcome of [main], every asset request of the run
    carries the token of the latest token reply before it, with no listing
    request in between: the token fetched for its record, not the one used
    for the listing.  When [main] returns, the run holds one token request
    at the start, one for every record that the accepted pages listed, and
    one for every listing request answered 401; when nothing was answered
    401 the token requests are thus one more than the records. *)
Theorem main_fresh_tokens fuel cfg w :
  let run := main serve lower fuel cfg w in
  ∃ d, trace run.2 = trace w ++ d
       ∧ tokened None d
       ∧ (run.1 = Ok tt →
          (token_requests d
           = 1 + records_listed d + unauthorized_listings d)%nat
          ∧ (unauthorized_listings d = 0%nat →
             token_requests d = (1 + records_listed d)%nat)).
Proof.
  cbv zeta. destruct (sends_main fuel cfg w) as (d & Hd & Ht).
  exists d. split; [exact Hd|]. split; [apply Ht|]. intros Hok.
  assert (Hrun : main serve lower fuel cfg w
                 = (Ok tt, (main serve lower fuel cfg w).2)).
  { rewrite <- Hok. apply surjective_pairing. }
  destruct (emits_main _ _ _ _ _ Hrun) as (d' & Hd' & Hc & _).
  rewrite Hd in Hd'. apply app_inv_head in Hd'. subst d'.
  split; [exact Hc|]. intros H0. rewrite Hc, H0. lia.
Qed.

Lemma list_records_from_step {A} (body : A → Meeting → str → M A)
    user_id fuel token params next_page acc w :
  let p := set_next_page params next_page in
  list_records_from serve body user_id (S fuel) token params next_page acc w
  = match fetch_page serve user_id token p w with
    | (Ok rt, w') =>
        consume_page body (list_records_from serve body user_id fuel)
          rt.2 p rt.1 acc w'
    | (Err e, w') => (Err e, w')
    | (OutOfFuel, w') => (OutOfFuel, w')
    end.
Proof. reflexivity. Qed.

Lemma fetch_page_plain user_id token p w r1 s1 :
  serve (GetListing token user_id p) (remote w) = (Some r1, s1) →
  status_code r1 ≠ 401 →
  fetch_page serve user_id token p w
  = (Ok (r1, token),
     with_exchange s1 (GetListing token user_id p) (Some r1) w).
Proof.
  intros H E. unfold fetch_page, bind. rewrite (request_some _ _ _ _ H).
  destruct (Z.eqb_spec (status_code r1) 401); [contradiction | reflexivity].
Qed.

Lemma fetch_page_refresh user_id token p w r1 s1 :
  serve (GetListing token user_id p) (remote w) = (Some r1, s1) →
  status_code r1 = 401 →
  fetch_page serve user_id token p w
  = match get_token serve
            (with_exchange s1 (GetListing token user_id p) (Some r1) w) with
    | (Ok t, w2) =>
        match request serve (GetListing t user_id p) w2 with
        | (Ok r2, w3) => (Ok (r2, t), w3)
        | (Err e, w3) => (Err e, w3)
        | (OutOfFuel, w3) => (OutOfFuel, w3)
        end
    | (Err e, w2) => (Err e, w2)
    | (OutOfFuel, w2) => (OutOfFuel, w2)
    end.
Proof.
  intros H E. unfold fetch_page. unfold bind at 1.
  rewrite (request_some _ _ _ _ H), E. change (401 =? 401) with true.
  cbv iota. unfold bind.
  destruct (get_token serve _) as [[t|e|] w2]; [|reflexivity..].
  destruct (request serve _ w2) as [[r2|e|] w3]; reflexivity.
Qed.

Lemma consume_page_error {A} (body : A → Meeting → str → M A) continue
    token p r acc w :
  http_error (status_code r) = true →
  consume_page body continue token p r acc w
  = (Err (HTTPError (status_code r)), w).
Proof.
  intros H. unfold consume_page, bind, raise_for_status. rewrite H.
  reflexivity.
Qed.

(** C8: a round of the pagination loop starts with one request for the
    page.  A reply other than 401 is consumed as it is, and a reply with an
    error status other than 401 raises [HTTPError] after that one request.
    On a reply 401, when the token request succeeds, the same page is
    requested once more with the same parameters and the new token, and
    the second reply is consumed as it is: a second 401 raises
    [HTTPError 401] after these three exchanges, with no further request.
    When the token request fails, its failure ends the listing. *)
Theorem list_records_unauthorized {A} (body : A → Meeting → str → M A)
    user_id fuel token params next_page acc w r1 s1 :
  let p := set_next_page params next_page in
  let again := list_records_from serve body user_id fuel in
  let run := list_records_from serve body user_id (S fuel) token params
               next_page acc w in
  serve (GetListing token user_id p) (remote w) = (Some r1, s1) →
  let w1 := with_exchange s1 (GetListing token user_id p) (Some r1) w in
  (status_code r1 ≠ 401 →
     run = consume_page body again token p r1 acc w1
     ∧ (http_error (status_code r1) = true →
        run = (Err (HTTPError (status_code r1)), w1)))
  ∧ (status_code r1 = 401 →
     (∀ rt s2 t' r2 s3,
        serve PostToken s1 = (Some rt, s2) → reply_token rt = Some t' →
        serve (GetListing t' user_id p) s2 = (Some r2, s3) →
        let w3 := with_exchange s3 (GetListing t' user_id p) (Some r2)
                    (with_exchange s2 PostToken (Some rt) w1) in
        run = consume_page body again t' p r2 acc w3
        ∧ (status_code r2 = 401 → run = (Err (HTTPError 401), w3)))
     ∧ (∀ e, (get_token serve w1).1 = Err e →
          run = (Err e, (get_token serve w1).2))).
Proof.
  intros p again run H w1. subst run.
  rewrite (list_records_from_step body). fold p again.
  split.
  - intros E. rewrite (fetch_page_plain _ _ _ _ _ _ H E). fold w1.
    cbn [fst snd]. split; [reflexivity|]. apply consume_page_error.
  - intros E. rewrite (fetch_page_refresh _ _ _ _ _ _ H E). fold w1.
    split.
    + intros rt s2 t' r2 s3 Ht Hrt H2 w3.
      rewrite (get_token_some w1 rt s2 t' Ht Hrt).
      rewrite (request_some _ (with_exchange s2 PostToken (Some rt) w1)
                 r2 s3 H2).
      fold w3. cbn [fst snd]. split; [reflexivity|]. intros E2.
      rewrite consume_page_error by (rewrite E2; reflexivity).
      rewrite E2. reflexivity.
    + intros e He.
      destruct (get_token serve w1) as [[t|e'|] w2]; simpl in He;
        [discriminate | injection He as ->; reflexivity | discriminate].
Qed.

End RemoteFacts.

(** ** The script on simulated remotes *)

Example candidate_example :
  candidate demo_dest 4 = mkPath [lit "out"] (lit "audio_only-4.m4a")
  ∧ part_path demo_dest = mkPath [lit "out"] (lit "audio_only.m4a.part")
  ∧ stem (mkPath [] (lit ".bashrc")) = lit ".bashrc"
  ∧ suffix (mkPath [] (lit "a.tar.gz")) = lit ".gz".
Proof. repeat split; vm_compute; reflexivity. Qed.

Lemma next_unique_path_witness :
  next_unique_path 4 demo_fs demo_dest = Some (candidate demo_dest 4).
Proof.
  destruct (next_unique_path_spec demo_fs demo_dest 4)
    as (q & Hq & _ & _ & _ & H4 & _).
  - vm_compute. lia.
  - rewrite Hq. f_equal. apply H4.
    + exists (File []). vm_compute. reflexivity.
    + exists (File []). vm_compute. reflexivity.
    + exists (File []). vm_compute. reflexivity.
    + vm_compute. reflexivity.
Defined.

Lemma download_zero_bytes_witness :
  download (scenario_remote []) 1 (video_url 1) first_video demo_token
    (start_world O ∅)
  = (Err (RuntimeError msg_zero_bytes),
     mkWorld O
       [(GetAsset (asset_url (video_url 1) demo_token), Some (reply_body []))]
       ∅ []).
Proof.
  destruct (download_zero_bytes (scenario_remote []) 0 (video_url 1)
              first_video demo_token (start_world O ∅) (reply_body []) O)
    as (H & _ & _).
  - vm_compute. reflexivity.
  - reflexivity.
  - reflexivity.
  - reflexivity.
  - vm_compute. discriminate.
  - rewrite H. vm_compute. reflexivity.
Defined.

(** C1, at a failing input: the first asset request is answered 401 and
    the retry, with the refreshed token, succeeds.  The call raises, and
    yet the whole file is at the final path. *)
Theorem download_raises_with_file_in_place (fuel : nat) :
  let run := download (scenario_remote []) (2 + fuel) (audio_url 1)
               first_audio demo_token (start_world 1%nat ∅) in
  run.1 = Err (RuntimeError msg_token_expired)
  ∧ fs run.2 !! first_audio = Some (File demo_data)
  ∧ fs run.2 !! part_path first_audio = None.
Proof. vm_compute. repeat split. Qed.

(** C3, at failing inputs.  After one 401 and a retry that succeeds, the
    call raises instead of returning.  After two 401 in a row a third
    request is sent.  Against a remote that answers every asset request
    with 401 the retries never end: whatever the depth allowed, the call
    is still running, having refreshed the token once per level. *)
Theorem download_retry_not_bounded :
  (∀ fuel,
     let run := download (scenario_remote []) (2 + fuel) (audio_url 1)
                  first_audio demo_token (start_world 1%nat ∅) in
     run.1 = Err (RuntimeError msg_token_expired)
     ∧ (trace run.2).*1
       = [GetAsset (asset_url (audio_url 1) demo_token); PostToken;
          GetAsset (asset_url (audio_url 1) demo_token)])
  ∧ (∀ fuel,
       let run := download (scenario_remote []) (3 + fuel) (audio_url 1)
                    first_audio demo_token (start_world 2%nat ∅) in
       run.1 = Err (RuntimeError msg_token_expired)
       ∧ (trace run.2).*1
         = [GetAsset (asset_url (audio_url 1) demo_token); PostToken;
            GetAsset (asset_url (audio_url 1) demo_token); PostToken;
            GetAsset (asset_url (audio_url 1) demo_token)])
  ∧ (∀ fuel w,
       let run := download (refusing_remote demo_token) fuel (audio_url 1)
                    first_audio demo_token w in
       run.1 = OutOfFuel
       ∧ token_requests (trace run.2)
         = (token_requests (trace w) + fuel)%nat).
Proof.
  split; [intros fuel; vm_compute; split; reflexivity|].
  split; [intros fuel; vm_compute; split; reflexivity|].
  intros fuel. induction fuel as [|fuel IH]; intros w; cbv zeta.
  - split; [reflexivity | simpl; lia].
  - rewrite (download_unauthorized (refusing_remote demo_token) fuel
               (audio_url 1) first_audio demo_token w (reply_status 401) tt
               eq_refl eq_refl).
    rewrite (get_token_some (refusing_remote demo_token) _
               (reply_json (mkJson (Some demo_token) None None)) tt
               demo_token eq_refl eq_refl).
    specialize (IH (with_exchange tt PostToken
                      (Some (reply_json (mkJson (Some demo_token) None None)))
                      (with_exchange tt
                         (GetAsset (asset_url (audio_url 1) demo_token))
                         (Some (reply_status 401)) w))).
    cbv zeta in IH. destruct IH as [IH1 IH2].
    destruct (download (refusing_remote demo_token) fuel _ _ _ _)
      as [[[]|e|] w3]; simpl in IH1; try discriminate.
    split; [reflexivity|]. simpl in IH2 |- *. rewrite IH2.
    rewrite !token_requests_app. simpl. lia.
Qed.

Lemma list_records_unauthorized_witness :
  (list_records_from (scenario_remote []) (λ acc _ _, ret acc) (lit "me")
     1 demo_token january None tt (start_world 2%nat ∅)).1
  = Err (HTTPError 401).
Proof.
  destruct (list_records_unauthorized (scenario_remote [])
              (λ (acc : unit) _ _, ret acc) (lit "me") 0 demo_token january
              None tt (start_world 2%nat ∅) (reply_status 401) 1%nat eq_refl)
    as [_ H].
  destruct (H eq_refl) as [H1 _].
  destruct (H1 (reply_json (mkJson (Some demo_token) None None)) 1%nat
              demo_token (reply_status 401) O eq_refl eq_refl eq_refl)
    as [_ H2].
  rewrite (H2 eq_refl). reflexivity.
Defined.

Lemma main_fresh_tokens_witness :
  ∃ d,
    trace (main (scenario_remote [demo_data]) ascii_lower 4 scenario_cfg
             (start_world O ∅)).2
    = trace (start_world (RS := nat) O ∅) ++ d
    ∧ tokened None d
    ∧ (token_requests d
       = 1 + records_listed d + unauthorized_listings d)%nat.
Proof.
  destruct (main_fresh_tokens (scenario_remote [demo_data]) ascii_lower 4
              scenario_cfg (start_world O ∅))
    as (d & Hd & Ht & Hc).
  exists d. split; [exact Hd|]. split; [exact Ht|].
  apply Hc. vm_compute. reflexivity.
Defined.

(** In that run, with three records and nothing answered 401, four tokens
    are requested. *)
Lemma main_scenario_tokens :
  let d := trace (main (scenario_remote [demo_data]) ascii_lower 4
                    scenario_cfg (start_world O ∅)).2 in
  token_requests d = 4%nat ∧ records_listed d = 3%nat
  ∧ unauthorized_listings d = 0%nat.
Proof. vm_compute. repeat split. Qed.

(** C4 fails as stated: in the scenario the run does not complete; it
    ends with the error of the first empty video, and the folder of the
    second record is never made. *)
Lemma main_scenario_aborts :
  let run := main (scenario_remote []) ascii_lower 4 scenario_cfg
               (start_world O ∅) in
  run.1 ≠ Ok tt ∧ fs run.2 !! second_folder = None.
Proof. vm_compute. split; [discriminate | reflexivity]. Qed.

(** C4, as the code has it: in the scenario the run makes the output
    directory and the folder of the first record, writes its audio file,
    and ends with the zero-bytes error of its video, which leaves neither
    a video file nor a temporary file; nothing else is requested, made or
    printed: no further record is handled and no summary is written. *)
Theorem main_scenario_fails_fast (fuel : nat) :
  let run := main (scenario_remote []) ascii_lower (4 + fuel) scenario_cfg
               (start_world O ∅) in
  run.1 = Err (RuntimeError msg_zero_bytes)
  ∧ (fs run.2 !! out_dir = Some Dir
     ∧ fs run.2 !! first_folder = Some Dir
     ∧ fs run.2 !! first_audio = Some (File demo_data)
     ∧ size (fs run.2) = 3%nat)
  ∧ (fs run.2 !! first_video = None
     ∧ fs run.2 !! part_path first_video = None)
  ∧ (trace run.2).*1
    = [PostToken;
       GetListing demo_token (lit "me") january;
       PostToken;
       GetAsset (asset_url (audio_url 1) demo_token);
       GetAsset (asset_url (video_url 1) demo_token)]
  ∧ stdout run.2
    = [lit "[get] xRecording - Weekly sync - 2024-01-16 -> audio_only.m4a";
       lit "[get] xRecording - Weekly sync - 2024-01-16 -> shared_screen_with_speaker_view.mp4"].
Proof. vm_compute. repeat split. Qed.

(** * Further properties *)

(** ** The ends of a sanitised name *)

Lemma last_rev (s : str) : last (rev s) = head s.
Proof. destruct s as [|x t]; [reflexivity|]. simpl. apply last_snoc. Qed.

Lemma head_rev (s : str) : head (rev s) = last s.
Proof. rewrite <- (rev_involutive s) at 2. symmetry. apply last_rev. Qed.

Lemma lstrip_head s c : head (lstrip s) = Some c → is_space c = false.
Proof.
  induction s as [|x t IH]; simpl; [discriminate|].
  destruct (is_space x) eqn:E; [exact IH|]. simpl. intros [= <-]. exact E.
Qed.

Lemma lstrip_nil_iff s :
  lstrip s = [] ↔ Forall (λ c, is_space c = true) s.
Proof.
  induction s as [|x t IH]; simpl.
  - split; [constructor | reflexivity].
  - destruct (is_space x) eqn:E.
    + rewrite IH. split; [constructor; assumption|].
      intros H. inversion H. assumption.
    + split; [discriminate|]. intros H. inversion H. congruence.
Qed.

Lemma rstrip_last s c : last (rstrip s) = Some c → is_space c = false.
Proof. unfold rstrip. rewrite last_rev. apply lstrip_head. Qed.

Lemma lstrip_fix s :
  (∀ c, head s = Some c → is_space c = false) → lstrip s = s.
Proof.
  destruct s as [|x t]; [reflexivity|]. intros H. simpl.
  rewrite (H x eq_refl). reflexivity.
Qed.

Lemma rstrip_fix s :
  (∀ c, last s = Some c → is_space c = false) → rstrip s = s.
Proof.
  intros H. unfold rstrip. rewrite lstrip_fix; [apply rev_involutive|].
  intros c Hc. apply H. rewrite head_rev in Hc. exact Hc.
Qed.

Lemma rstrip_head s c : head (rstrip s) = Some c → head s = Some c.
Proof.
  destruct (rstrip_take s) as (k & -> & _).
  destruct s as [|x t], k; simpl; try discriminate. auto.
Qed.

Lemma strip_head s c : head (strip s) = Some c → is_space c = false.
Proof.
  unfold strip. intros H. apply rstrip_head in H. eapply lstrip_head, H.
Qed.

Lemma strip_last s c : last (strip s) = Some c → is_space c = false.
Proof. apply rstrip_last. Qed.

Lemma sub_runs_fix b s :
  spaced b s → sub_runs_from is_space SPACE b s = s.
Proof.
  revert b. induction s as [|c t IH]; intros b H; simpl; [reflexivity|].
  destruct H as [H1 H2]. destruct (is_space c) eqn:E.
  - destruct H1 as [-> ->]. rewrite (IH true) by exact H2. reflexivity.
  - rewrite (IH false) by exact H2. reflexivity.
Qed.

Lemma sub_each_fix s :
  Forall legal s → sub_each illegal UNDERSCORE s = s.
Proof.
  induction 1 as [|c t Hc _ IH]; [reflexivity|].
  unfold sub_each in *. rewrite fmap_cons, IH.
  unfold legal in Hc. rewrite Hc. reflexivity.
Qed.

(** A name that is already clean is left as it is. *)
Lemma sanitize_clean (s : str) :
  Forall legal s → spaced false s →
  (∀ c, head s = Some c → is_space c = false) →
  (∀ c, last s = Some c → is_space c = false) →
  (length s ≤ 150)%nat →
  sanitize s sanitize_max_len = s.
Proof.
  intros Hl Hs Hh Ht Hn. unfold sanitize, sanitize_max_len, slice_to.
  change (0 <=? 150) with true. cbv iota.
  rewrite (sub_each_fix _ Hl). unfold sub_runs. rewrite (sub_runs_fix _ _ Hs).
  unfold strip. rewrite (lstrip_fix _ Hh), (rstrip_fix _ Ht).
  apply take_ge. exact Hn.
Qed.

Lemma sanitize_full (title : str) :
  sanitize title sanitize_max_len
  = take 150 (strip (sub_runs is_space SPACE
                       (sub_each illegal UNDERSCORE title))).
Proof. reflexivity. Qed.

Lemma sanitize_legal s : Forall legal (sanitize s sanitize_max_len).
Proof.
  apply Forall_take, strip_Forall, sub_runs_from_Forall;
    [reflexivity | apply sub_each_legal].
Qed.

Lemma sanitize_length s : (length (sanitize s sanitize_max_len) ≤ 150)%nat.
Proof. rewrite sanitize_full, length_take. lia. Qed.

(** What is left of a title is empty only when the title is made of
    whitespace that the first substitution leaves alone. *)
Lemma sanitize_nil_inv (title : str) :
  sanitize title sanitize_max_len = [] →
  Forall (λ c, is_space c = true ∧ illegal c = false) title.
Proof.
  rewrite sanitize_full.
  set (s1 := sub_each illegal UNDERSCORE title).
  set (s2 := sub_runs is_space SPACE s1). intros H.
  assert (H0 : strip s2 = []) by (destruct (strip s2); [reflexivity | discriminate]).
  assert (H1 : filter nonspace s1 = []).
  { unfold s2, sub_runs in H0. rewrite <- (filter_sub_runs false s1),
      <- filter_strip, H0. reflexivity. }
  apply Forall_forall. intros c Hc.
  assert (Hin : (if illegal c then UNDERSCORE else c) ∈ s1).
  { unfold s1, sub_each. apply list_elem_of_fmap. exists c. auto. }
  destruct (is_space (if illegal c then UNDERSCORE else c)) eqn:E.
  - destruct (illegal c); [discriminate E | auto].
  - assert (Hf : (if illegal c then UNDERSCORE else c) ∈ filter nonspace s1)
      by (apply list_elem_of_filter; split; assumption).
    rewrite H1 in Hf. apply elem_of_nil in Hf. contradiction.
Qed.

(** Leading whitespace never survives [sanitize]; trailing whitespace
    survives only when the result was cut at the 150th character. *)
Theorem sanitize_ends (title : str) :
  (∀ c, head (sanitize title sanitize_max_len) = Some c → is_space c = false)
  ∧ ((length (sanitize title sanitize_max_len) < 150)%nat →
     ∀ c, last (sanitize title sanitize_max_len) = Some c →
          is_space c = false).
Proof.
  rewrite sanitize_full.
  set (full := strip (sub_runs is_space SPACE
                        (sub_each illegal UNDERSCORE title))).
  split.
  - intros c Hc. apply (strip_head (sub_runs is_space SPACE
                                      (sub_each illegal UNDERSCORE title))).
    fold full. destruct full as [|x t]; [discriminate | exact Hc].
  - intros Hlen c Hc. rewrite length_take in Hlen.
    rewrite take_ge in Hc by lia. eapply strip_last, Hc.
Qed.

(** Sanitising a sanitised title changes nothing more, as long as the
    first result is shorter than 150 characters (a result cut at the
    bound may end in a space, which a second pass would strip). *)
Theorem sanitize_idempotent (title : str) :
  (length (sanitize title sanitize_max_len) < 150)%nat →
  sanitize (sanitize title sanitize_max_len) sanitize_max_len
  = sanitize title sanitize_max_len.
Proof.
  intros Hlen.
  pose proof (sanitize_full title) as E.
  set (full := strip (sub_runs is_space SPACE
                        (sub_each illegal UNDERSCORE title))) in E.
  rewrite E in Hlen. rewrite length_take in Hlen.
  rewrite (take_ge full) in E by lia. rewrite E.
  apply sanitize_clean.
  - apply strip_Forall, sub_runs_from_Forall;
      [reflexivity | apply sub_each_legal].
  - eapply strip_spaced, sub_runs_spaced.
  - apply strip_head.
  - apply strip_last.
  - lia.
Qed.

Lemma sanitize_idempotent_witness :
  sanitize (sanitize (lit " Budget  2024: draft ") sanitize_max_len)
    sanitize_max_len
  = sanitize (lit " Budget  2024: draft ") sanitize_max_len.
Proof.
  apply (sanitize_idempotent (lit " Budget  2024: draft ")).
  vm_compute. lia.
Defined.

(** [sanitize] returns the empty string exactly for a title made only of
    whitespace other than control characters, the empty title included: a
    tab or a line feed becomes an underscore and stays. *)
Theorem sanitize_empty_iff (title : str) :
  sanitize title sanitize_max_len = []
  ↔ Forall (λ c, is_space c = true ∧ illegal c = false) title.
Proof.
  split; [apply sanitize_nil_inv|]. intros H. rewrite sanitize_full.
  assert (H1 : sub_each illegal UNDERSCORE title = title).
  { apply sub_each_fix. eapply Forall_impl; [exact H|].
    intros c [_ Hc]. exact Hc. }
  rewrite H1.
  assert (H2 : Forall (λ c, is_space c = true)
                 (sub_runs is_space SPACE title)).
  { apply sub_runs_from_Forall; [reflexivity|].
    eapply Forall_impl; [exact H|]. intros c [Hc _]. exact Hc. }
  apply lstrip_nil_iff in H2. unfold strip. rewrite H2. reflexivity.
Qed.

(** ** The names [main] builds *)

Lemma all_legal_Forall s : all_legal s = true → Forall legal s.
Proof.
  unfold all_legal. rewrite forallb_forall, Forall_forall. intros H c Hc.
  apply list_elem_of_In, H in Hc. apply negb_true_iff, Hc.
Qed.

Lemma is_digit_legal c : is_digit c → legal c.
Proof.
  unfold is_digit, legal, illegal. intros H. apply orb_false_iff. split.
  - apply N.leb_gt. lia.
  - apply bool_decide_eq_false. rewrite !elem_of_cons, elem_of_nil. lia.
Qed.

Lemma pretty_N_char_digit x : is_digit (N_of_ascii (pretty_N_char x)).
Proof.
  unfold pretty_N_char, is_digit.
  repeat case_match; vm_compute; split; discriminate.
Qed.

Lemma pretty_N_go_digits x : ∀ s,
  Forall is_digit (lit s) → Forall is_digit (lit (pretty_N_go x s)).
Proof.
  induction (N.lt_wf_0 x) as [x _ IH]. intros s Hs.
  destruct (decide (x = 0)%N) as [->|Hx]; [rewrite pretty_N_go_0; exact Hs|].
  rewrite pretty_N_go_step by lia. apply IH.
  - apply N.div_lt; lia.
  - change (lit (String ?a s)) with (N_of_ascii a :: lit s).
    constructor; [apply pretty_N_char_digit | exact Hs].
Qed.

Lemma pretty_N_go_length (k : nat) : ∀ x s,
  (x < 10 ^ N.of_nat k)%N →
  (length (lit s) ≤ length (lit (pretty_N_go x s)) ≤ length (lit s) + k)%nat.
Proof.
  induction k as [|k IH]; intros x s Hx.
  - assert (x = 0%N) as -> by (simpl in Hx; lia). rewrite pretty_N_go_0. lia.
  - destruct (decide (x = 0)%N) as [->|Hx0];
      [rewrite pretty_N_go_0; lia|].
    rewrite pretty_N_go_step by lia.
    assert (Hd : (x `div` 10 < 10 ^ N.of_nat k)%N).
    { apply N.Div0.div_lt_upper_bound.
      replace (N.of_nat (S k)) with (N.succ (N.of_nat k)) in Hx by lia.
      rewrite N.pow_succ_r' in Hx. exact Hx. }
    specialize (IH _ (String (pretty_N_char (x `mod` 10)) s) Hd).
    change (lit (String ?a s)) with (N_of_ascii a :: lit s) in IH.
    simpl in IH. lia.
Qed.

(** The decimal form of a number is made of digits, at most [k] of them
    for a number below the [k]th power of ten. *)
Lemma str_of_nat_digits n : Forall is_digit (str_of_nat n).
Proof.
  unfold str_of_nat, pretty, pretty_N.
  destruct (decide (n = 0)%N).
  - constructor; [vm_compute; split; discriminate | constructor].
  - apply pretty_N_go_digits. constructor.
Qed.

Lemma str_of_nat_length n (k : nat) :
  (n < 10 ^ N.of_nat (S k))%N → (1 ≤ length (str_of_nat n) ≤ S k)%nat.
Proof.
  intros Hn. unfold str_of_nat, pretty, pretty_N.
  destruct (decide (n = 0)%N) as [->|Hn0]; [simpl; lia|].
  pose proof (pretty_N_go_length (S k) n EmptyString Hn) as H.
  rewrite pretty_N_go_step in * by lia.
  pose proof (pretty_N_go_length (S k) (n `div` 10)
                (String (pretty_N_char (n `mod` 10)) EmptyString)) as H'.
  destruct (decide (n `div` 10 < 10 ^ N.of_nat (S k))%N) as [Hd|Hd].
  - specialize (H' Hd).
    change (lit (String ?a EmptyString)) with [N_of_ascii a] in H'.
    simpl in H, H'. lia.
  - exfalso. apply Hd.
    assert (n `div` 10 ≤ n)%N by (apply N.Div0.div_le_upper_bound; lia).
    lia.
Qed.

Lemma zero_pad_shape (width : nat) (z : Z) :
  0 ≤ z < 10 ^ Z.of_nat width → (0 < width)%nat →
  Forall is_digit (zero_pad width z) ∧ length (zero_pad width z) = width.
Proof.
  intros Hz Hw. unfold zero_pad. cbv zeta.
  destruct width as [|k]; [lia|].
  assert (Hn : (Z.to_N z < 10 ^ N.of_nat (S k))%N).
  { apply N2Z.inj_lt. rewrite N2Z.inj_pow, Z2N.id, nat_N_Z by lia.
    exact (proj2 Hz). }
  pose proof (str_of_nat_length _ _ Hn) as Hl. split.
  - apply Forall_app. split; [|apply str_of_nat_digits].
    apply Forall_replicate. unfold is_digit. lia.
  - rewrite length_app, length_replicate.
    change (@length N) with (@length char) in *. lia.
Qed.

(** The ISO form of a date is ten characters, none of which [sanitize]
    would replace. *)
Lemma isoformat_shape d :
  valid_date d → Forall legal (isoformat d) ∧ length (isoformat d) = 10%nat.
Proof.
  intros Hd. apply valid_date_iff in Hd as (Hy & Hm & Hday).
  pose proof (days_in_month_bounds (year d) (month d)).
  destruct (zero_pad_shape 4 (year d)) as [Y1 Y2];
    [simpl; lia | lia |].
  destruct (zero_pad_shape 2 (month d)) as [M1 M2];
    [simpl; lia | lia |].
  destruct (zero_pad_shape 2 (day d)) as [D1 D2];
    [simpl; lia | lia |].
  unfold isoformat. split.
  - pose proof (λ s H, Forall_impl is_digit legal s H is_digit_legal) as Hdl.
    apply Forall_app; split; [auto|].
    apply Forall_app; split; [apply all_legal_Forall; reflexivity|].
    apply Forall_app; split; [auto|].
    apply Forall_app; split; [apply all_legal_Forall; reflexivity | auto].
  - rewrite !length_app, Y2, M2, D2. reflexivity.
Qed.

(** The folder of a record is one path component whatever the title: its
    name starts with [xRecording - ], holds none of the characters that
    [sanitize] replaces, the two slashes among them, and is 26 to 176
    characters long. *)
Theorem folder_name_safe (meeting : Meeting) (dt : date) :
  valid_date dt →
  Forall legal (folder_name meeting dt)
  ∧ (26 ≤ length (folder_name meeting dt) ≤ 176)%nat
  ∧ take 13 (folder_name meeting dt) = lit "xRecording - ".
Proof.
  intros Hd. destruct (isoformat_shape dt Hd) as [I1 I2].
  unfold folder_name. split; [|split].
  - apply Forall_app; split; [apply all_legal_Forall; reflexivity|].
    apply Forall_app; split; [apply sanitize_legal|].
    apply Forall_app; split; [apply all_legal_Forall; reflexivity | exact I1].
  - rewrite !length_app, I2.
    pose proof (sanitize_length (default (lit "Untitled") (topic meeting))).
    change (length (lit "xRecording - ")) with 13%nat.
    change (length (lit " - ")) with 3%nat. lia.
  - reflexivity.
Qed.

Lemma folder_name_safe_witness :
  Forall legal (folder_name escaping_meeting (Date 2024 2 29))
  ∧ (26 ≤ length (folder_name escaping_meeting (Date 2024 2 29)) ≤ 176)%nat
  ∧ take 13 (folder_name escaping_meeting (Date 2024 2 29))
    = lit "xRecording - ".
Proof.
  apply (folder_name_safe escaping_meeting (Date 2024 2 29)). reflexivity.
Defined.

(** The name of a file is never empty, holds none of the characters that
    [sanitize] replaces and is at most 150 characters long, whatever the
    entry says and whatever [lower] does. *)
Theorem file_name_safe (lower : str → str) (rf : RecFile) :
  file_name lower rf ≠ []
  ∧ Forall legal (file_name lower rf)
  ∧ (length (file_name lower rf) ≤ 150)%nat.
Proof.
  unfold file_name. cbv zeta. split; [|split].
  - intros H. apply sanitize_nil_inv in H.
    rewrite Forall_app, Forall_app in H. destruct H as (_ & H & _).
    inversion H as [|? ? [Hs _] _]. discriminate Hs.
  - apply sanitize_legal.
  - apply sanitize_length.
Qed.

(** ** More on paths *)

Lemma rfind_None c s : rfind c s = None → c ∉ s.
Proof.
  induction s as [|x t IH]; simpl; intros H; [apply not_elem_of_nil|].
  destruct (rfind c t); [discriminate|].
  destruct (N.eqb_spec x c); [discriminate|].
  apply not_elem_of_cons. split; [congruence | apply IH; reflexivity].
Qed.

Lemma rfind_Some c s i :
  rfind c s = Some i →
  ∃ rest, drop i s = c :: rest ∧ (c ∉ rest) ∧ (i < length s)%nat.
Proof.
  revert i. induction s as [|x t IH]; simpl; intros i H; [discriminate|].
  destruct (rfind c t) as [j|] eqn:E.
  - injection H as <-. destruct (IH j eq_refl) as (rest & H1 & H2 & H3).
    exists rest. simpl. split; [exact H1|]. split; [exact H2 | lia].
  - destruct (N.eqb_spec x c) as [->|]; [|discriminate]. injection H as <-.
    exists t. split; [reflexivity|]. split; [apply rfind_None, E | simpl; lia].
Qed.

Lemma rfind_last c l rest :
  c ∉ rest → rfind c (l ++ c :: rest) = Some (length l).
Proof.
  intros H. assert (E : rfind c rest = None).
  { induction rest as [|x t IH]; [reflexivity|]. simpl.
    apply not_elem_of_cons in H as [H1 H2]. rewrite (IH H2).
    destruct (N.eqb_spec x c); [congruence | reflexivity]. }
  induction l as [|x t IH]; simpl.
  - rewrite E, N.eqb_refl. reflexivity.
  - rewrite IH. reflexivity.
Qed.

Lemma suffix_index_Some n i :
  suffix_index n = Some i →
  ∃ rest, drop i n = DOT :: rest ∧ (DOT ∉ rest) ∧ rest ≠ [] ∧ (0 < i)%nat.
Proof.
  unfold suffix_index. destruct (rfind DOT n) as [j|] eqn:E; [|discriminate].
  destruct ((0 <? j)%nat && (j <? length n - 1)%nat) eqn:B; [|discriminate].
  intros [= <-]. apply andb_true_iff in B as [B1 B2].
  apply Nat.ltb_lt in B1, B2.
  destruct (rfind_Some _ _ _ E) as (rest & H1 & H2 & H3).
  exists rest. split; [exact H1|]. split; [exact H2|]. split; [|exact B1].
  intros ->. apply (f_equal length) in H1. rewrite length_drop in H1.
  simpl in H1. lia.
Qed.

Lemma suffix_index_last l rest :
  l ≠ [] → rest ≠ [] → DOT ∉ rest →
  suffix_index (l ++ DOT :: rest) = Some (length l).
Proof.
  intros Hl Hr Hd. unfold suffix_index. rewrite (rfind_last _ _ _ Hd).
  rewrite length_app. simpl.
  destruct l; [congruence|]. destruct rest; [congruence|]. simpl.
  replace (_ <? _)%nat with true; [reflexivity|].
  symmetry. apply Nat.ltb_lt. lia.
Qed.

(** A name with an extension keeps it in every candidate: the counter goes
    between stem and extension. *)
Lemma candidate_suffix (path : Path) (i : N) :
  suffix path ≠ [] →
  suffix (candidate path i) = suffix path
  ∧ stem (candidate path i) = stem path ++ lit "-" ++ str_of_nat i.
Proof.
  intros Hs. unfold suffix, stem in *. cbn [name candidate with_name].
  unfold suffix, stem.
  destruct (suffix_index (name path)) as [k|] eqn:E; [|congruence].
  destruct (suffix_index_Some _ _ E) as (rest & H1 & H2 & H3 & H4).
  rewrite H1.
  assert (Hl : take k (name path) ++ lit "-" ++ str_of_nat i ≠ []).
  { intros H. apply (f_equal length) in H. rewrite !length_app in H.
    simpl in H. lia. }
  replace (take k (name path) ++ lit "-" ++ str_of_nat i ++ DOT :: rest)
    with ((take k (name path) ++ lit "-" ++ str_of_nat i) ++ DOT :: rest)
    by (rewrite <- !app_assoc; reflexivity).
  rewrite (suffix_index_last _ _ Hl H3 H2).
  split; [apply drop_app_length | apply take_app_length].
Qed.

Lemma next_unique_path_total fuel (f : FS) path :
  (size f < fuel)%nat → ∃ q, next_unique_path fuel f path = Some q.
Proof.
  intros Hfuel. unfold next_unique_path.
  destruct (path_exists f path); simpl; [|eauto].
  destruct (next_unique_from fuel f path 2) as [q|] eqn:Hq; [eauto|].
  exfalso. pose proof (next_unique_from_None _ _ _ _ Hq) as Hall.
  assert (fuel ≤ size f)%nat; [|lia].
  apply (taken_bound f (λ k, candidate path (2 + N.of_nat k)));
    [|exact Hall].
  intros a b Hab. apply candidate_inj in Hab. lia.
Qed.

Lemma next_unique_path_parent fuel (f : FS) path q :
  next_unique_path fuel f path = Some q → parent q = parent path.
Proof.
  unfold next_unique_path. destruct (negb (path_exists f path)).
  - intros [= <-]. reflexivity.
  - intros H. apply next_unique_from_Some in H as (j & _ & -> & _).
    reflexivity.
Qed.

Lemma next_unique_path_free fuel (f : FS) path q :
  next_unique_path fuel f path = Some q → f !! q = None.
Proof.
  unfold next_unique_path. destruct (path_exists f path) eqn:E; simpl.
  - intros H. apply next_unique_from_Some in H as (j & _ & _ & H & _).
    exact H.
  - intros [= <-]. apply path_exists_false, E.
Qed.

(** The path [next_unique_path] chooses for a name with an extension
    carries the same extension, and the counter, if any, sits before it;
    the path lies in the same directory. *)
Theorem next_unique_path_keeps_extension
    (fuel : nat) (fs : FS) (path q : Path) :
  next_unique_path fuel fs path = Some q →
  suffix path ≠ [] →
  parent q = parent path
  ∧ suffix q = suffix path
  ∧ (q = path ∨ ∃ i, stem q = stem path ++ lit "-" ++ str_of_nat i).
Proof.
  unfold next_unique_path. intros H Hs.
  destruct (negb (path_exists fs path)).
  - injection H as <-. split; [reflexivity|]. split; [reflexivity|].
    left. reflexivity.
  - apply next_unique_from_Some in H as (j & _ & -> & _).
    destruct (candidate_suffix path j Hs) as [H1 H2].
    split; [reflexivity|]. split; [exact H1|]. right. exists j. exact H2.
Qed.

Lemma next_unique_path_keeps_extension_witness :
  parent (candidate demo_dest 4) = parent demo_dest
  ∧ suffix (candidate demo_dest 4) = suffix demo_dest
  ∧ (candidate demo_dest 4 = demo_dest
     ∨ ∃ i, stem (candidate demo_dest 4)
            = stem demo_dest ++ lit "-" ++ str_of_nat i).
Proof.
  apply (next_unique_path_keeps_extension 4 demo_fs demo_dest
           (candidate demo_dest 4)).
  - vm_compute. reflexivity.
  - vm_compute. discriminate.
Defined.

Lemma ends_with_app (s sfx : str) : ends_with sfx (s ++ sfx) = true.
Proof.
  unfold ends_with. apply bool_decide_eq_true. rewrite length_app.
  replace (length s + length sfx - length sfx)%nat with (length s) by lia.
  apply drop_app_length.
Qed.

(** The temporary path of a download is a sibling of the final path, named
    after it with [.part] appended, whatever the extension of the final
    path; it differs from the final path, and distinct final paths have
    distinct temporary paths. *)
Theorem part_path_sibling (dest other : Path) :
  parent (part_path dest) = parent dest
  ∧ name (part_path dest) = name dest ++ lit ".part"
  ∧ part_path dest ≠ dest
  ∧ (part_path dest = part_path other → dest = other).
Proof.
  split; [rewrite part_path_name; reflexivity|].
  split; [rewrite part_path_name; reflexivity|].
  split; [apply part_path_ne|].
  intros H. rewrite !part_path_name in H. injection H as Hp Hn.
  apply app_inv_tail in Hn. destruct dest, other; simpl in *; congruence.
Qed.

(** ** More on dates *)

(** [add_month] gives the first day of the following calendar month,
    whatever the day of its argument, and overflows only in December
    9999. *)
Theorem add_month_next (d : date) :
  valid_date d →
  (add_month d = None ↔ year d = 9999 ∧ month d = 12)
  ∧ ∀ d', add_month d = Some d' →
      valid_date d' ∧ day d' = 1 ∧ month_index d' = month_index d + 1
      ∧ date_lt d d'.
Proof.
  intros Hd. pose proof Hd as Hv. rewrite valid_date_iff in Hv.
  rewrite add_month_eq. split.
  - split.
    + intros H. destruct (decide (year d = 9999 ∧ month d = 12)) as [|Hn];
        [assumption|].
      destruct (month_after_Some (year d) (month d) Hn) as [nf Hnf];
        [lia | lia | congruence].
    + intros [Hy Hm]. unfold month_after. rewrite Hy, Hm. reflexivity.
  - intros d' H.
    destruct (month_after_valid _ _ _ (proj1 Hv) (proj1 (proj2 Hv)) H)
      as (H1 & H2 & H3).
    split; [exact H1|]. split; [exact H2|]. split; [exact H3|].
    apply date_lt_key; [assumption | assumption|].
    pose proof (days_in_month_bounds (year d) (month d)).
    pose proof H1 as Hv'. rewrite valid_date_iff in Hv'.
    unfold month_index in H3. unfold date_key. lia.
Qed.

Lemma add_month_next_witness :
  add_month (Date 2024 1 31) = Some (Date 2024 2 1)
  ∧ month_index (Date 2024 2 1) = month_index (Date 2024 1 31) + 1.
Proof.
  destruct (add_month_next (Date 2024 1 31)) as [_ H]; [reflexivity|].
  split; [reflexivity|]. apply (H (Date 2024 2 1)). reflexivity.
Defined.

Lemma tiles_months a ws b :
  tiles a ws b →
  Z.of_nat (length ws) = month_index b - month_index a + 1
  ∧ ∀ (i : nat) w, ws !! i = Some w →
      day w.1 = 1 ∧ month_index w.1 = month_index a + Z.of_nat i
      ∧ month_index w.2 = month_index w.1.
Proof.
  induction 1 as [a b Ha Hb Hd Hy Hm | a e a' ws b Ha He Hw Hs Ht [IH1 IH2]].
  - split; [unfold month_index; simpl; lia|].
    intros [|i] w Hw; [|discriminate]. injection Hw as <-. simpl.
    unfold month_index. lia.
  - destruct Hw as (Hd & Hy & Hm & Hl). simpl in Hd, Hy, Hm, Hl.
    assert (Hidx : month_index a' = month_index a + 1).
    { destruct e as [ey em ed]. simpl in *. subst ey em ed.
      rewrite date_succ_end in Hs. rewrite valid_date_iff in Ha.
      destruct (month_after_valid _ _ _ (proj1 Ha) (proj1 (proj2 Ha)) Hs)
        as (_ & _ & H3). unfold month_index at 2. exact H3. }
    split; [simpl length; lia|].
    intros [|i] w Hw.
    + injection Hw as <-. simpl. unfold month_index. lia.
    + destruct (IH2 i w Hw) as (H1 & H2 & H3).
      split; [exact H1|]. split; [lia | exact H3].
Qed.

(** For valid dates [start_d ≤ end_d], with [end_d] before December 9999,
    [month_windows] yields one window for every calendar month from that
    of [start_d] to that of [end_d], in order; each window starts on the
    first day of its month and ends in the same month, so that no window
    is longer than a month. *)
Theorem month_windows_per_month (start_d end_d : date) (fuel : nat) :
  valid_date start_d → valid_date end_d → date_le start_d end_d →
  ¬ (year end_d = 9999 ∧ month end_d = 12) →
  (months_spanned start_d end_d ≤ fuel)%nat →
  ∃ ws,
    month_windows_dates fuel start_d end_d = (ws, Exhausted)
    ∧ Z.of_nat (length ws) = month_index end_d - month_index start_d + 1
    ∧ ∀ (i : nat) w, ws !! i = Some w →
        day w.1 = 1
        ∧ month_index w.1 = month_index start_d + Z.of_nat i
        ∧ month_index w.2 = month_index w.1.
Proof.
  intros Hs He Hle Hno Hfuel.
  pose proof Hs as Hs'. pose proof He as He'.
  rewrite valid_date_iff in Hs', He'.
  apply date_le_key in Hle; [|assumption|assumption].
  assert (Hidx : month_index start_d ≤ month_index end_d).
  { unfold date_key in Hle. unfold month_index.
    pose proof (days_in_month_bounds (year start_d) (month start_d)).
    pose proof (days_in_month_bounds (year end_d) (month end_d)). lia. }
  assert (Hf : valid_date (first_of_month start_d)).
  { apply valid_date_iff. simpl.
    pose proof (days_in_month_bounds (year start_d) (month start_d)). lia. }
  destruct (month_windows_from_tiles
              (Z.to_nat (month_index end_d - month_index start_d))
              (first_of_month start_d) end_d fuel Hf eq_refl He Hno)
    as (ws & Hrun & Ht).
  { change (month_index (first_of_month start_d))
      with (month_index start_d). lia. }
  { unfold months_spanned in Hfuel. unfold month_index.
    unfold month_index in Hidx. lia. }
  exists ws. split; [exact Hrun|].
  apply tiles_months in Ht.
  change (month_index (first_of_month start_d))
    with (month_index start_d) in Ht. exact Ht.
Qed.

Lemma month_windows_per_month_witness :
  ∃ ws,
    month_windows_dates 4 (Date 2024 1 15) (Date 2024 3 10) = (ws, Exhausted)
    ∧ Z.of_nat (length ws) = 3.
Proof.
  destruct (month_windows_per_month (Date 2024 1 15) (Date 2024 3 10) 4)
    as (ws & H1 & H2 & _).
  - reflexivity.
  - reflexivity.
  - reflexivity.
  - vm_compute. intros [H _]. discriminate H.
  - vm_compute. lia.
  - exists ws. split; [exact H1 | exact H2].
Defined.




(** ** More on the runs against a remote *)

Lemma fold_collect {RS} token (ms : list Meeting) acc (w : @World RS) :
  fold_m (λ acc m, collect acc m token) ms acc w
  = (Ok (acc ++ ((λ m, (m, token)) <$> ms)), w).
Proof.
  revert acc. induction ms as [|m ms IH]; intros acc; simpl.
  - rewrite app_nil_r. reflexivity.
  - unfold bind, collect at 1, ret. rewrite IH, <- app_assoc. reflexivity.
Qed.

Section MoreRemoteFacts.

Context {RS : Type}.
Context (serve : Request → RS → option Reply * RS).
Context (lower : str → str).

Implicit Types (w : @World RS).

(** [get_token] sends one request and touches nothing else.  It returns
    the token of a reply that has no error status and whose body is JSON
    with the key [access_token]; otherwise it raises: [ConnectionError]
    without a reply, [HTTPError] on a status from 400 to 599,
    [JSONDecodeError] on a body that is not JSON, [KeyError] when the key
    is missing. *)
Theorem get_token_outcome w x s :
  serve PostToken (remote w) = (x, s) →
  get_token serve w
  = (match x with
     | None => Err ConnectionError
     | Some r =>
         if http_error (status_code r) then Err (HTTPError (status_code r))
         else match json_body r with
              | None => Err JSONDecodeError
              | Some j =>
                  match access_token j with
                  | None => Err (KeyError "access_token")
                  | Some t => Ok t
                  end
              end
     end,
     with_exchange s PostToken x w).
Proof.
  intros H. unfold get_token, bind, request. rewrite H.
  destruct x as [r|]; [|reflexivity].
  unfold raise_for_status, json, raise, ret.
  destruct (http_error (status_code r)); [reflexivity|].
  destruct (json_body r) as [j|]; [|reflexivity].
  destruct (access_token j); reflexivity.
Qed.

(** A request answered without an error status by a stream that
    completes with at least one byte is stored. *)
Lemma download_stores fuel url dest token w r s :
  serve (GetAsset (asset_url url token)) (remote w) = (Some r, s) →
  http_error (status_code r) = false →
  stream_ok r = true →
  concat (chunks r) ≠ [] →
  fs w !! part_path dest ≠ Some Dir →
  fs w !! dest ≠ Some Dir →
  download serve (S fuel) url dest token w
  = (Ok tt,
     with_fs (<[dest := File (concat (chunks r))]>
                (delete (part_path dest) (fs w)))
       (with_exchange s (GetAsset (asset_url url token)) (Some r) w)).
Proof.
  intros H Hs Hok Hc Ht Hd.
  assert (E : status_code r ≠ 401).
  { intros E. rewrite E in Hs. discriminate. }
  rewrite (download_attempt serve _ _ _ _ _ _ _ H E), Hs, Hok.
  cbn [negb].
  destruct (fs w !! part_path dest) as [[|?]|]; [contradiction|..].
  all: destruct (concat (chunks r)) as [|b c]; [contradiction|].
  all: destruct (fs w !! dest) as [[|?]|]; [contradiction|..];
    reflexivity.
Qed.

(** [download] returns exactly when its request is answered without an
    error status by a stream that completes with at least one byte, and
    neither the temporary nor the final path is a directory.  It has then
    sent that one request; the final path holds the whole body, replacing
    what was there, the temporary path is gone, and nothing else has
    changed. *)
Theorem download_returns_iff fuel url dest token w w' :
  download serve (S fuel) url dest token w = (Ok tt, w')
  ↔ ∃ r s,
      serve (GetAsset (asset_url url token)) (remote w) = (Some r, s)
      ∧ http_error (status_code r) = false
      ∧ stream_ok r = true
      ∧ concat (chunks r) ≠ []
      ∧ fs w !! part_path dest ≠ Some Dir
      ∧ fs w !! dest ≠ Some Dir
      ∧ w' = with_fs (<[dest := File (concat (chunks r))]>
                        (delete (part_path dest) (fs w)))
               (with_exchange s (GetAsset (asset_url url token)) (Some r) w).
Proof.
  split.
  - destruct (serve (GetAsset (asset_url url token)) (remote w))
      as [[r|] s] eqn:H.
    + destruct (Z.eq_dec (status_code r) 401) as [E|E].
      * rewrite (download_unauthorized serve _ _ _ _ _ _ _ H E).
        destruct (get_token serve _) as [[t|e|] w2]; [|discriminate..].
        destruct (download serve fuel url dest t w2) as [[[]|e|] w3];
          discriminate.
      * rewrite (download_attempt serve _ _ _ _ _ _ _ H E). intros Hok.
        exists r, s. split; [reflexivity|].
        destruct (http_error (status_code r)); [discriminate|].
        split; [reflexivity|].
        destruct (fs w !! part_path dest) as [[|?]|] eqn:Et;
          [discriminate| |].
        all: destruct (stream_ok r); cbn [negb] in Hok; [|discriminate].
        all: split; [reflexivity|].
        all: destruct (concat (chunks r)) as [|b c]; [discriminate|].
        all: split; [discriminate|]. all: split; [discriminate|].
        all: destruct (fs w !! dest) as [[|?]|]; [discriminate|..].
        all: injection Hok as <-; split; [discriminate | reflexivity].
    + rewrite (download_no_reply serve _ _ _ _ _ _ H). discriminate.
  - intros (r & s & H & Hs & Hok & Hc & Ht & Hd & ->).
    apply download_stores; assumption.
Qed.

(** When the stream breaks, [download] raises [ConnectionError] after its
    one request: the temporary file stays behind with the bytes that
    arrived, and the final path is as it was. *)
Theorem download_broken_stream fuel url dest token w r s :
  serve (GetAsset (asset_url url token)) (remote w) = (Some r, s) →
  http_error (status_code r) = false →
  stream_ok r = false →
  fs w !! part_path dest ≠ Some Dir →
  let run := download serve (S fuel) url dest token w in
  run.1 = Err ConnectionError
  ∧ fs run.2 !! part_path dest = Some (File (concat (chunks r)))
  ∧ fs run.2 !! dest = fs w !! dest
  ∧ trace run.2 = trace w ++ [(GetAsset (asset_url url token), Some r)].
Proof.
  intros H Hs Hok Ht. cbv zeta.
  assert (E : status_code r ≠ 401).
  { intros E. rewrite E in Hs. discriminate. }
  rewrite (download_attempt serve _ _ _ _ _ _ _ H E), Hs, Hok.
  cbn [negb].
  destruct (fs w !! part_path dest) as [[|?]|]; [contradiction|..].
  all: simpl; split; [reflexivity|]; split; [apply lookup_insert_eq|].
  all: split; [apply lookup_insert_ne, part_path_ne | reflexivity].
Qed.

(** Without a reply, or on an error status other than 401, [download]
    raises after its one request, [ConnectionError] or [HTTPError] with
    the status, and nothing on disk is touched: not even the temporary
    file is made. *)
Theorem download_refused fuel url dest token w x s :
  serve (GetAsset (asset_url url token)) (remote w) = (x, s) →
  (∀ r, x = Some r → http_error (status_code r) = true
                     ∧ status_code r ≠ 401) →
  download serve (S fuel) url dest token w
  = (match x with
     | Some r => Err (HTTPError (status_code r))
     | None => Err ConnectionError
     end,
     with_exchange s (GetAsset (asset_url url token)) x w).
Proof.
  intros H Hx. destruct x as [r|].
  - destruct (Hx r eq_refl) as [Hs E].
    rewrite (download_attempt serve _ _ _ _ _ _ _ H E), Hs. reflexivity.
  - apply (download_no_reply serve), H.
Qed.

(** When the first answer is the status 401, the token is refreshed and
    the retry is answered by a complete, non-empty stream, [download]
    stores the file at the final path, removes the temporary file, and
    then raises the token-expired error, after these three exchanges. *)
Theorem download_retry_raises fuel url dest token w r s rt s2 t' r2 s3 :
  serve (GetAsset (asset_url url token)) (remote w) = (Some r, s) →
  status_code r = 401 →
  serve PostToken s = (Some rt, s2) → reply_token rt = Some t' →
  serve (GetAsset (asset_url url t')) s2 = (Some r2, s3) →
  http_error (status_code r2) = false →
  stream_ok r2 = true →
  concat (chunks r2) ≠ [] →
  fs w !! part_path dest ≠ Some Dir →
  fs w !! dest ≠ Some Dir →
  let run := download serve (S (S fuel)) url dest token w in
  run.1 = Err (RuntimeError msg_token_expired)
  ∧ fs run.2 !! dest = Some (File (concat (chunks r2)))
  ∧ fs run.2 !! part_path dest = None
  ∧ trace run.2
    = trace w ++ [(GetAsset (asset_url url token), Some r);
                  (PostToken, Some rt);
                  (GetAsset (asset_url url t'), Some r2)].
Proof.
  intros H E Ht Hrt H2 Hs Hok Hc Htmp Hdest. cbv zeta.
  rewrite (download_unauthorized serve _ _ _ _ _ _ _ H E).
  set (w1 := with_exchange s (GetAsset (asset_url url token)) (Some r) w).
  rewrite (get_token_some serve w1 rt s2 t' Ht Hrt).
  set (w2 := with_exchange s2 PostToken (Some rt) w1).
  assert (E2 : status_code r2 ≠ 401).
  { intros E2. rewrite E2 in Hs. discriminate. }
  rewrite (download_attempt serve fuel url dest t' w2 r2 s3 H2 E2), Hs, Hok.
  cbn [negb]. change (fs w2) with (fs w).
  destruct (fs w !! part_path dest) as [[|?]|]; [contradiction|..].
  all: destruct (concat (chunks r2)) as [|b c]; [contradiction|].
  all: destruct (fs w !! dest) as [[|?]|]; [contradiction|..].
  all: simpl; split; [reflexivity|]; split; [apply lookup_insert_eq|].
  all: split; [|rewrite <- !app_assoc; reflexivity].
  all: rewrite lookup_insert_ne by (apply not_eq_sym, part_path_ne).
  all: apply lookup_delete_eq.
Qed.

(** Whatever its outcome, [download] changes nothing on disk besides the
    final path and the temporary path. *)
Lemma download_frame fuel url dest token w q :
  q ≠ dest → q ≠ part_path dest →
  fs (download serve fuel url dest token w).2 !! q = fs w !! q.
Proof.
  intros Hd Ht. revert token w.
  induction fuel as [|fuel IH]; intros token w; [reflexivity|].
  destruct (serve (GetAsset (asset_url url token)) (remote w))
    as [[r|] s] eqn:H.
  - destruct (Z.eq_dec (status_code r) 401) as [E|E].
    + rewrite (download_unauthorized serve _ _ _ _ _ _ _ H E).
      destruct (get_token_cases serve
                  (with_exchange s (GetAsset (asset_url url token)) (Some r) w))
        as (rt & s2 & _ & Hw2 & _ & _).
      destruct (get_token serve _) as [[t|e|] w2]; simpl in Hw2; subst w2;
        [|reflexivity..].
      specialize (IH t (with_exchange s2 PostToken rt
                          (with_exchange s (GetAsset (asset_url url token))
                             (Some r) w))).
      destruct (download serve fuel url dest t _) as [[[]|e|] w3];
        exact IH.
    + rewrite (download_attempt serve _ _ _ _ _ _ _ H E).
      destruct (http_error (status_code r)); [reflexivity|].
      destruct (fs w !! part_path dest) as [[|?]|]; [reflexivity|..].
      all: destruct (stream_ok r); cbn [negb];
        [|simpl; apply lookup_insert_ne; congruence].
      all: destruct (concat (chunks r)) as [|b c];
        [simpl; apply lookup_delete_ne; congruence|].
      all: destruct (fs w !! dest) as [[|?]|];
        [simpl; apply lookup_insert_ne; congruence|..].
      all: simpl; rewrite lookup_insert_ne by congruence;
        apply lookup_delete_ne; congruence.
  - rewrite (download_no_reply serve _ _ _ _ _ _ H). reflexivity.
Qed.

(** Whatever its outcome and however often it retries, a call of
    [download] leaves every path other than the final and the temporary
    one as it was, and prints nothing. *)
Theorem download_touches_two_paths fuel url dest token w q :
  q ≠ dest → q ≠ part_path dest →
  let run := download serve fuel url dest token w in
  fs run.2 !! q = fs w !! q ∧ stdout run.2 = stdout w.
Proof.
  intros Hd Ht. split; [apply download_frame; assumption|].
  revert token w.
  induction fuel as [|fuel IH]; intros token w; [reflexivity|].
  destruct (serve (GetAsset (asset_url url token)) (remote w))
    as [[r|] s] eqn:H.
  - destruct (Z.eq_dec (status_code r) 401) as [E|E].
    + rewrite (download_unauthorized serve _ _ _ _ _ _ _ H E).
      destruct (get_token_cases serve
                  (with_exchange s (GetAsset (asset_url url token)) (Some r) w))
        as (rt & s2 & _ & Hw2 & _ & _).
      destruct (get_token serve _) as [[t|e|] w2]; simpl in Hw2; subst w2;
        [|reflexivity..].
      specialize (IH t (with_exchange s2 PostToken rt
                          (with_exchange s (GetAsset (asset_url url token))
                             (Some r) w))).
      destruct (download serve fuel url dest t _) as [[[]|e|] w3];
        exact IH.
    + rewrite (download_attempt serve _ _ _ _ _ _ _ H E).
      destruct (http_error (status_code r)); [reflexivity|].
      destruct (fs w !! part_path dest) as [[|?]|]; [reflexivity|..].
      all: destruct (stream_ok r); cbn [negb]; [|reflexivity].
      all: destruct (concat (chunks r)) as [|b c]; [reflexivity|].
      all: destruct (fs w !! dest) as [[|?]|]; reflexivity.
  - rewrite (download_no_reply serve _ _ _ _ _ _ H). reflexivity.
Qed.


(** A file entry with a download address whose asset is served as a
    complete, non-empty stream is stored at the path that
    [next_unique_path] chooses for its name: a path that was free, the
    wanted one when that is free, so that a file already there is kept
    and the asset is fetched again beside it.  One line is printed and one
    request sent. *)
Theorem process_file_stores fuel folder new_token rf url w r s :
  download_url rf = Some url → url ≠ [] →
  (size (fs w) < fuel)%nat →
  serve (GetAsset (asset_url url new_token)) (remote w) = (Some r, s) →
  http_error (status_code r) = false →
  stream_ok r = true →
  concat (chunks r) ≠ [] →
  (∀ q, fs w !! part_path q ≠ Some Dir) →
  let wanted := path_div folder (file_name lower rf) in
  let run := process_file serve lower fuel folder new_token rf w in
  ∃ dest,
    run.1 = Ok tt
    ∧ next_unique_path fuel (fs w) wanted = Some dest
    ∧ fs w !! dest = None
    ∧ (fs w !! wanted = None → dest = wanted)
    ∧ fs run.2 = <[dest := File (concat (chunks r))]>
                   (delete (part_path dest) (fs w))
    ∧ trace run.2
      = trace w ++ [(GetAsset (asset_url url new_token), Some r)]
    ∧ stdout run.2
      = stdout w
        ++ [lit "[get] " ++ name folder ++ lit " -> " ++ name dest].
Proof.
  intros Hurl Hne Hfuel H Hs Hok Hc Hpart. cbv zeta.
  destruct (next_unique_path_total fuel (fs w)
              (path_div folder (file_name lower rf)) Hfuel) as [dest Hd].
  pose proof (next_unique_path_free _ _ _ _ Hd) as Hfree.
  exists dest.
  assert (Hrun :
    process_file serve lower fuel folder new_token rf w
    = (Ok tt,
       with_fs (<[dest := File (concat (chunks r))]>
                  (delete (part_path dest) (fs w)))
         (with_exchange s (GetAsset (asset_url url new_token)) (Some r)
            (mkWorld (remote w) (trace w) (fs w)
               (stdout w ++ [lit "[get] " ++ name folder ++ lit " -> "
                             ++ name dest]))))).
  { unfold process_file. unfold bind at 1. unfold get_fs. rewrite Hd, Hurl.
    destruct url as [|c url]; [congruence|]. cbn [truthy default].
    unfold bind, print. destruct fuel as [|fuel]; [lia|].
    apply (download_stores fuel (c :: url) dest new_token
             (mkWorld (remote w) (trace w) (fs w)
                (stdout w ++ [lit "[get] " ++ name folder ++ lit " -> "
                              ++ name dest])) r s);
      cbn [remote fs];
      [exact H | exact Hs | exact Hok | exact Hc | apply Hpart
      | rewrite Hfree; discriminate]. }
  rewrite Hrun. cbn [fst snd fs trace stdout with_fs with_exchange].
  split; [reflexivity|]. split; [exact Hd|]. split; [exact Hfree|].
  split; [|repeat split].
  intros Hw. unfold next_unique_path in Hd.
  apply path_exists_false in Hw. rewrite Hw in Hd. simpl in Hd.
  congruence.
Qed.

(** A record without [start_time] is never processed: the call sends its
    token request and then fails, with [KeyError] when the token was
    granted; no folder is made, nothing is printed and no asset is
    requested. *)
Theorem process_meeting_no_start_time fuel base meeting w :
  start_time meeting = None →
  let run := process_meeting serve lower fuel base meeting w in
  (∀ u, run.1 ≠ Ok u)
  ∧ run.1 ≠ OutOfFuel
  ∧ (∀ r, (serve PostToken (remote w)).1 = Some r →
          is_Some (reply_token r) →
          run.1 = Err (KeyError "start_time"))
  ∧ fs run.2 = fs w
  ∧ stdout run.2 = stdout w
  ∧ trace run.2
    = trace w ++ [(PostToken, (serve PostToken (remote w)).1)].
Proof.
  intros Hs. cbv zeta.
  destruct (get_token_cases serve w) as (x & s & Hx & Hw & Hok & Hout).
  rewrite Hx. cbn [fst].
  assert (Hrun : process_meeting serve lower fuel base meeting w
                 = (match (get_token serve w).1 with
                    | Ok _ => Err (KeyError "start_time")
                    | Err e => Err e
                    | OutOfFuel => OutOfFuel
                    end, (get_token serve w).2)).
  { unfold process_meeting. unfold bind at 1.
    destruct (get_token serve w) as [[t|e|] w1]; [|reflexivity..].
    unfold bind. rewrite Hs. reflexivity. }
  rewrite Hrun, Hw. cbn [fst snd fs stdout trace with_exchange].
  split; [intros u; destruct (get_token serve w).1; discriminate|].
  split; [destruct (get_token serve w).1;
            [discriminate..|contradiction Hout; reflexivity]|].
  split; [|repeat split].
  intros r -> [t Ht].
  rewrite (get_token_some serve w r s t Hx Ht). reflexivity.
Qed.

(** When the end date lies before the month of the start date, [main]
    makes the output directory, fetches one token and returns: no listing
    is requested and no error is raised. *)
Theorem main_empty_range fuel cfg w w1 r s t :
  date_lt (TO_DATE cfg) (first_of_month (FROM_DATE cfg)) →
  mkdir (OUT_DIR cfg) w = (Ok tt, w1) →
  serve PostToken (remote w1) = (Some r, s) → reply_token r = Some t →
  main serve lower (S fuel) cfg w
  = (Ok tt, with_exchange s PostToken (Some r) w1).
Proof.
  intros Hlt Hm Hr Ht. unfold main. unfold bind at 1. rewrite Hm.
  unfold bind at 1. rewrite (get_token_some serve w1 r s t Hr Ht).
  unfold month_windows, month_windows_dates. cbn [month_windows_from].
  unfold date_leb. unfold date_lt in Hlt. rewrite Hlt. reflexivity.
Qed.

End MoreRemoteFacts.

(** *** What a run leaves in place *)

Section Keeping.

Context {RS : Type}.
Context (serve : Request → RS → option Reply * RS).
Context (P : FS → Prop).

Implicit Types (w : @World RS).

Lemma keeps_bind {A B} (m : @M RS A) (k : A → @M RS B) :
  keeps P m → (∀ a, keeps P (k a)) → keeps P (bind m k).
Proof.
  intros Hm Hk w Hw. unfold bind. specialize (Hm w Hw).
  destruct (m w) as [[a|e|] w1]; simpl in *; [apply Hk, Hm | exact Hm..].
Qed.

Lemma keeps_pure {A} (x : result A) : keeps P (λ w : @World RS, (x, w)).
Proof. intros w Hw. exact Hw. Qed.

Lemma keeps_request req : keeps P (request serve req).
Proof.
  intros w Hw. unfold request. destruct (serve req (remote w)) as [[r|] s];
    exact Hw.
Qed.

Lemma keeps_get_token : keeps P (get_token serve).
Proof.
  intros w Hw. destruct (get_token_cases serve w) as (r & s & _ & -> & _).
  exact Hw.
Qed.

Lemma keeps_fold_m {A B} (f : A → B → @M RS A) l a :
  (∀ a b, keeps P (f a b)) → keeps P (fold_m f l a).
Proof.
  intros Hf. revert a. induction l as [|b l IH]; intros a; simpl.
  - apply (keeps_pure (Ok a)).
  - apply keeps_bind; [apply Hf | exact IH].
Qed.

Lemma keeps_fetch_page user_id token params :
  keeps P (fetch_page serve user_id token params).
Proof.
  unfold fetch_page. apply keeps_bind; [apply keeps_request|]. intros r.
  destruct (status_code r =? 401); [|apply (keeps_pure (Ok _))].
  apply keeps_bind; [apply keeps_get_token|]. intros t.
  apply keeps_bind; [apply keeps_request|]. intros r'.
  apply (keeps_pure (Ok _)).
Qed.

Lemma keeps_list_records_from {A} (body : A → Meeting → str → @M RS A)
    user_id fuel token params next_page acc :
  (∀ a m t, keeps P (body a m t)) →
  keeps P (list_records_from serve body user_id fuel token params
             next_page acc).
Proof.
  intros Hb. revert token params next_page acc.
  induction fuel as [|fuel IH]; intros token params next_page acc.
  - apply (keeps_pure OutOfFuel).
  - cbn [list_records_from]. apply keeps_bind; [apply keeps_fetch_page|].
    intros rt. unfold consume_page.
    apply keeps_bind.
    { unfold raise_for_status. destruct (http_error _);
        [apply (keeps_pure (Err _)) | apply (keeps_pure (Ok _))]. }
    intros _. apply keeps_bind.
    { unfold json. destruct (json_body _);
        [apply (keeps_pure (Ok _)) | apply (keeps_pure (Err _))]. }
    intros data. apply keeps_bind.
    { apply keeps_fold_m. intros a m. apply Hb. }
    intros acc'. destruct (truthy _); [apply IH | apply (keeps_pure (Ok _))].
Qed.

End Keeping.

Section KeepingFiles.

Context {RS : Type}.
Context (serve : Request → RS → option Reply * RS).
Context (lower : str → str).
Context (p : Path) (n : node).

Implicit Types (w : @World RS).

(** Directories are made only where nothing is. *)
Lemma keeps_mkdir_each ps : keeps (kept p n) (@mkdir_each RS ps).
Proof.
  induction ps as [|q ps IH]; [apply (keeps_pure (kept p n) (Ok tt))|].
  intros w Hw. cbn [mkdir_each]. unfold bind at 1. unfold get_fs.
  destruct (fs w !! q) as [[|c]|] eqn:E.
  - apply IH, Hw.
  - exact Hw.
  - unfold bind, set_fs.
    apply (IH (with_fs (<[q := Dir]> (fs w)) w)). unfold kept in *. simpl.
    rewrite lookup_insert_ne; [exact Hw|]. intros ->. congruence.
Qed.

(** The final path of a download is free when it is chosen, and the
    temporary path has a name that ends in [.part]. *)
Lemma keeps_process_file fuel folder new_token rf :
  ends_with (lit ".part") (name p) = false →
  keeps (kept p n) (process_file serve lower fuel folder new_token rf).
Proof.
  intros Hp w Hw. unfold process_file. unfold bind at 1. unfold get_fs.
  destruct (next_unique_path fuel (fs w) _) as [dest|] eqn:E; [|exact Hw].
  apply next_unique_path_free in E.
  destruct (truthy (download_url rf)); [|exact Hw].
  unfold bind, print. unfold kept in *.
  rewrite (download_frame serve); [exact Hw | |].
  - intros ->. simpl in E. congruence.
  - intros ->. rewrite part_path_name in Hp. simpl in Hp.
    rewrite ends_with_app in Hp. discriminate.
Qed.

Lemma keeps_process_meeting fuel base meeting :
  ends_with (lit ".part") (name p) = false →
  keeps (kept p n) (process_meeting serve lower fuel base meeting).
Proof.
  intros Hp. unfold process_meeting.
  apply keeps_bind; [apply keeps_get_token|]. intros t.
  apply keeps_bind.
  { destruct (start_time meeting);
      [apply (keeps_pure (kept p n) (Ok _))
      | apply (keeps_pure (kept p n) (Err _))]. }
  intros dt. apply keeps_bind; [apply keeps_mkdir_each|]. intros _.
  apply keeps_fold_m. intros _ rf. apply keeps_process_file, Hp.
Qed.

(** Whatever the remote answers and however the run ends, [main] leaves
    every file and directory that existed before in place and unchanged,
    unless its name ends in [.part]: nothing is overwritten, renamed or
    removed. *)
Theorem main_keeps_existing_files fuel cfg w :
  fs w !! p = Some n →
  ends_with (lit ".part") (name p) = false →
  fs (main serve lower fuel cfg w).2 !! p = Some n.
Proof.
  intros Hw Hp. revert w Hw.
  change (keeps (kept p n) (main serve lower fuel cfg)).
  unfold main.
  apply keeps_bind; [apply keeps_mkdir_each|]. intros _.
  apply keeps_bind; [apply keeps_get_token|]. intros t.
  destruct (month_windows fuel (FROM_DATE cfg) (TO_DATE cfg)) as [ws e].
  apply keeps_bind.
  - apply keeps_fold_m. intros a ft. apply keeps_list_records_from.
    intros _ m tok. apply keeps_bind; [apply keeps_process_meeting, Hp|].
    intros _. apply (keeps_pure (kept p n) (Ok _)).
  - intros _. destruct e;
      [apply (keeps_pure (kept p n) (Ok _))
      | apply (keeps_pure (kept p n) (Err _))
      | apply (keeps_pure (kept p n) OutOfFuel)].
Qed.

End KeepingFiles.

(** *** Pagination *)

Lemma list_records_from_pages user_id token (pages : list Json) :
  ∀ (last : Json) fuel params next_page acc (w : @World (list Json)),
    Forall (λ p, truthy (next_page_token p) = true) pages →
    truthy (next_page_token last) = false →
    (length pages < fuel)%nat →
    remote w = pages ++ [last] →
    list_records_from paged_remote collect user_id fuel token params
      next_page acc w
    = (Ok (acc ++ flat_map (yielded token) (pages ++ [last])),
       mkWorld [] (trace w
                   ++ page_trace token user_id
                        (set_next_page params next_page) (pages ++ [last]))
         (fs w) (stdout w)).
Proof.
  induction pages as [|p pages IH];
    intros last fuel params next_page acc w Hall Hlast Hfuel Hw.
  all: destruct fuel as [|fuel]; [simpl in Hfuel; lia|].
  all: rewrite (list_records_from_step paged_remote collect).
  all: cbv zeta; set (q := set_next_page params next_page).
  - rewrite (fetch_page_plain paged_remote user_id token q w
               (reply_json last) [])
      by (try (rewrite Hw; reflexivity); discriminate).
    cbn [fst snd]. unfold consume_page, bind, raise_for_status, json.
    simpl. unfold ret. rewrite fold_collect, Hlast.
    unfold with_exchange. simpl. rewrite app_nil_r. reflexivity.
  - rewrite (fetch_page_plain paged_remote user_id token q w
               (reply_json p) (pages ++ [last]))
      by (try (rewrite Hw; reflexivity); discriminate).
    cbn [fst snd]. unfold consume_page, bind, raise_for_status, json.
    simpl. unfold ret. rewrite fold_collect.
    inversion Hall as [|? ? Hp Hall']; subst. rewrite Hp.
    rewrite (IH last fuel q (next_page_token p)) ; try assumption.
    + simpl. rewrite <- !app_assoc. reflexivity.
    + simpl in Hfuel. lia.
    + reflexivity.
Qed.

Lemma page_trace_zip user_id token f t (pages : list Json) :
  ∀ (c : option str) (last : Json),
    Forall (λ p, truthy (next_page_token p) = true) pages →
    page_trace token user_id (mkParams f t 300 c) (pages ++ [last])
    = zip_with
        (λ c p, (GetListing token user_id (mkParams f t 300 c),
                 Some (reply_json p)))
        (c :: (next_page_token <$> pages)) (pages ++ [last]).
Proof.
  induction pages as [|p pages IH]; intros c last Hall; [reflexivity|].
  inversion Hall as [|? ? Hp Hall']; subst. simpl.
  unfold set_next_page. rewrite Hp. simpl. f_equal.
  apply IH, Hall'.
Qed.

(** A listing answered page by page, every page but the last with a
    cursor: [list_records] yields the records of all pages in order, each
    with the token it was given; it sends one request per page, the first
    without a cursor and each later one with the cursor of the page before
    and otherwise the same parameters, the page size 300 among them, and
    stops at the first page whose cursor is missing or empty. *)
Theorem list_records_pages user_id token f t (pages : list Json)
    (last : Json) (fuel : nat) (files : FS) :
  Forall (λ p, truthy (next_page_token p) = true) pages →
  truthy (next_page_token last) = false →
  (length pages < fuel)%nat →
  let run := list_records paged_remote collect user_id fuel token f t []
               (start_world (pages ++ [last]) files) in
  run.1 = Ok (flat_map (yielded token) (pages ++ [last]))
  ∧ trace run.2
    = zip_with
        (λ c p, (GetListing token user_id (mkParams f t 300 c),
                 Some (reply_json p)))
        (None :: (next_page_token <$> pages)) (pages ++ [last])
  ∧ remote run.2 = [].
Proof.
  intros Hall Hlast Hfuel. cbv zeta. unfold list_records.
  rewrite (list_records_from_pages user_id token pages last fuel
             (mkParams f t 300 None) None []
             (start_world (pages ++ [last]) files) Hall Hlast Hfuel eq_refl).
  simpl. split; [reflexivity|]. split; [|reflexivity].
  apply (page_trace_zip user_id token f t pages None last Hall).
Qed.

(** Against a remote whose every page carries a cursor, [list_records]
    never ends: whatever the number of rounds allowed, it is still
    running after that many requests.  Nothing bounds the pages and a
    cursor seen before is followed again. *)
Theorem list_records_endless user_id token f t (page : Json) (files : FS) :
  truthy (next_page_token page) = true →
  ∀ fuel,
    let run := list_records (looping_remote page) collect user_id fuel
                 token f t [] (start_world tt files) in
    run.1 = OutOfFuel ∧ length (trace run.2) = fuel.
Proof.
  intros Hp fuel. cbv zeta. unfold list_records.
  assert (G : ∀ fuel params np acc (w : @World unit),
    (list_records_from (looping_remote page) collect user_id fuel token
       params np acc w).1 = OutOfFuel
    ∧ length (trace (list_records_from (looping_remote page) collect
                       user_id fuel token params np acc w).2)
      = (length (trace w) + fuel)%nat).
  { clear fuel. induction fuel as [|fuel IH]; intros params np acc w.
    - simpl. split; [reflexivity | lia].
    - rewrite (list_records_from_step (looping_remote page) collect).
      cbv zeta. set (q := set_next_page params np).
      rewrite (fetch_page_plain (looping_remote page) user_id token q w
                 (reply_json page) tt) by (try reflexivity; discriminate).
      cbn [fst snd]. unfold consume_page, bind, raise_for_status, json.
      simpl. unfold ret. rewrite fold_collect, Hp.
      destruct (IH q (next_page_token page)
                  (acc ++ ((λ m, (m, token)) <$> default [] (meetings page)))
                  (with_exchange tt (GetListing token user_id q)
                     (Some (reply_json page)) w)) as [H1 H2].
      split; [exact H1|]. rewrite H2. simpl. rewrite length_app. simpl. lia. }
  destruct (G fuel (mkParams f t 300 None) None []
              (start_world tt files)) as [H1 H2].
  split; [exact H1 | exact H2].
Qed.

(** *** The requests of a run *)

Section Always.

Context {RS : Type}.
Context (serve : Request → RS → option Reply * RS).
Context (lower : str → str).
Context (Q : exchange → Prop).

Implicit Types (w : @World RS).

Lemma always_bind {A B} (m : @M RS A) (k : A → @M RS B) :
  always Q m → (∀ a, always Q (k a)) → always Q (bind m k).
Proof.
  intros Hm Hk w. unfold bind. destruct (Hm w) as (d1 & Hd1 & H1).
  destruct (m w) as [[a|e|] w1]; simpl in *; [|eauto..].
  destruct (Hk a w1) as (d2 & Hd2 & H2). exists (d1 ++ d2).
  rewrite Hd2, Hd1, app_assoc. split; [reflexivity|].
  apply Forall_app. auto.
Qed.

Lemma always_quiet {A} (m : @M RS A) : quiet m → always Q m.
Proof.
  intros H w. destruct (H w) as (d & Hd & ->). exists []. auto.
Qed.

Lemma always_request req :
  (∀ x, Q (req, x)) → always Q (request serve req).
Proof.
  intros H w. exists [(req, (serve req (remote w)).1)]. unfold request.
  destruct (serve req (remote w)) as [[r|] s]; simpl; auto.
Qed.

Hypothesis Q_token : ∀ x, Q (PostToken, x).
Hypothesis Q_asset : ∀ url x, Q (GetAsset url, x).

Lemma always_get_token : always Q (get_token serve).
Proof.
  intros w. destruct (get_token_cases serve w) as (r & s & _ & -> & _).
  exists [(PostToken, r)]. auto.
Qed.

Lemma always_download fuel url dest :
  ∀ token, always Q (download serve fuel url dest token).
Proof.
  induction fuel as [|fuel IH]; intros token.
  - apply always_quiet, quiet_out_of_fuel.
  - cbn [download]. apply always_bind.
    + apply always_bind; [apply always_request, Q_asset|]. intros r.
      destruct (status_code r =? 401).
      * apply always_bind; [apply always_get_token|]. intros t.
        apply always_bind; [apply IH|]. intros _.
        apply always_quiet, quiet_raise.
      * apply always_quiet. apply quiet_seq; [apply quiet_raise_for_status|].
        intros _. apply quiet_seq; [apply quiet_open_wb|]. intros _.
        apply quiet_write_chunks.
    + intros _. apply always_quiet. apply quiet_seq; [apply quiet_stat_size|].
      intros size. destruct (size =? 0).
      * apply quiet_seq; [apply quiet_unlink | intros _; apply quiet_raise].
      * apply quiet_rename.
Qed.

Lemma always_fold_m {A B} (f : A → B → @M RS A) l :
  (∀ a b, b ∈ l → always Q (f a b)) → ∀ a, always Q (fold_m f l a).
Proof.
  induction l as [|b l IH]; intros Hf a; simpl.
  - apply always_quiet, quiet_ret.
  - apply always_bind; [apply Hf; left|]. intros a'. apply IH.
    intros a'' b' Hb. apply Hf. right. exact Hb.
Qed.

Lemma always_process_file fuel folder t rf :
  always Q (process_file serve lower fuel folder t rf).
Proof.
  unfold process_file. apply always_bind; [apply always_quiet, quiet_get_fs|].
  intros f. destruct (next_unique_path fuel f _) as [dest|];
    [|apply always_quiet, quiet_out_of_fuel].
  destruct (truthy (download_url rf)); [|apply always_quiet, quiet_print].
  apply always_bind; [apply always_quiet, quiet_print|]. intros _.
  apply always_download.
Qed.

Lemma always_process_meeting fuel base meeting :
  always Q (process_meeting serve lower fuel base meeting).
Proof.
  unfold process_meeting. apply always_bind; [apply always_get_token|].
  intros t. apply always_bind.
  { destruct (start_time meeting);
      [apply always_quiet, quiet_ret | apply always_quiet, quiet_raise]. }
  intros dt. apply always_bind; [apply always_quiet, quiet_mkdir|].
  intros _. apply always_fold_m. intros _ rf _. apply always_process_file.
Qed.

Lemma always_list_records_from {A} (body : A → Meeting → str → @M RS A)
    user_id f t size fuel :
  (∀ a m tok, always Q (body a m tok)) →
  (∀ tok c x, Q (GetListing tok user_id (mkParams f t size c), x)) →
  ∀ token c next_page acc,
    always Q (list_records_from serve body user_id fuel token
                (mkParams f t size c) next_page acc).
Proof.
  intros Hb Hq. induction fuel as [|fuel IH]; intros token c next_page acc.
  - apply always_quiet, quiet_out_of_fuel.
  - cbn [list_records_from].
    assert (∃ c', set_next_page (mkParams f t size c) next_page
                  = mkParams f t size c') as [c' ->].
    { unfold set_next_page. destruct (truthy next_page); eauto. }
    apply always_bind.
    + unfold fetch_page. apply always_bind; [apply always_request, Hq|].
      intros r. destruct (status_code r =? 401);
        [|apply always_quiet, quiet_ret].
      apply always_bind; [apply always_get_token|]. intros t'.
      apply always_bind; [apply always_request, Hq|]. intros r'.
      apply always_quiet, quiet_ret.
    + intros rt. unfold consume_page.
      apply always_bind; [apply always_quiet, quiet_raise_for_status|].
      intros _. apply always_bind; [apply always_quiet, quiet_json|].
      intros data. apply always_bind.
      { apply always_fold_m. intros a m _. apply Hb. }
      intros acc'. destruct (truthy _);
        [apply IH | apply always_quiet, quiet_ret].
Qed.

End Always.

Section MainRanges.

Context {RS : Type}.
Context (serve : Request → RS → option Reply * RS).
Context (lower : str → str).

Implicit Types (w : @World RS).

(** Whatever the remote answers and however the run ends, every listing
    request of [main] is for the configured user, asks for pages of 300
    records, and carries as its range one of the windows that
    [month_windows] yields for the configured dates. *)
Theorem main_listing_requests fuel cfg w :
  let run := main serve lower fuel cfg w in
  ∃ d, trace run.2 = trace w ++ d
       ∧ ∀ tok uid p x, (GetListing tok uid p, x) ∈ d →
           uid = USER_ID cfg
           ∧ p_page_size p = 300
           ∧ (p_from p, p_to p)
             ∈ (month_windows fuel (FROM_DATE cfg) (TO_DATE cfg)).1.
Proof.
  cbv zeta.
  set (Q := lists_range (USER_ID cfg)
              (month_windows fuel (FROM_DATE cfg) (TO_DATE cfg)).1).
  assert (Qt : ∀ x, Q (PostToken, x)) by (intros x; exact I).
  assert (Qa : ∀ url x, Q (GetAsset url, x)) by (intros url x; exact I).
  assert (H : always Q (main serve lower fuel cfg)).
  { unfold main. apply always_bind; [apply always_quiet, quiet_mkdir|].
    intros _. apply always_bind; [apply (always_get_token serve Q Qt)|].
    intros t. subst Q.
    destruct (month_windows fuel (FROM_DATE cfg) (TO_DATE cfg)) as [ws e].
    cbn [fst] in *. apply always_bind.
    - apply always_fold_m. intros a [f' t'] Hin. unfold list_records.
      apply (always_list_records_from serve _ Qt); [|].
      + intros _ m tok. apply always_bind;
          [apply (always_process_meeting serve lower _ Qt Qa)|].
        intros _. apply always_quiet, quiet_ret.
      + intros tok c x. unfold lists_range. simpl. auto.
    - intros _. destruct e;
        [apply always_quiet, quiet_ret | apply always_quiet, quiet_raise
        | apply always_quiet, quiet_out_of_fuel]. }
  destruct (H w) as (d & Hd & Hall). exists d. split; [exact Hd|].
  intros tok uid p x Hin. rewrite Forall_forall in Hall.
  apply (Hall _ Hin).
Qed.

End MainRanges.

(** *** Where a run writes *)

Lemma ancestors_from_app pre l1 l2 :
  ancestors_from pre (l1 ++ l2)
  = ancestors_from pre l1 ++ ancestors_from (pre ++ l1) l2.
Proof.
  revert pre. induction l1 as [|n l1 IH]; intros pre; simpl.
  - rewrite app_nil_r. reflexivity.
  - rewrite IH, <- app_assoc. reflexivity.
Qed.

Lemma ancestors_path_div (base : Path) (n : str) :
  ancestors (path_div base n) = ancestors base ++ [base].
Proof.
  unfold ancestors, path_div. cbn [parent]. rewrite ancestors_from_app.
  destruct base; reflexivity.
Qed.

Lemma within_base base : within base base = true.
Proof.
  unfold within. rewrite bool_decide_eq_true_2 by reflexivity. reflexivity.
Qed.

Lemma within_ancestor base q : q ∈ ancestors base → within base q = true.
Proof.
  intros H. unfold within. rewrite (bool_decide_eq_true_2 _ H).
  apply orb_true_iff. left. apply orb_true_r.
Qed.

Lemma within_below base q :
  (parent base ++ [name base]) `prefix_of` parent q → within base q = true.
Proof.
  intros H. unfold within. rewrite (bool_decide_eq_true_2 _ H).
  apply orb_true_r.
Qed.

Section WritingInside.

Context {RS : Type}.
Context (serve : Request → RS → option Reply * RS).
Context (lower : str → str).
Context (q : Path).

Implicit Types (w : @World RS).

Lemma absent_mkdir_each ps :
  q ∉ ps → keeps (absent q) (@mkdir_each RS ps).
Proof.
  induction ps as [|p ps IH]; intros Hq;
    [apply (keeps_pure (absent q) (Ok tt))|].
  apply not_elem_of_cons in Hq as [Hp Hq].
  intros w Hw. cbn [mkdir_each]. unfold bind at 1. unfold get_fs.
  destruct (fs w !! p) as [[|c]|] eqn:E.
  - apply (IH Hq), Hw.
  - exact Hw.
  - unfold bind, set_fs.
    apply (IH Hq (with_fs (<[p := Dir]> (fs w)) w)). unfold absent in *.
    simpl. rewrite lookup_insert_ne by congruence. exact Hw.
Qed.

Lemma absent_process_file fuel folder new_token rf :
  parent q ≠ parent folder ++ [name folder] →
  keeps (absent q) (process_file serve lower fuel folder new_token rf).
Proof.
  intros Hq w Hw. unfold process_file. unfold bind at 1. unfold get_fs.
  destruct (next_unique_path fuel (fs w) _) as [dest|] eqn:E; [|exact Hw].
  apply next_unique_path_parent in E. cbn [parent path_div] in E.
  destruct (truthy (download_url rf)); [|exact Hw].
  unfold bind, print. unfold absent in *.
  rewrite (download_frame serve); [exact Hw | |].
  - intros ->. congruence.
  - intros ->. rewrite part_path_name in Hq. simpl in Hq. congruence.
Qed.

Lemma absent_process_meeting fuel base meeting :
  within base q = false →
  keeps (absent q) (process_meeting serve lower fuel base meeting).
Proof.
  intros Hq. unfold process_meeting.
  apply keeps_bind; [apply keeps_get_token|]. intros t.
  apply keeps_bind.
  { destruct (start_time meeting);
      [apply (keeps_pure (absent q) (Ok _))
      | apply (keeps_pure (absent q) (Err _))]. }
  intros dt. set (folder := path_div base (folder_name meeting dt)).
  assert (Hf : (parent base ++ [name base]) `prefix_of` parent folder)
    by reflexivity.
  apply keeps_bind.
  - unfold mkdir. apply absent_mkdir_each. unfold folder at 1.
    rewrite ancestors_path_div. intros Hin.
    rewrite !elem_of_app, !list_elem_of_singleton in Hin.
    destruct Hin as [[Hin | ->] | ->].
    + rewrite (within_ancestor _ _ Hin) in Hq. discriminate.
    + rewrite within_base in Hq. discriminate.
    + rewrite (within_below _ _ Hf) in Hq. discriminate.
  - intros _. apply keeps_fold_m. intros _ rf. apply absent_process_file.
    intros Hp. rewrite (within_below base q) in Hq; [discriminate|].
    rewrite Hp. cbn [parent folder path_div].
    apply prefix_app_r. reflexivity.
Qed.

(** Whatever the remote answers and however the run ends, [main] creates
    nothing outside the output directory: a path that was free and is
    neither that directory, nor one of its parents, nor below it, is still
    free afterwards. *)
Theorem main_writes_inside fuel cfg w :
  fs w !! q = None →
  within (OUT_DIR cfg) q = false →
  fs (main serve lower fuel cfg w).2 !! q = None.
Proof.
  intros Hw Hq. revert w Hw.
  change (keeps (absent q) (main serve lower fuel cfg)).
  unfold main.
  apply keeps_bind.
  { unfold mkdir. apply absent_mkdir_each. intros Hin.
    rewrite elem_of_app, list_elem_of_singleton in Hin.
    destruct Hin as [Hin | ->].
    - rewrite (within_ancestor _ _ Hin) in Hq. discriminate.
    - rewrite within_base in Hq. discriminate. }
  intros _. apply keeps_bind; [apply keeps_get_token|]. intros t.
  destruct (month_windows fuel (FROM_DATE cfg) (TO_DATE cfg)) as [ws e].
  apply keeps_bind.
  - apply keeps_fold_m. intros a ft. apply keeps_list_records_from.
    intros _ m tok. apply keeps_bind; [apply absent_process_meeting, Hq|].
    intros _. apply (keeps_pure (absent q) (Ok _)).
  - intros _. destruct e;
      [apply (keeps_pure (absent q) (Ok _))
      | apply (keeps_pure (absent q) (Err _))
      | apply (keeps_pure (absent q) OutOfFuel)].
Qed.

End WritingInside.


(** *** The properties above at sample inputs *)

Lemma get_token_outcome_witness :
  get_token (scenario_remote []) (start_world O ∅)
  = (Ok demo_token,
     with_exchange O PostToken
       (Some (reply_json (mkJson (Some demo_token) None None)))
       (start_world O ∅)).
Proof.
  apply (get_token_outcome (scenario_remote []) (start_world O ∅)
           (Some (reply_json (mkJson (Some demo_token) None None))) O).
  reflexivity.
Defined.

Lemma download_returns_iff_witness :
  download (scenario_remote []) 1 (audio_url 1) first_audio demo_token
    (start_world O ∅)
  = (Ok tt,
     with_fs (<[first_audio := File (concat [demo_data])]>
                (delete (part_path first_audio) ∅))
       (with_exchange O (GetAsset (asset_url (audio_url 1) demo_token))
          (Some (reply_body [demo_data])) (start_world O ∅))).
Proof.
  apply (download_returns_iff (scenario_remote []) 0 (audio_url 1)
           first_audio demo_token (start_world O ∅)).
  exists (reply_body [demo_data]), O.
  split; [vm_compute; reflexivity|]. split; [reflexivity|].
  split; [reflexivity|]. split; [discriminate|].
  split; [vm_compute; discriminate|]. split; [vm_compute; discriminate|].
  reflexivity.
Defined.

Lemma download_broken_stream_witness :
  let run := download broken_remote 1 (audio_url 1) first_audio demo_token
               (start_world O ∅) in
  run.1 = Err ConnectionError
  ∧ fs run.2 !! part_path first_audio
    = Some (File (concat (chunks broken_stream)))
  ∧ fs run.2 !! first_audio = (∅ : FS) !! first_audio
  ∧ trace run.2
    = [] ++ [(GetAsset (asset_url (audio_url 1) demo_token),
              Some broken_stream)].
Proof.
  apply (download_broken_stream broken_remote 0 (audio_url 1) first_audio
           demo_token (start_world O ∅) broken_stream O).
  - vm_compute. reflexivity.
  - reflexivity.
  - reflexivity.
  - vm_compute. discriminate.
Defined.

Lemma download_refused_witness :
  download (scenario_remote []) 1 (lit "https://zoom.test/gone") first_audio
    demo_token (start_world O ∅)
  = (Err (HTTPError 404),
     with_exchange O
       (GetAsset (asset_url (lit "https://zoom.test/gone") demo_token))
       (Some (reply_status 404)) (start_world O ∅)).
Proof.
  apply (download_refused (scenario_remote []) 0
           (lit "https://zoom.test/gone") first_audio demo_token
           (start_world O ∅) (Some (reply_status 404)) O).
  - vm_compute. reflexivity.
  - intros r [= <-]. split; [reflexivity | discriminate].
Defined.

Lemma download_retry_raises_witness :
  let run := download (scenario_remote []) 2 (audio_url 1) first_audio
               demo_token (start_world 1%nat ∅) in
  run.1 = Err (RuntimeError msg_token_expired)
  ∧ fs run.2 !! first_audio = Some (File (concat [demo_data]))
  ∧ fs run.2 !! part_path first_audio = None
  ∧ trace run.2
    = [] ++ [(GetAsset (asset_url (audio_url 1) demo_token),
              Some (reply_status 401));
             (PostToken,
              Some (reply_json (mkJson (Some demo_token) None None)));
             (GetAsset (asset_url (audio_url 1) demo_token),
              Some (reply_body [demo_data]))].
Proof.
  apply (download_retry_raises (scenario_remote []) 0 (audio_url 1)
           first_audio demo_token (start_world 1%nat ∅)
           (reply_status 401) O
           (reply_json (mkJson (Some demo_token) None None)) O demo_token
           (reply_body [demo_data]) O).
  - vm_compute. reflexivity.
  - reflexivity.
  - reflexivity.
  - reflexivity.
  - vm_compute. reflexivity.
  - reflexivity.
  - reflexivity.
  - discriminate.
  - vm_compute. discriminate.
  - vm_compute. discriminate.
Defined.

Lemma download_touches_two_paths_witness :
  let w := start_world O {[notes := File demo_data]} in
  let run := download (scenario_remote []) 1 (audio_url 1) first_audio
               demo_token w in
  fs run.2 !! notes = fs w !! notes ∧ stdout run.2 = stdout w.
Proof.
  apply (download_touches_two_paths (scenario_remote []) 1 (audio_url 1)
           first_audio demo_token
           (start_world O {[notes := File demo_data]}) notes).
  - vm_compute. discriminate.
  - vm_compute. discriminate.
Defined.


Lemma process_file_stores_witness :
  let w := start_world O (∅ : FS) in
  let wanted := path_div first_folder (file_name ascii_lower (audio_file 1)) in
  let run := process_file (scenario_remote []) ascii_lower 1 first_folder
               demo_token (audio_file 1) w in
  ∃ dest,
    run.1 = Ok tt
    ∧ next_unique_path 1 (fs w) wanted = Some dest
    ∧ fs w !! dest = None
    ∧ (fs w !! wanted = None → dest = wanted)
    ∧ fs run.2 = <[dest := File (concat (chunks (reply_body [demo_data])))]>
                   (delete (part_path dest) (fs w))
    ∧ trace run.2
      = trace w ++ [(GetAsset (asset_url (audio_url 1) demo_token),
                     Some (reply_body [demo_data]))]
    ∧ stdout run.2
      = stdout w
        ++ [lit "[get] " ++ name first_folder ++ lit " -> " ++ name dest].
Proof.
  apply (process_file_stores (scenario_remote []) ascii_lower 1 first_folder
           demo_token (audio_file 1) (audio_url 1) (start_world O ∅)
           (reply_body [demo_data]) O).
  - reflexivity.
  - vm_compute. discriminate.
  - vm_compute. lia.
  - vm_compute. reflexivity.
  - reflexivity.
  - reflexivity.
  - discriminate.
  - intros q. vm_compute. discriminate.
Defined.

Lemma process_meeting_no_start_time_witness :
  let run := process_meeting (scenario_remote []) ascii_lower 1 out_dir
               escaping_meeting (start_world O ∅) in
  (∀ u, run.1 ≠ Ok u)
  ∧ run.1 ≠ OutOfFuel
  ∧ (∀ r, (scenario_remote [] PostToken O).1 = Some r →
          is_Some (reply_token r) →
          run.1 = Err (KeyError "start_time"))
  ∧ fs run.2 = ∅
  ∧ stdout run.2 = []
  ∧ trace run.2 = [] ++ [(PostToken, (scenario_remote [] PostToken O).1)].
Proof.
  apply (process_meeting_no_start_time (scenario_remote []) ascii_lower 1
           out_dir escaping_meeting (start_world O ∅)).
  reflexivity.
Defined.

Lemma main_empty_range_witness :
  main (scenario_remote []) ascii_lower 1 reversed_cfg (start_world O ∅)
  = (Ok tt,
     with_exchange O PostToken
       (Some (reply_json (mkJson (Some demo_token) None None)))
       (mkdir (OUT_DIR reversed_cfg) (start_world O ∅)).2).
Proof.
  apply (main_empty_range (scenario_remote []) ascii_lower 0 reversed_cfg
           (start_world O ∅)
           (mkdir (OUT_DIR reversed_cfg) (start_world O ∅)).2
           (reply_json (mkJson (Some demo_token) None None)) O demo_token).
  - reflexivity.
  - assert (H : (mkdir (OUT_DIR reversed_cfg)
                   (start_world O (∅ : FS))).1 = Ok tt)
      by (vm_compute; reflexivity).
    rewrite <- H. apply surjective_pairing.
  - vm_compute. reflexivity.
  - reflexivity.
Defined.

Lemma main_keeps_existing_files_witness :
  fs (main (scenario_remote [demo_data]) ascii_lower 4 scenario_cfg
        (start_world O {[first_audio := File []]})).2 !! first_audio
  = Some (File []).
Proof.
  apply (main_keeps_existing_files (scenario_remote [demo_data]) ascii_lower
           first_audio (File []) 4 scenario_cfg
           (start_world O {[first_audio := File []]})).
  - vm_compute. reflexivity.
  - vm_compute. reflexivity.
Defined.

Lemma list_records_pages_witness :
  let run := list_records paged_remote collect (lit "me") 2 demo_token
               (lit "2024-01-01") (lit "2024-01-31") []
               (start_world ([first_page] ++ [last_page []]) ∅) in
  run.1 = Ok (flat_map (yielded demo_token) ([first_page] ++ [last_page []]))
  ∧ trace run.2
    = zip_with
        (λ c p, (GetListing demo_token (lit "me")
                   (mkParams (lit "2024-01-01") (lit "2024-01-31") 300 c),
                 Some (reply_json p)))
        (None :: (next_page_token <$> [first_page]))
        ([first_page] ++ [last_page []])
  ∧ remote run.2 = [].
Proof.
  apply (list_records_pages (lit "me") demo_token (lit "2024-01-01")
           (lit "2024-01-31") [first_page] (last_page []) 2 ∅).
  - repeat constructor.
  - reflexivity.
  - simpl. lia.
Defined.

Lemma list_records_endless_witness :
  let run := list_records (looping_remote first_page) collect (lit "me")
               7 demo_token (lit "2024-01-01") (lit "2024-01-31") []
               (start_world tt ∅) in
  run.1 = OutOfFuel ∧ length (trace run.2) = 7%nat.
Proof.
  apply (list_records_endless (lit "me") demo_token (lit "2024-01-01")
           (lit "2024-01-31") first_page ∅ eq_refl 7).
Defined.

Lemma main_writes_inside_witness :
  fs (main (scenario_remote [demo_data]) ascii_lower 4 scenario_cfg
        (start_world O ∅)).2 !! notes = None.
Proof.
  apply (main_writes_inside (scenario_remote [demo_data]) ascii_lower notes
           4 scenario_cfg (start_world O ∅)).
  - vm_compute. reflexivity.
  - vm_compute. reflexivity.
Defined.
